(** * SmolDungeon: the Go combat resolver (apps/dm-go), embedded and verified

    The development follows the Go sources: [types.go] for the data model,
    [rng.go] for the dice, and the resolver file that defines [ApplyAction],
    the five handlers, [advanceTurn], [deepCopyState] and [CheckCombatEnd].

    Modelling conventions.
    - Go's [int] is modelled by [Z].  The game's numbers are small; the model
      covers executions in which no intermediate result leaves the int64
      range and in which the [float64] round trip of
      [int(math.Max(a, float64(x)))] is exact (|x| <= 2^53), so that
      [math.Max]/[math.Min] are [Z.max]/[Z.min].  Go's [/] and [%] truncate
      towards zero: [Z.quot] and [Z.rem].
    - A slice is a [list]; a [nil] slice and an empty one are the same list.
      A pointer into [state.Characters] is the index of the element.
    - [map[string]int] is [option (gmap string Z)]: [None] is the [nil] map
      (what [encoding/json] produces for a missing or [null] field).  Reading
      a [nil] map yields 0, ranging over it does nothing, writing to it
      panics.
    - A Go panic is the [Panic] result; there are two in this code: the write
      to a [nil] map in [handleAbility] and the [% len(TurnOrder)] of
      [advanceTurn] when the turn order is empty.
    - [math/rand] is not part of the repository: the generator is a
      parameter ([RandSource]) of which only the range of [Intn] is known.
    - The order in which Go ranges over a map is unspecified: it is a
      parameter too ([MapRange]).
    - [log.Printf] writes to the process log only and is left out. *)

From Stdlib Require Import ZArith String Ascii List Lia.
From stdpp Require Import base tactics option list gmap strings pretty.

Local Open Scope string_scope.
Local Open Scope Z_scope.
Local Open Scope list_scope.

(** ** Results: a value or a Go panic *)

Inductive panic : Type :=
| NilMapWrite    (* assignment to entry in nil map *)
| DivideByZero.  (* integer divide by zero *)

Inductive result (A : Type) : Type :=
| Ok (a : A)
| Panic (p : panic).
Arguments Ok {A} a.
Arguments Panic {A} p.

Definition bind {A B} (r : result A) (k : A -> result B) : result B :=
  match r with
  | Ok a => k a
  | Panic p => Panic p
  end.

Notation "x <- r ;; k" := (bind r (fun x => k))
  (at level 100, r at next level, right associativity).

(** ** Data model (types.go) *)

Definition ID := string.

Record Stat := mkStat {
  HP : Z;
  MaxHP : Z;
  Attack : Z;
  Defense : Z;
  Speed : Z
}.

Record Position := mkPosition { X : Z; Y : Z }.

Record Weapon := mkWeapon {
  Weapon_ID : ID;
  Weapon_Name : string;
  Damage : Z;
  Accuracy : Z
}.

Record Ability := mkAbility {
  Ability_ID : ID;
  Ability_Name : string;
  Cooldown : Z;
  Effect : string;
  Power : Z
}.

Record Item := mkItem {
  Item_ID : ID;
  Item_Name : string;
  Item_Type : string;
  Item_Effect : string
}.

Record Character := mkCharacter {
  Char_ID : ID;
  Name : string;
  Stats : Stat;
  Pos : Position;
  Weapons : list Weapon;
  Abilities : list Ability;
  Items : list Item;
  AbilityCooldowns : option (gmap string Z);
  IsPlayer : bool
}.

Record Action := mkAction {
  Kind : string;
  Attacker : ID;
  Target : ID;
  Action_Weapon : ID;
  Actor : ID;
  Action_Ability : ID;
  Action_Item : ID
}.

Record Event := mkEvent {
  Event_ID : string;
  Event_Type : string;
  Event_Target : ID;
  Event_Amount : Z;
  Event_Source : ID;
  Event_Actor : ID;
  Event_Ability : ID;
  Event_Item : ID
}.

Record State := mkState {
  Round : Z;
  Characters : list Character;
  TurnOrder : list ID;
  CurrentTurn : Z;
  IsComplete : bool;
  Winner : option string
}.

Record Resolution := mkResolution {
  Events : list Event;
  Res_State : State;
  Logs : list string
}.

(** Field assignments through a pointer, as functional updates. *)

Definition set_HP (c : Character) (hp : Z) : Character :=
  let s := Stats c in
  mkCharacter (Char_ID c) (Name c)
    (mkStat hp (MaxHP s) (Attack s) (Defense s) (Speed s))
    (Pos c) (Weapons c) (Abilities c) (Items c) (AbilityCooldowns c) (IsPlayer c).

Definition set_Defense (c : Character) (d : Z) : Character :=
  let s := Stats c in
  mkCharacter (Char_ID c) (Name c)
    (mkStat (HP s) (MaxHP s) (Attack s) d (Speed s))
    (Pos c) (Weapons c) (Abilities c) (Items c) (AbilityCooldowns c) (IsPlayer c).

Definition set_Items (c : Character) (its : list Item) : Character :=
  mkCharacter (Char_ID c) (Name c) (Stats c) (Pos c) (Weapons c) (Abilities c)
    its (AbilityCooldowns c) (IsPlayer c).

Definition set_AbilityCooldowns (c : Character) (m : option (gmap string Z)) : Character :=
  mkCharacter (Char_ID c) (Name c) (Stats c) (Pos c) (Weapons c) (Abilities c)
    (Items c) m (IsPlayer c).

Definition set_Characters (st : State) (cs : list Character) : State :=
  mkState (Round st) cs (TurnOrder st) (CurrentTurn st) (IsComplete st) (Winner st).

(** [*p = c] for the pointer [p = &state.Characters[i]]. *)
Definition store (st : State) (i : nat) (c : Character) : State :=
  set_Characters st (<[i := c]> (Characters st)).

(** Events as the handlers build them; fields left out of a Go composite
    literal hold the zero value. *)

Definition damageEvent (target : ID) (amount : Z) (source : ID) : Event :=
  mkEvent "" "damage" target amount source "" "" "".
Definition deathEvent (target : ID) : Event :=
  mkEvent "" "death" target 0 "" "" "" "".
Definition healEvent (target : ID) (amount : Z) : Event :=
  mkEvent "" "heal" target amount "" "" "" "".
Definition fleeEvent (actor : ID) : Event :=
  mkEvent "" "flee" "" 0 "" actor "" "".
Definition abilityUsedEvent (actor ability target : ID) : Event :=
  mkEvent "" "ability_used" target 0 "" actor ability "".
Definition itemUsedEvent (actor item : ID) : Event :=
  mkEvent "" "item_used" "" 0 "" actor "" item.

(** ** Maps with a nil value *)

(** [m[k]] on a possibly nil map: the zero value when absent. *)
Definition map_get (m : option (gmap string Z)) (k : string) : Z :=
  match m with
  | Some g => default 0 (g !! k)
  | None => 0
  end.

(** [m[k] = v]: panics on the nil map. *)
Definition map_set (m : option (gmap string Z)) (k : string) (v : Z)
  : result (option (gmap string Z)) :=
  match m with
  | Some g => Ok (Some (<[k := v]> g))
  | None => Panic NilMapWrite
  end.

(** ** strings.Contains *)

Fixpoint Contains (s substr : string) : bool :=
  if String.prefix substr s then true
  else match s with
       | EmptyString => false
       | String _ s' => Contains s' substr
       end.

(** [%d] of fmt.Sprintf. *)
Definition fmt_d (z : Z) : string := pretty z.

(** ** The dice (rng.go) *)

(** What is known of [math/rand]: a generator state made from a seed, and
    [Intn n] in [0, n) for positive [n]. *)
Class RandSource := {
  Rand : Type;
  NewSource : Z -> Rand;
  Intn : Rand -> Z -> Z * Rand;
  Intn_bounds : forall r n, 0 < n -> 0 <= fst (Intn r n) < n
}.

(** The order of [for k, v := range m]: some enumeration of the keys, each
    exactly once. *)
Class MapRange := {
  range_keys : gmap string Z -> list string;
  range_keys_perm : forall m, range_keys m ≡ₚ (map_to_list m).*1
}.

Section Resolver.
Context {RS : RandSource} {MR : MapRange}.

Record SeededRNG := mkSeededRNG { rng : Rand }.

Definition NewSeededRNG (seed : Z) : SeededRNG := mkSeededRNG (NewSource seed).

Definition RollD20 (s : SeededRNG) : Z * SeededRNG :=
  let '(v, r) := Intn (rng s) 20 in (v + 1, mkSeededRNG r).

Definition RollD6 (s : SeededRNG) : Z * SeededRNG :=
  let '(v, r) := Intn (rng s) 6 in (v + 1, mkSeededRNG r).

(** ** State queries *)

(** The pointer returned by the Go function is the index of the first
    character with that id; the character read through it comes along. *)
Definition GetCharacterByID (state : State) (id : ID) : option (nat * Character) :=
  list_find (fun c => Char_ID c = id) (Characters state).

Definition getActorID (action : Action) : ID :=
  if String.eqb (Kind action) "Attack" then Attacker action
  else if String.eqb (Kind action) "Defend" || String.eqb (Kind action) "Ability"
          || String.eqb (Kind action) "UseItem" || String.eqb (Kind action) "Flee"
  then Actor action
  else "".

(** [json.Marshal] followed by [json.Unmarshal] rebuilds a structurally equal
    [State] in fresh memory (neither call can fail on this type, so the
    shallow fallback is never taken).  On values the copy is the identity;
    the fresh memory matters for aliasing only and is modelled in [Mem]. *)
Definition deepCopyState (state : State) : State := state.

Definition CheckCombatEnd (state : State) : bool :=
  IsComplete state || bool_decide (20 <= Round state).

(** ** advanceTurn *)

(** One iteration of the body of [for abilityID, cooldown := range m]. *)
Definition decay_step (m : gmap string Z) (abilityID : string) : gmap string Z :=
  match m !! abilityID with
  | Some cooldown => if bool_decide (0 < cooldown) then <[abilityID := cooldown - 1]> m else m
  | None => m
  end.

Definition decayCooldowns (m : option (gmap string Z)) : option (gmap string Z) :=
  match m with
  | Some g => Some (foldl decay_step g (range_keys g))
  | None => None
  end.

Definition resetDefense (d : Z) : Z :=
  if bool_decide (5 < d) then Z.max 0 (d - 2) else d.

(** The body of the first loop of [advanceTurn] for one character. *)
Definition tick (c : Character) : Character :=
  let c := set_AbilityCooldowns c (decayCooldowns (AbilityCooldowns c)) in
  set_Defense c (resetDefense (Defense (Stats c))).

(** The second loop: [(alivePlayers, aliveEnemies)]. *)
Definition countAlive (cs : list Character) : Z * Z :=
  foldl (fun '(alivePlayers, aliveEnemies) c =>
           if IsPlayer c && bool_decide (0 < HP (Stats c)) then (alivePlayers + 1, aliveEnemies)
           else if negb (IsPlayer c) && bool_decide (0 < HP (Stats c)) then (alivePlayers, aliveEnemies + 1)
           else (alivePlayers, aliveEnemies))
        (0, 0) cs.

Definition advanceTurn (state : State) : result State :=
  let updatedState := deepCopyState state in
  let chars := tick <$> Characters updatedState in
  let '(alivePlayers, aliveEnemies) := countAlive chars in
  let '(isComplete, winner) :=
    if Z.eqb alivePlayers 0 then (true, Some "enemy")
    else if Z.eqb aliveEnemies 0 then (true, Some "player")
    else (IsComplete updatedState, Winner updatedState) in
  if negb isComplete then
    match TurnOrder updatedState with
    | [] => Panic DivideByZero
    | _ :: _ =>
        let currentTurn :=
          Z.rem (CurrentTurn updatedState + 1) (Z.of_nat (length (TurnOrder updatedState))) in
        let round := if Z.eqb currentTurn 0 then Round updatedState + 1 else Round updatedState in
        Ok (mkState round chars (TurnOrder updatedState) currentTurn isComplete winner)
    end
  else
    Ok (mkState (Round updatedState) chars (TurnOrder updatedState)
          (CurrentTurn updatedState) isComplete winner).

(** ** The handlers *)

Definition Fist : Weapon := mkWeapon "" "Fist" 1 0.

Definition handleAttack (state : State) (action : Action) (rng : SeededRNG)
    (events : list Event) (logs : list string) : result Resolution :=
  match GetCharacterByID state (Attacker action), GetCharacterByID state (Target action) with
  | Some (_, attacker), Some (ti, target) =>
      let '(weapon, logs) :=
        match list_find (fun w => Weapon_ID w = Action_Weapon action) (Weapons attacker) with
        | Some (_, w) => (w, logs)
        | None => (Fist, logs ++ ["Weapon not found - using default"])
        end in
      let '(attackRoll, rng) := RollD20 rng in
      let hit := bool_decide (Defense (Stats target) + 10 <= attackRoll + Attack (Stats attacker)) in
      if hit then
        let baseDamage := Damage weapon + Z.quot (Attack (Stats attacker)) 2 in
        let '(damageRoll, rng) := RollD6 rng in
        let totalDamage := Z.max 1 (baseDamage + damageRoll - Defense (Stats target)) in
        let target := set_HP target (Z.max 0 (HP (Stats target) - totalDamage)) in
        let state := store state ti target in
        let events := events ++ [damageEvent (Char_ID target) totalDamage (Char_ID attacker)] in
        let logs := logs ++ [Name attacker +:+ " attacks " +:+ Name target +:+ " with "
                               +:+ Weapon_Name weapon +:+ " for " +:+ fmt_d totalDamage
                               +:+ " damage!"] in
        let '(events, logs) :=
          if Z.eqb (HP (Stats target)) 0
          then (events ++ [deathEvent (Char_ID target)],
                logs ++ [Name target +:+ " has been defeated!"])
          else (events, logs) in
        updatedState <- advanceTurn state ;;
        Ok (mkResolution events updatedState logs)
      else
        let logs := logs ++ [Name attacker +:+ " misses " +:+ Name target +:+ "!"] in
        updatedState <- advanceTurn state ;;
        Ok (mkResolution events updatedState logs)
  | _, _ => Ok (mkResolution events state (logs ++ ["Invalid attack action"]))
  end.

Definition handleDefend (state : State) (action : Action) (rng : SeededRNG)
    (events : list Event) (logs : list string) : result Resolution :=
  match GetCharacterByID state (Actor action) with
  | None => Ok (mkResolution events state (logs ++ ["Invalid defend action"]))
  | Some (ci, character) =>
      let character := set_Defense character (Defense (Stats character) + 2) in
      let state := store state ci character in
      let logs := logs ++ [Name character +:+ " takes a defensive stance!"] in
      updatedState <- advanceTurn state ;;
      Ok (mkResolution events updatedState logs)
  end.

Definition handleAbility (state : State) (action : Action) (rng : SeededRNG)
    (events : list Event) (logs : list string) : result Resolution :=
  match GetCharacterByID state (Actor action) with
  | None => Ok (mkResolution events state (logs ++ ["Invalid ability action"]))
  | Some (ci, character) =>
      match list_find (fun a => Ability_ID a = Action_Ability action) (Abilities character) with
      | None => Ok (mkResolution events state (logs ++ ["Ability not found"]))
      | Some (_, ability) =>
          let cooldownKey := Ability_ID ability in
          let currentCooldown := map_get (AbilityCooldowns character) cooldownKey in
          if bool_decide (0 < currentCooldown) then
            Ok (mkResolution events state (logs ++ [Ability_Name ability +:+ " is on cooldown!"]))
          else
            cds <- map_set (AbilityCooldowns character) cooldownKey (Cooldown ability) ;;
            let character := set_AbilityCooldowns character cds in
            let state := store state ci character in
            let events := events ++ [abilityUsedEvent (Char_ID character) (Ability_ID ability)
                                       (Target action)] in
            let '(state, events, logs) :=
              if String.eqb (Effect ability) "damage" then
                if negb (String.eqb (Target action) "") then
                  match GetCharacterByID state (Target action) with
                  | Some (ti, target) =>
                      let damage := Power ability + fst (RollD6 rng) in
                      let target := set_HP target (Z.max 0 (HP (Stats target) - damage)) in
                      let state := store state ti target in
                      let events := events ++ [damageEvent (Char_ID target) damage (Char_ID character)] in
                      let logs := logs ++ [Name character +:+ " uses " +:+ Ability_Name ability
                                             +:+ " on " +:+ Name target +:+ " for "
                                             +:+ fmt_d damage +:+ " damage!"] in
                      if Z.eqb (HP (Stats target)) 0
                      then (state, events ++ [deathEvent (Char_ID target)],
                            logs ++ [Name target +:+ " has been defeated!"])
                      else (state, events, logs)
                  | None => (state, events, logs)
                  end
                else (state, events, logs)
              else if String.eqb (Effect ability) "heal" then
                let healAmount := Power ability + fst (RollD6 rng) in
                let character :=
                  set_HP character (Z.min (MaxHP (Stats character))
                                          (HP (Stats character) + healAmount)) in
                let state := store state ci character in
                (state,
                 events ++ [healEvent (Char_ID character) healAmount],
                 logs ++ [Name character +:+ " uses " +:+ Ability_Name ability
                            +:+ " and heals for " +:+ fmt_d healAmount +:+ " HP!"])
              else (state, events, logs) in
            updatedState <- advanceTurn state ;;
            Ok (mkResolution events updatedState logs)
      end
  end.

(** [item] points into the backing array of [character.Items]; the removal
    [append(Items[:i], Items[i+1:]...)] shifts the tail one slot down in that
    same array, so what [item] points to afterwards is the element that
    followed the removed one (the removed one itself only when it was last). *)
Definition item_after_removal (items : list Item) (itemIndex : nat) (item : Item) : Item :=
  default item (items !! S itemIndex).

Definition handleUseItem (state : State) (action : Action) (rng : SeededRNG)
    (events : list Event) (logs : list string) : result Resolution :=
  match GetCharacterByID state (Actor action) with
  | None => Ok (mkResolution events state (logs ++ ["Invalid item action"]))
  | Some (ci, character) =>
      match list_find (fun it => Item_ID it = Action_Item action) (Items character) with
      | None => Ok (mkResolution events state (logs ++ ["Item not found"]))
      | Some (itemIndex, item) =>
          let item := item_after_removal (Items character) itemIndex item in
          let character := set_Items character (delete itemIndex (Items character)) in
          let events := events ++ [itemUsedEvent (Char_ID character) (Item_ID item)] in
          let '(character, events, logs) :=
            if Contains (Item_Name item) "Potion" then
              let healAmount := 20 + fst (RollD6 rng) in
              (set_HP character (Z.min (MaxHP (Stats character))
                                       (HP (Stats character) + healAmount)),
               events ++ [healEvent (Char_ID character) healAmount],
               logs ++ [Name character +:+ " uses " +:+ Item_Name item
                          +:+ " and heals for " +:+ fmt_d healAmount +:+ " HP!"])
            else (character, events, logs) in
          let state := store state ci character in
          updatedState <- advanceTurn state ;;
          Ok (mkResolution events updatedState logs)
      end
  end.

Definition handleFlee (state : State) (action : Action) (rng : SeededRNG)
    (events : list Event) (logs : list string) : result Resolution :=
  match GetCharacterByID state (Actor action) with
  | None => Ok (mkResolution events state (logs ++ ["Invalid flee action"]))
  | Some (_, character) =>
      let fleeRoll := fst (RollD20 rng) in
      let success := bool_decide (15 <= fleeRoll + Speed (Stats character)) in
      if success then
        let events := events ++ [fleeEvent (Char_ID character)] in
        let logs := logs ++ [Name character +:+ " successfully flees from combat!"] in
        let winner := "player" in
        let updatedState :=
          mkState (Round state) (Characters state) (TurnOrder state) (CurrentTurn state)
                  true (Some winner) in
        Ok (mkResolution events updatedState logs)
      else
        let logs := logs ++ [Name character +:+ " fails to flee!"] in
        updatedState <- advanceTurn state ;;
        Ok (mkResolution events updatedState logs)
  end.

(** ** ApplyAction *)

Definition validKinds : list string := ["Attack"; "Defend"; "Ability"; "UseItem"; "Flee"].

Definition ApplyAction (state : State) (action : Action) (seed : Z) : result Resolution :=
  let rng := NewSeededRNG seed in
  let events : list Event := [] in
  let logs : list string := [] in
  let logs := logs ++ ["Actor bypass: Direct mutation used"] in
  let newState := deepCopyState state in
  match GetCharacterByID newState (getActorID action) with
  | None => Ok (mkResolution events state (logs ++ ["Invalid action: character not found"]))
  | Some _ =>
      if negb (existsb (String.eqb (Kind action)) validKinds) then
        Ok (mkResolution events state (logs ++ ["Invalid action kind"]))
      else if String.eqb (Kind action) "Attack" then handleAttack newState action rng events logs
      else if String.eqb (Kind action) "Defend" then handleDefend newState action rng events logs
      else if String.eqb (Kind action) "Ability" then handleAbility newState action rng events logs
      else if String.eqb (Kind action) "UseItem" then handleUseItem newState action rng events logs
      else if String.eqb (Kind action) "Flee" then handleFlee newState action rng events logs
      else Ok (mkResolution events state (logs ++ ["Unknown action kind"]))
  end.

End Resolver.

(** ** Specification-side definitions *)

(** What one pass of the Turn Advancer does to a single cooldown. *)
Definition decay (c : Z) : Z := if bool_decide (0 < c) then c - 1 else c.

Definition decayAll (m : option (gmap string Z)) : option (gmap string Z) :=
  match m with
  | Some g => Some (decay <$> g)
  | None => None
  end.



(** The line [ApplyAction] logs before anything else. *)
Definition bypass_log : string := "Actor bypass: Direct mutation used".

(** The HP invariant of the data model. *)
Definition hp_ok (c : Character) : Prop := 0 <= HP (Stats c) <= MaxHP (Stats c).
Definition hp_bounds (s : State) : Prop := Forall hp_ok (Characters s).

(** No ability takes away more than a d6 can give back: [power + d6 >= 0]. *)
Definition powers_ok (s : State) : Prop :=
  Forall (fun c => Forall (fun ab => -1 <= Power ab) (Abilities c)) (Characters s).

#[global] Instance hp_ok_dec c : Decision (hp_ok c).
Proof. unfold hp_ok. apply _. Defined.
#[global] Instance hp_bounds_dec s : Decision (hp_bounds s).
Proof. unfold hp_bounds. apply _. Defined.
#[global] Instance powers_ok_dec s : Decision (powers_ok s).
Proof. unfold powers_ok. apply _. Defined.

(** Structural equality of states is decidable. *)
#[global] Instance Stat_eq_dec : EqDecision Stat.
Proof. solve_decision. Defined.
#[global] Instance Position_eq_dec : EqDecision Position.
Proof. solve_decision. Defined.
#[global] Instance Weapon_eq_dec : EqDecision Weapon.
Proof. solve_decision. Defined.
#[global] Instance Ability_eq_dec : EqDecision Ability.
Proof. solve_decision. Defined.
#[global] Instance Item_eq_dec : EqDecision Item.
Proof. solve_decision. Defined.
#[global] Instance Character_eq_dec : EqDecision Character.
Proof. solve_decision. Defined.
#[global] Instance State_eq_dec : EqDecision State.
Proof. solve_decision. Defined.

(** What [CreateInitialState] returns for a non-empty roster: round 1, first
    in the turn order to act, not complete. *)
Definition initial (s : State) : Prop :=
  Round s = 1 /\ CurrentTurn s = 0 /\ IsComplete s = false /\ TurnOrder s <> [].

(** Turns taken since the encounter began. *)
Definition turnsTaken (s : State) : Z :=
  (Round s - 1) * Z.of_nat (length (TurnOrder s)) + CurrentTurn s.

(** States on which the Turn Advancer cannot divide by zero. *)
Definition settled (s : State) : Prop := IsComplete s = true \/ TurnOrder s <> [].

Section SpecDefs.
Context {MR : MapRange}.

(** Whether the Turn Advancer finds the combat over: one side has nobody
    alive, or the state is complete already. *)
Definition ended (s : State) : bool :=
  let '(alivePlayers, aliveEnemies) := countAlive (tick <$> Characters s) in
  Z.eqb alivePlayers 0 || Z.eqb aliveEnemies 0 || IsComplete s.

(** The state a handler returns is the one it was given (soft failure), or
    that state declared complete (successful flee), or what the Turn
    Advancer makes of it after the handler changed some characters. *)
Definition shape (st st' : State) : Prop :=
  st' = st
  \/ st' = mkState (Round st) (Characters st) (TurnOrder st) (CurrentTurn st)
             true (Some "player")
  \/ exists cs, advanceTurn (set_Characters st cs) = Ok st'.

(** [N] invocations of the Turn Advancer in a row. *)
Fixpoint advanceTurns (N : nat) (s : State) : result State :=
  match N with
  | O => Ok s
  | S N' => s' <- advanceTurn s ;; advanceTurns N' s'
  end.

End SpecDefs.

Section Driver.
Context {RS : RandSource} {MR : MapRange}.

(** The loop of a caller: as long as [CheckCombatEnd] does not hold, ask the
    policy for an action, resolve it and carry on with the state returned.
    [fuel] bounds the number of resolutions. *)
Fixpoint drive (policy : State -> Action) (seeds : nat -> Z) (fuel : nat)
    (state : State) : result State :=
  if CheckCombatEnd state then Ok state
  else match fuel with
       | O => Ok state
       | S fuel' =>
           r <- ApplyAction state (policy state) (seeds fuel') ;;
           drive policy seeds fuel' (Res_State r)
       end.

(** How many resolutions of that loop returned a state different from the
    one they were given. *)
Fixpoint changed (policy : State -> Action) (seeds : nat -> Z) (fuel : nat)
    (state : State) : nat :=
  if CheckCombatEnd state then O
  else match fuel with
       | O => O
       | S fuel' =>
           match ApplyAction state (policy state) (seeds fuel') with
           | Ok r =>
               ((if decide (Res_State r = state) then 0 else 1)
                + changed policy seeds fuel' (Res_State r))%nat
           | Panic _ => O
           end
       end.

End Driver.
(** ** Concrete parameters, to run the definitions *)

(** A small linear congruential generator, the one of
    packages/core/src/rng.ts.  It stands in for [math/rand], whose numbers
    are not reproduced here; the inputs evaluated below are chosen so that
    the outcome does not depend on the dice. *)
Definition lcg_next (seed : Z) : Z := (seed * 9301 + 49297) mod 233280.

Definition lcg_Intn (r n : Z) : Z * Z :=
  let r' := lcg_next r in (r' * n / 233280, r').

Definition Lcg : RandSource.
Proof.
  refine {| Rand := Z; NewSource := fun seed => seed; Intn := lcg_Intn |}.
  intros r n Hn. unfold lcg_Intn, lcg_next. cbn [fst].
  assert (H : 0 <= (r * 9301 + 49297) mod 233280 < 233280)
    by (apply Z.mod_pos_bound; lia).
  split; [apply Z.div_pos; nia | apply Z.div_lt_upper_bound; nia].
Defined.

(** Two orders for ranging over a map: that of [map_to_list], and its
    reverse. *)
Definition KeyOrder : MapRange :=
  {| range_keys := fun m => (map_to_list m).*1;
     range_keys_perm := fun m => reflexivity _ |}.

Definition ReverseKeyOrder : MapRange :=
  {| range_keys := fun m => reverse ((map_to_list m).*1);
     range_keys_perm := fun m => reverse_Permutation _ |}.

(** ** Example encounters *)

Definition sword : Weapon := mkWeapon "w1" "Sword" 6 85.
Definition fireball : Ability := mkAbility "a1" "Fireball" 3 "damage" 8.
Definition mend : Ability := mkAbility "a2" "Mend" 2 "heal" 5.
Definition potion : Item := mkItem "i1" "Health Potion" "consumable" "heal 20 HP".
Definition rock : Item := mkItem "i2" "Rock" "consumable" "none".

Definition hero : Character :=
  mkCharacter "p1" "Hero" (mkStat 30 30 15 3 4) (mkPosition 0 0)
    [sword] [fireball; mend] [potion; rock] (Some ∅) true.

Definition goblin : Character :=
  mkCharacter "e1" "Goblin" (mkStat 15 15 5 2 3) (mkPosition 1 1)
    [mkWeapon "w2" "Club" 3 60] [] [] (Some ∅) false.

(** A state as [CreateInitialState] returns it. *)
Definition arena : State := mkState 1 [hero; goblin] ["p1"; "e1"] 0 false None.

(** The hero with both abilities cooling down. *)
Definition tired_hero : Character :=
  set_AbilityCooldowns hero (Some (<["a1" := 2]> (<["a2" := 1]> ∅))).

Definition tired_arena : State :=
  mkState 3 [tired_hero; goblin] ["p1"; "e1"] 0 false None.

(** A player nobody can catch: [100 + d20 >= 15] whatever the roll. *)
Definition runner : Character :=
  mkCharacter "p1" "Runner" (mkStat 30 30 15 3 100) (mkPosition 0 0)
    [sword] [] [] (Some ∅) true.

Definition chase : State := mkState 1 [runner; goblin] ["p1"; "e1"] 0 false None.

Definition attackAction (attacker target weapon : ID) : Action :=
  mkAction "Attack" attacker target weapon "" "" "".
Definition defendAction (actor : ID) : Action :=
  mkAction "Defend" "" "" "" actor "" "".
Definition abilityAction (actor ability target : ID) : Action :=
  mkAction "Ability" "" target "" actor ability "".
Definition useItemAction (actor item : ID) : Action :=
  mkAction "UseItem" "" "" "" actor "" item.
Definition fleeAction (actor : ID) : Action :=
  mkAction "Flee" "" "" "" actor "" "".

(** A damage ability with negative power, which the schema
    ([power: z.number()]) admits. *)
Definition backfire : Ability := mkAbility "a3" "Backfire" 0 "damage" (-100).

Definition jinxed : Character :=
  mkCharacter "p1" "Jinx" (mkStat 30 30 15 3 4) (mkPosition 0 0)
    [sword] [backfire] [] (Some ∅) true.

Definition jinxed_arena : State :=
  mkState 1 [jinxed; goblin] ["p1"; "e1"] 0 false None.

(** The arena after the hero has cast Fireball at the goblin with seed
    12345: Fireball cools down, the goblin is hurt, and it is the goblin's
    turn. *)
Definition spent_arena : State :=
  mkState 1 [set_AbilityCooldowns hero (Some {["a1" := 2]}); set_HP goblin 4]
    ["p1"; "e1"] 1 false None.

(** Two policies: the hero casts Fireball at the goblin, whatever the state;
    the hero defends, whatever the state. *)
Definition always_fireball : State -> Action := fun _ => abilityAction "p1" "a1" "e1".
Definition always_defend : State -> Action := fun _ => defendAction "p1".

(** * The resolver over a store

    Go passes a [State] by value, but the value holds references: the slice
    [Characters] points to a backing array of [Character] structs, each
    [Items] slice to a backing array of its own, each [AbilityCooldowns] to a
    map object.  Assignments through [*Character] pointers, writes to a
    cooldown map and the in-place [append] of [handleUseItem] change these
    shared objects.  This module replays the resolver on an explicit store
    to settle what a call does to the objects its caller holds.  [Weapons],
    [Abilities], [TurnOrder] and the string behind [Winner] are never
    written and stay plain values. *)

Module Mem.

(** Addresses. *)
Abbreviation loc := nat (only parsing).

(** A [Character] struct as laid out in a backing array. *)
Record CharacterM := mkCharacterM {
  m_ID : ID;
  m_Name : string;
  m_Stats : Stat;
  m_Pos : Position;
  m_Weapons : list Weapon;
  m_Abilities : list Ability;
  m_Items : loc * nat;              (* backing array and length of the slice *)
  m_AbilityCooldowns : option loc;  (* nil, or the map object *)
  m_IsPlayer : bool
}.

Inductive object : Type :=
| Chars (cs : list CharacterM)
| ItemArray (its : list Item)
| CooldownMap (m : gmap string Z).

(** The store: objects by address; allocation appends. *)
Abbreviation heap := (list object) (only parsing).

Record StateM := mkStateM {
  m_Round : Z;
  m_Characters : loc;
  m_TurnOrder : list ID;
  m_CurrentTurn : Z;
  m_IsComplete : bool;
  m_Winner : option string
}.

Record ResolutionM := mkResolutionM {
  m_Events : list Event;
  m_State : StateM;
  m_Logs : list string
}.

Definition setm_HP (c : CharacterM) (hp : Z) : CharacterM :=
  let s := m_Stats c in
  mkCharacterM (m_ID c) (m_Name c)
    (mkStat hp (MaxHP s) (Attack s) (Defense s) (Speed s))
    (m_Pos c) (m_Weapons c) (m_Abilities c) (m_Items c) (m_AbilityCooldowns c)
    (m_IsPlayer c).

Definition setm_Defense (c : CharacterM) (d : Z) : CharacterM :=
  let s := m_Stats c in
  mkCharacterM (m_ID c) (m_Name c)
    (mkStat (HP s) (MaxHP s) (Attack s) d (Speed s))
    (m_Pos c) (m_Weapons c) (m_Abilities c) (m_Items c) (m_AbilityCooldowns c)
    (m_IsPlayer c).

Definition setm_Items (c : CharacterM) (sl : loc * nat) : CharacterM :=
  mkCharacterM (m_ID c) (m_Name c) (m_Stats c) (m_Pos c) (m_Weapons c)
    (m_Abilities c) sl (m_AbilityCooldowns c) (m_IsPlayer c).

(** ** Reading the store *)

Definition chars_at (h : heap) (l : loc) : list CharacterM :=
  match h !! l with
  | Some (Chars cs) => cs
  | _ => []
  end.

Definition array_at (h : heap) (l : loc) : list Item :=
  match h !! l with
  | Some (ItemArray a) => a
  | _ => []
  end.

Definition items_at (h : heap) (sl : loc * nat) : list Item :=
  take (snd sl) (array_at h (fst sl)).

Definition map_at (h : heap) (ml : option loc) : option (gmap string Z) :=
  match ml with
  | Some l => match h !! l with
              | Some (CooldownMap m) => Some m
              | _ => None
              end
  | None => None
  end.

(** The value a state denotes in a store: what [json.Marshal] sees. *)
Definition decode_char (h : heap) (c : CharacterM) : Character :=
  mkCharacter (m_ID c) (m_Name c) (m_Stats c) (m_Pos c) (m_Weapons c)
    (m_Abilities c) (items_at h (m_Items c)) (map_at h (m_AbilityCooldowns c))
    (m_IsPlayer c).

Definition decode (h : heap) (s : StateM) : State :=
  mkState (m_Round s) (decode_char h <$> chars_at h (m_Characters s))
    (m_TurnOrder s) (m_CurrentTurn s) (m_IsComplete s) (m_Winner s).

Definition decode_resolution (h : heap) (r : ResolutionM) : Resolution :=
  mkResolution (m_Events r) (decode h (m_State r)) (m_Logs r).

(** ** Writing the store *)

Definition alloc (o : object) (h : heap) : heap * loc := (h ++ [o], length h).

(** [cs[i] = c] in the backing array at [l]. *)
Definition write_char (l : loc) (i : nat) (c : CharacterM) (h : heap) : heap :=
  match h !! l with
  | Some (Chars cs) => <[l := Chars (<[i := c]> cs)]> h
  | _ => h
  end.

(** The map at [l] takes the content [f m]. *)
Definition update_map (l : loc) (f : gmap string Z -> gmap string Z) (h : heap) : heap :=
  match h !! l with
  | Some (CooldownMap m) => <[l := CooldownMap (f m)]> h
  | _ => h
  end.

Definition write_array (l : loc) (a : list Item) (h : heap) : heap :=
  match h !! l with
  | Some (ItemArray _) => <[l := ItemArray a]> h
  | _ => h
  end.

(** ** deepCopyState: Marshal, then Unmarshal into fresh objects *)

Definition encode_char (c : Character) (h : heap) : heap * CharacterM :=
  let '(h, il) := alloc (ItemArray (Items c)) h in
  let '(h, ml) :=
    match AbilityCooldowns c with
    | Some m => let '(h, l) := alloc (CooldownMap m) h in (h, Some l)
    | None => (h, None)
    end in
  (h, mkCharacterM (Char_ID c) (Name c) (Stats c) (Pos c) (Weapons c) (Abilities c)
        (il, length (Items c)) ml (IsPlayer c)).

Fixpoint encode_chars (cs : list Character) (h : heap) : heap * list CharacterM :=
  match cs with
  | [] => (h, [])
  | c :: cs' =>
      let '(h, c') := encode_char c h in
      let '(h, cs'') := encode_chars cs' h in
      (h, c' :: cs'')
  end.

Definition encode (s : State) (h : heap) : heap * StateM :=
  let '(h, cs) := encode_chars (Characters s) h in
  let '(h, l) := alloc (Chars cs) h in
  (h, mkStateM (Round s) l (TurnOrder s) (CurrentTurn s) (IsComplete s) (Winner s)).

Definition deepCopyState (state : StateM) (h : heap) : heap * StateM :=
  encode (decode h state) h.

Section Resolver.
Context {RS : RandSource} {MR : MapRange}.

Definition GetCharacterByID (h : heap) (state : StateM) (id : ID)
  : option (nat * CharacterM) :=
  list_find (fun c => m_ID c = id) (chars_at h (m_Characters state)).

(** ** advanceTurn *)

(** The first loop, for the character at index [i] of the array at [l]. *)
Definition tick_at (l : loc) (h : heap) (i : nat) : heap :=
  match chars_at h l !! i with
  | Some c =>
      let h :=
        match m_AbilityCooldowns c with
        | Some ml => update_map ml (fun m => foldl decay_step m (range_keys m)) h
        | None => h
        end in
      write_char l i (setm_Defense c (resetDefense (Defense (m_Stats c)))) h
  | None => h
  end.

Definition countAliveM (cs : list CharacterM) : Z * Z :=
  foldl (fun '(alivePlayers, aliveEnemies) c =>
           if m_IsPlayer c && bool_decide (0 < HP (m_Stats c)) then (alivePlayers + 1, aliveEnemies)
           else if negb (m_IsPlayer c) && bool_decide (0 < HP (m_Stats c)) then (alivePlayers, aliveEnemies + 1)
           else (alivePlayers, aliveEnemies))
        (0, 0) cs.

Definition advanceTurn (state : StateM) (h : heap) : heap * result StateM :=
  let '(h, updatedState) := deepCopyState state h in
  let l := m_Characters updatedState in
  let h := foldl (tick_at l) h (seq 0 (length (chars_at h l))) in
  let '(alivePlayers, aliveEnemies) := countAliveM (chars_at h l) in
  let '(isComplete, winner) :=
    if Z.eqb alivePlayers 0 then (true, Some "enemy")
    else if Z.eqb aliveEnemies 0 then (true, Some "player")
    else (m_IsComplete updatedState, m_Winner updatedState) in
  if negb isComplete then
    match m_TurnOrder updatedState with
    | [] => (h, Panic DivideByZero)
    | _ :: _ =>
        let currentTurn :=
          Z.rem (m_CurrentTurn updatedState + 1)
                (Z.of_nat (length (m_TurnOrder updatedState))) in
        let round := if Z.eqb currentTurn 0 then m_Round updatedState + 1
                     else m_Round updatedState in
        (h, Ok (mkStateM round l (m_TurnOrder updatedState) currentTurn isComplete winner))
    end
  else
    (h, Ok (mkStateM (m_Round updatedState) l (m_TurnOrder updatedState)
              (m_CurrentTurn updatedState) isComplete winner)).

(** The tail shared by the handlers: advance, and wrap what comes back. *)
Definition finish (events : list Event) (logs : list string) (state : StateM)
    (h : heap) : heap * result ResolutionM :=
  let '(h, r) := advanceTurn state h in
  (h, updatedState <- r ;; Ok (mkResolutionM events updatedState logs)).

(** ** The handlers *)

Definition handleAttack (state : StateM) (action : Action) (rng : SeededRNG)
    (events : list Event) (logs : list string) (h : heap) : heap * result ResolutionM :=
  match GetCharacterByID h state (Attacker action), GetCharacterByID h state (Target action) with
  | Some (_, attacker), Some (ti, target) =>
      let '(weapon, logs) :=
        match list_find (fun w => Weapon_ID w = Action_Weapon action) (m_Weapons attacker) with
        | Some (_, w) => (w, logs)
        | None => (Fist, logs ++ ["Weapon not found - using default"])
        end in
      let '(attackRoll, rng) := RollD20 rng in
      let hit := bool_decide (Defense (m_Stats target) + 10 <= attackRoll + Attack (m_Stats attacker)) in
      if hit then
        let baseDamage := Damage weapon + Z.quot (Attack (m_Stats attacker)) 2 in
        let '(damageRoll, rng) := RollD6 rng in
        let totalDamage := Z.max 1 (baseDamage + damageRoll - Defense (m_Stats target)) in
        let target := setm_HP target (Z.max 0 (HP (m_Stats target) - totalDamage)) in
        let h := write_char (m_Characters state) ti target h in
        let events := events ++ [damageEvent (m_ID target) totalDamage (m_ID attacker)] in
        let logs := logs ++ [m_Name attacker +:+ " attacks " +:+ m_Name target +:+ " with "
                               +:+ Weapon_Name weapon +:+ " for " +:+ fmt_d totalDamage
                               +:+ " damage!"] in
        let '(events, logs) :=
          if Z.eqb (HP (m_Stats target)) 0
          then (events ++ [deathEvent (m_ID target)],
                logs ++ [m_Name target +:+ " has been defeated!"])
          else (events, logs) in
        finish events logs state h
      else
        let logs := logs ++ [m_Name attacker +:+ " misses " +:+ m_Name target +:+ "!"] in
        finish events logs state h
  | _, _ => (h, Ok (mkResolutionM events state (logs ++ ["Invalid attack action"])))
  end.

Definition handleDefend (state : StateM) (action : Action) (rng : SeededRNG)
    (events : list Event) (logs : list string) (h : heap) : heap * result ResolutionM :=
  match GetCharacterByID h state (Actor action) with
  | None => (h, Ok (mkResolutionM events state (logs ++ ["Invalid defend action"])))
  | Some (ci, character) =>
      let character := setm_Defense character (Defense (m_Stats character) + 2) in
      let h := write_char (m_Characters state) ci character h in
      let logs := logs ++ [m_Name character +:+ " takes a defensive stance!"] in
      finish events logs state h
  end.

Definition handleAbility (state : StateM) (action : Action) (rng : SeededRNG)
    (events : list Event) (logs : list string) (h : heap) : heap * result ResolutionM :=
  match GetCharacterByID h state (Actor action) with
  | None => (h, Ok (mkResolutionM events state (logs ++ ["Invalid ability action"])))
  | Some (ci, character) =>
      match list_find (fun a => Ability_ID a = Action_Ability action) (m_Abilities character) with
      | None => (h, Ok (mkResolutionM events state (logs ++ ["Ability not found"])))
      | Some (_, ability) =>
          let cooldownKey := Ability_ID ability in
          let currentCooldown := map_get (map_at h (m_AbilityCooldowns character)) cooldownKey in
          if bool_decide (0 < currentCooldown) then
            (h, Ok (mkResolutionM events state
                      (logs ++ [Ability_Name ability +:+ " is on cooldown!"])))
          else
            match map_at h (m_AbilityCooldowns character), m_AbilityCooldowns character with
            | Some _, Some ml =>
                let h := update_map ml (insert cooldownKey (Cooldown ability)) h in
                let events := events ++ [abilityUsedEvent (m_ID character) (Ability_ID ability)
                                           (Target action)] in
                let '(h, events, logs) :=
                  if String.eqb (Effect ability) "damage" then
                    if negb (String.eqb (Target action) "") then
                      match GetCharacterByID h state (Target action) with
                      | Some (ti, target) =>
                          let damage := Power ability + fst (RollD6 rng) in
                          let target := setm_HP target (Z.max 0 (HP (m_Stats target) - damage)) in
                          let h := write_char (m_Characters state) ti target h in
                          let events := events ++ [damageEvent (m_ID target) damage (m_ID character)] in
                          let logs := logs ++ [m_Name character +:+ " uses " +:+ Ability_Name ability
                                                 +:+ " on " +:+ m_Name target +:+ " for "
                                                 +:+ fmt_d damage +:+ " damage!"] in
                          if Z.eqb (HP (m_Stats target)) 0
                          then (h, events ++ [deathEvent (m_ID target)],
                                logs ++ [m_Name target +:+ " has been defeated!"])
                          else (h, events, logs)
                      | None => (h, events, logs)
                      end
                    else (h, events, logs)
                  else if String.eqb (Effect ability) "heal" then
                    let healAmount := Power ability + fst (RollD6 rng) in
                    let character :=
                      setm_HP character (Z.min (MaxHP (m_Stats character))
                                               (HP (m_Stats character) + healAmount)) in
                    let h := write_char (m_Characters state) ci character h in
                    (h,
                     events ++ [healEvent (m_ID character) healAmount],
                     logs ++ [m_Name character +:+ " uses " +:+ Ability_Name ability
                                +:+ " and heals for " +:+ fmt_d healAmount +:+ " HP!"])
                  else (h, events, logs) in
                finish events logs state h
            | _, _ => (h, Panic NilMapWrite)
            end
      end
  end.

(** [append(Items[:i], Items[i+1:]...)] on the backing array [a] of a slice
    of length [n]: the slots [i .. n-2] take what was in [i+1 .. n-1]; the
    slot [n-1] and whatever lies beyond keep their content. *)
Definition remove_in_place (a : list Item) (n i : nat) : list Item :=
  take i a ++ drop (S i) (take n a) ++ drop (n - 1) a.

Definition handleUseItem (state : StateM) (action : Action) (rng : SeededRNG)
    (events : list Event) (logs : list string) (h : heap) : heap * result ResolutionM :=
  match GetCharacterByID h state (Actor action) with
  | None => (h, Ok (mkResolutionM events state (logs ++ ["Invalid item action"])))
  | Some (ci, character) =>
      match list_find (fun it => Item_ID it = Action_Item action)
                      (items_at h (m_Items character)) with
      | None => (h, Ok (mkResolutionM events state (logs ++ ["Item not found"])))
      | Some (itemIndex, item) =>
          let '(il, n) := m_Items character in
          let h := write_array il (remove_in_place (array_at h il) n itemIndex) h in
          let item := default item (array_at h il !! itemIndex) in
          let character := setm_Items character (il, (n - 1)%nat) in
          let events := events ++ [itemUsedEvent (m_ID character) (Item_ID item)] in
          let '(character, events, logs) :=
            if Contains (Item_Name item) "Potion" then
              let healAmount := 20 + fst (RollD6 rng) in
              (setm_HP character (Z.min (MaxHP (m_Stats character))
                                        (HP (m_Stats character) + healAmount)),
               events ++ [healEvent (m_ID character) healAmount],
               logs ++ [m_Name character +:+ " uses " +:+ Item_Name item
                          +:+ " and heals for " +:+ fmt_d healAmount +:+ " HP!"])
            else (character, events, logs) in
          let h := write_char (m_Characters state) ci character h in
          finish events logs state h
      end
  end.

Definition handleFlee (state : StateM) (action : Action) (rng : SeededRNG)
    (events : list Event) (logs : list string) (h : heap) : heap * result ResolutionM :=
  match GetCharacterByID h state (Actor action) with
  | None => (h, Ok (mkResolutionM events state (logs ++ ["Invalid flee action"])))
  | Some (_, character) =>
      let fleeRoll := fst (RollD20 rng) in
      let success := bool_decide (15 <= fleeRoll + Speed (m_Stats character)) in
      if success then
        let events := events ++ [fleeEvent (m_ID character)] in
        let logs := logs ++ [m_Name character +:+ " successfully flees from combat!"] in
        let winner := "player" in
        let updatedState :=
          mkStateM (m_Round state) (m_Characters state) (m_TurnOrder state)
                   (m_CurrentTurn state) true (Some winner) in
        (h, Ok (mkResolutionM events updatedState logs))
      else
        let logs := logs ++ [m_Name character +:+ " fails to flee!"] in
        finish events logs state h
  end.

(** ** ApplyAction *)

Definition ApplyAction (state : StateM) (action : Action) (seed : Z) (h : heap)
  : heap * result ResolutionM :=
  let rng := NewSeededRNG seed in
  let events : list Event := [] in
  let logs : list string := [] in
  let logs := logs ++ ["Actor bypass: Direct mutation used"] in
  let '(h, newState) := deepCopyState state h in
  match GetCharacterByID h newState (getActorID action) with
  | None => (h, Ok (mkResolutionM events state
                      (logs ++ ["Invalid action: character not found"])))
  | Some _ =>
      if negb (existsb (String.eqb (Kind action)) validKinds) then
        (h, Ok (mkResolutionM events state (logs ++ ["Invalid action kind"])))
      else if String.eqb (Kind action) "Attack" then handleAttack newState action rng events logs h
      else if String.eqb (Kind action) "Defend" then handleDefend newState action rng events logs h
      else if String.eqb (Kind action) "Ability" then handleAbility newState action rng events logs h
      else if String.eqb (Kind action) "UseItem" then handleUseItem newState action rng events logs h
      else if String.eqb (Kind action) "Flee" then handleFlee newState action rng events logs h
      else (h, Ok (mkResolutionM events state (logs ++ ["Unknown action kind"])))
  end.

End Resolver.

(** ** What a call may touch *)

(** Every reference of the cell lies at or above [base]. *)
Definition cell_owned (base : nat) (c : CharacterM) : Prop :=
  (base <= fst (m_Items c))%nat
  /\ forall l, m_AbilityCooldowns c = Some l -> (base <= l)%nat.

(** The characters array of a state and all it refers to lie at or above
    [base]. *)
Definition owned (base : nat) (h : heap) (l : loc) : Prop :=
  (base <= l)%nat /\ Forall (cell_owned base) (chars_at h l).

(** The invariant of the loops: below [base] nothing changed, and the array
    being worked on still lies above it. *)
Definition kept (base : nat) (h0 h : heap) (l : loc) : Prop :=
  take base h = take base h0 /\ (length h0 <= length h)%nat /\ owned base h l.

(** All references of a cell, of a state, point into the store. *)
Definition cell_valid (h : heap) (c : CharacterM) : Prop :=
  (fst (m_Items c) < length h)%nat
  /\ match m_AbilityCooldowns c with
     | Some l => (l < length h)%nat
     | None => True
     end.

Definition valid (h : heap) (s : StateM) : Prop :=
  (m_Characters s < length h)%nat
  /\ Forall (cell_valid h) (chars_at h (m_Characters s)).

#[global] Instance cell_valid_dec h c : Decision (cell_valid h c).
Proof. unfold cell_valid. destruct (m_AbilityCooldowns c); apply _. Defined.
#[global] Instance valid_dec h s : Decision (valid h s).
Proof. unfold valid. apply _. Defined.

(** ** Relating the store to values *)

(** No two cells of the array refer to the same item array or to the same
    map. *)
Definition separated (cs : list CharacterM) : Prop :=
  forall i j c c', cs !! i = Some c -> cs !! j = Some c' -> i <> j ->
    fst (m_Items c) <> fst (m_Items c')
    /\ forall l, m_AbilityCooldowns c = Some l -> m_AbilityCooldowns c' <> Some l.

(** Same references, possibly other stats or another slice length. *)
Definition same_refs (c c' : CharacterM) : Prop :=
  fst (m_Items c) = fst (m_Items c') /\ m_AbilityCooldowns c = m_AbilityCooldowns c'.

(** All references of a cell lie in [[lo, hi)]. *)
Definition cell_within (lo hi : nat) (c : CharacterM) : Prop :=
  (lo <= fst (m_Items c) < hi)%nat
  /\ forall l, m_AbilityCooldowns c = Some l -> (lo <= l < hi)%nat.

(** A result on the store stands for a result on values. *)
Definition refines (x : list object * result ResolutionM) (rv : result Resolution) : Prop :=
  match snd x with
  | Ok r => rv = Ok (decode_resolution (fst x) r)
  | Panic p => rv = Panic p
  end.

Section Loop.
Context {MR : MapRange}.

(** What one round of the first loop does to the store before it writes the
    cell back. *)
Definition decay_in_place (c : CharacterM) (h : heap) : heap :=
  match m_AbilityCooldowns c with
  | Some ml => update_map ml (fun m => foldl decay_step m (range_keys m)) h
  | None => h
  end.

(** After the first [k] rounds of the loop over the array at [l]: each cell
    keeps its references, and denotes the ticked character if its index is
    below [k], the original one otherwise. *)
Definition ticked (h1 : heap) (cs1 : list CharacterM) (l k : nat) (h : heap) : Prop :=
  length (chars_at h l) = length cs1
  /\ forall j c, cs1 !! j = Some c ->
       exists c', chars_at h l !! j = Some c'
                  /\ same_refs c c'
                  /\ decode_char h c'
                     = if decide (j < k)%nat then tick (decode_char h1 c)
                       else decode_char h1 c.

End Loop.

(** An example store: the arena, laid out by [encode] from the empty store. *)
Definition arena_store : heap * StateM := encode arena [].

End Mem.
(** * Around the resolver: the other dice, and setting up an encounter *)

From stdpp Require Import sorting.

Local Open Scope string_scope.
Local Open Scope Z_scope.
Local Open Scope list_scope.

(** ** Run-time panics other than the resolver's two *)

Inductive fault : Type :=
| IndexOutOfRange       (* index out of range *)
| InvalidIntnArgument.  (* invalid argument to Intn *)

Inductive run (A : Type) : Type :=
| Done (a : A)
| Fault (f : fault).
Arguments Done {A} a.
Arguments Fault {A} f.

(** [l[i]] for an [int] index. *)
Definition index {A} (l : list A) (i : Z) : run A :=
  if bool_decide (0 <= i) then
    match l !! Z.to_nat i with
    | Some x => Done x
    | None => Fault IndexOutOfRange
    end
  else Fault IndexOutOfRange.

(** ** The 64-bit [int], where a function's arithmetic can leave it *)

Definition int_min : Z := - 2 ^ 63.
Definition int_max : Z := 2 ^ 63 - 1.
Definition is_int (z : Z) : Prop := int_min <= z <= int_max.

(** Two's complement wrap-around of the exact result. *)
Definition wrap (z : Z) : Z := (z + 2 ^ 63) mod 2 ^ 64 - 2 ^ 63.

(** ** The remaining dice (rng.go) *)

Section Dice.
Context {RS : RandSource}.

Definition RollD100 (s : SeededRNG) : Z * SeededRNG :=
  let '(v, r) := Intn (rng s) 100 in (v + 1, mkSeededRNG r).

(** [rand.Intn] panics when its argument is not positive; [max-min+1] is
    computed in [int] and wraps. *)
Definition RandomInt (s : SeededRNG) (min max : Z) : run (Z * SeededRNG) :=
  if bool_decide (max < min) then Done (min, s)
  else
    let n := wrap (wrap (max - min) + 1) in
    if bool_decide (n <= 0) then Fault InvalidIntnArgument
    else let '(v, r) := Intn (rng s) n in Done (wrap (v + min), mkSeededRNG r).

End Dice.

(** ** sort.Slice *)

(** A strict weak ordering: what [sort.Slice] asks of its [less]. *)
Record StrictWeak {A} (less : A -> A -> bool) : Prop := {
  less_irrefl : forall x, less x x = false;
  less_trans : forall x y z, less x y = true -> less y z = true -> less x z = true;
  less_incomp : forall x y z, less x y = false -> less y z = false -> less x z = false
}.

(** No element is [less] than one before it. *)
Definition ordered {A} (less : A -> A -> bool) (l : list A) : Prop :=
  forall i j x y, (i < j)%nat -> l !! i = Some x -> l !! j = Some y -> less y x = false.

(** What is known of [sort.Slice]: the slice is permuted, and ordered by
    [less] afterwards; elements that compare equal may end in any order (the
    sort is not stable). *)
Class SortSlice := {
  sort_slice : forall {A}, (A -> A -> bool) -> list A -> list A;
  sort_slice_perm : forall A (less : A -> A -> bool) l, sort_slice less l ≡ₚ l;
  sort_slice_ordered : forall A (less : A -> A -> bool) l,
    StrictWeak less -> ordered less (sort_slice less l)
}.

(** ** CreateInitialState and GetCurrentCharacter *)

Section Setup.
Context {RS : RandSource} {SS : SortSlice}.

(** The loop that rolls initiative: one d20 per character, in roster order,
    all from the same generator. *)
Fixpoint rollInitiatives (rng : SeededRNG) (allCharacters : list Character)
  : list (ID * Z) :=
  match allCharacters with
  | [] => []
  | char :: rest =>
      let '(roll, rng) := RollD20 rng in
      (Char_ID char, Speed (Stats char) + roll) :: rollInitiatives rng rest
  end.

(** The [less] of the sort: higher initiative first. *)
Definition byInitiative (a b : ID * Z) : bool := bool_decide (b.2 < a.2).

Definition CreateInitialState (players enemies : list Character) (seed : Z) : State :=
  let rng := NewSeededRNG seed in
  let allCharacters := players ++ enemies in
  let initiatives := rollInitiatives rng allCharacters in
  let initiatives := sort_slice byInitiative initiatives in
  let turnOrder := initiatives.*1 in
  mkState 1 allCharacters turnOrder 0 false None.

End Setup.

(** The pointer returned is, as for [GetCharacterByID], the index of the
    character with the character read through it; [None] is [nil]. *)
Definition GetCurrentCharacter (state : State) : run (option (nat * Character)) :=
  if bool_decide (Z.of_nat (length (TurnOrder state)) <= CurrentTurn state) then Done None
  else
    match index (TurnOrder state) (CurrentTurn state) with
    | Fault f => Fault f
    | Done currentID =>
        Done (list_find (fun c => Char_ID c = currentID) (Characters state))
    end.
(** ** What a state must satisfy, and what an encounter can reach *)

(** The part of a character that no action writes: who it is, where it
    stands, what it carries to fight with, and the stats other than hit
    points and defense. *)
Definition same_sheet (c c' : Character) : Prop :=
  Char_ID c' = Char_ID c /\ Name c' = Name c /\ IsPlayer c' = IsPlayer c
  /\ Pos c' = Pos c /\ Weapons c' = Weapons c /\ Abilities c' = Abilities c
  /\ MaxHP (Stats c') = MaxHP (Stats c) /\ Attack (Stats c') = Attack (Stats c)
  /\ Speed (Stats c') = Speed (Stats c).

(** A relation between a character before and after that every write of
    the resolver respects. *)
Record Upkeep (R : Character -> Character -> Prop) : Prop := {
  upkeep_refl : forall c, R c c;
  upkeep_trans : forall c1 c2 c3, R c1 c2 -> R c2 c3 -> R c1 c3;
  upkeep_HP : forall c hp, R c (set_HP c hp);
  upkeep_Defense : forall c d, R c (set_Defense c d);
  upkeep_Items : forall c its, R c (set_Items c its);
  upkeep_AbilityCooldowns : forall c g, R c (set_AbilityCooldowns c (Some g))
}.

(** A state whose turn counter points at somebody: the turn order is not
    empty, the counter lies within it, and every id in it names a
    character. *)
Definition pointed (s : State) : Prop :=
  TurnOrder s <> []
  /\ 0 <= CurrentTurn s < Z.of_nat (length (TurnOrder s))
  /\ Forall (fun id => id ∈ Char_ID <$> Characters s) (TurnOrder s).

(** A state the server can work with: pointed, and no cooldown map is
    nil. *)
Definition wellformed (s : State) : Prop :=
  pointed s /\ Forall (fun c => AbilityCooldowns c <> None) (Characters s).

#[global] Instance pointed_dec s : Decision (pointed s).
Proof. unfold pointed. apply _. Defined.
#[global] Instance wellformed_dec s : Decision (wellformed s).
Proof. unfold wellformed. apply _. Defined.

Section Reach.
Context {RS : RandSource} {MR : MapRange}.

(** The states an encounter can be in: the first one, and those that
    resolutions return from there, for any actions and seeds. *)
Inductive reachable (s0 : State) : State -> Prop :=
| reach_start : reachable s0 s0
| reach_step s a n r :
    reachable s0 s -> ApplyAction s a n = Ok r -> reachable s0 (Res_State r).

End Reach.

(** The state with another turn counter. *)
Definition set_CurrentTurn (st : State) (ct : Z) : State :=
  mkState (Round st) (Characters st) (TurnOrder st) ct (IsComplete st) (Winner st).
(** * The in-memory event store (memory_store.go) and the state manager
      (server_demo.go) *)

(** ** StateManager *)

(** The mutex makes every method atomic; a method is modelled by what it
    does to the map while it holds the lock. *)
Definition StateManager := gmap string State.

Definition NewStateManager : StateManager := ∅.

(** The zero value of [State], which the two-valued map read yields for a
    missing key. *)
Definition zeroState : State := mkState 0 [] [] 0 false None.

Definition GetState (sm : StateManager) (sessionID : string) : State * bool :=
  match sm !! sessionID with
  | Some state => (state, true)
  | None => (zeroState, false)
  end.

Definition SetState (sm : StateManager) (sessionID : string) (state : State)
  : StateManager :=
  <[sessionID := state]> sm.

Definition DeleteState (sm : StateManager) (sessionID : string) : StateManager :=
  delete sessionID sm.

(** One iteration of the loop that fills the copy. *)
Definition copyEntry (sm : StateManager) (result : gmap string State) (k : string)
  : gmap string State :=
  match sm !! k with
  | Some v => <[k := v]> result
  | None => result
  end.

(** The copy is filled key by key from a range over the map, whose order is
    unspecified: [keys] is that order. *)
Definition copyStates (sm : StateManager) (keys : list string) : gmap string State :=
  foldl (copyEntry sm) ∅ keys.

Definition GetAllStates (sm : StateManager) : gmap string State :=
  copyStates sm (map_to_list sm).*1.

Definition GetStateCount (sm : StateManager) : Z := Z.of_nat (size sm).

(** ** MemoryEventStore *)

(** [encoding/json] on a [State]: the text is opaque, and all that is known
    of it is that [json.Unmarshal] gives back what [json.Marshal] was given
    (the assumption made for [deepCopyState] too). *)
Class StateJSON := {
  Data : Type;
  Marshal : State -> Data;
  Unmarshal : Data -> option State;
  Unmarshal_Marshal : forall state, Unmarshal (Marshal state) = Some state
}.

Record Session := mkSession {
  Session_ID : string;
  Session_Name : string;
  Session_Status : string;
  CreatedAt : Z;
  UpdatedAt : Z
}.

(** What a call returns besides the store: [nil] or an error. *)
Inductive error : Type :=
| Nil
| Errorf (msg : string).

(** A pointer to a [State] with an [error]: a state, [nil, nil], or
    [nil, err]. *)
Inductive loaded : Type :=
| Loaded (state : State)
| NoSnapshot
| BadSnapshot.

Section Store.
Context {SJ : StateJSON}.

Record Snapshot := mkSnapshot {
  Snap_ID : Z;
  Snap_SessionID : string;
  Snap_Round : Z;
  StateData : Data;
  Timestamp : Z
}.

Record MemoryEventStore := mkMemoryEventStore {
  mes_events : list Event;
  mes_snapshots : list Snapshot;
  mes_sessions : list Session
}.

Definition NewMemoryEventStore : MemoryEventStore := mkMemoryEventStore [] [] [].

(** [time.Now().Unix()] is read twice; the two readings are parameters. *)
Definition CreateSession (mes : MemoryEventStore) (sessionID name : string)
    (now1 now2 : Z) : error * MemoryEventStore :=
  let session := mkSession sessionID name "active" now1 now2 in
  (Nil, mkMemoryEventStore (mes_events mes) (mes_snapshots mes)
          (mes_sessions mes ++ [session])).

Definition set_Event_ID (e : Event) (id : string) : Event :=
  mkEvent id (Event_Type e) (Event_Target e) (Event_Amount e) (Event_Source e)
    (Event_Actor e) (Event_Ability e) (Event_Item e).

(** [fmt.Sprintf("%s-%d-%d", sessionID, round, len(mes.events))]. *)
Definition eventID (sessionID : string) (round : Z) (n : nat) : string :=
  sessionID +:+ "-" +:+ fmt_d round +:+ "-" +:+ fmt_d (Z.of_nat n).

(** One iteration of the loop of [AppendEvents], on the slice of events. *)
Definition appendEvent (sessionID : string) (round : Z) (events : list Event)
    (event : Event) : list Event :=
  events ++ [set_Event_ID event (eventID sessionID round (length events))].

Definition AppendEvents (mes : MemoryEventStore) (sessionID : string) (round : Z)
    (events : list Event) : error * MemoryEventStore :=
  (Nil, mkMemoryEventStore (foldl (appendEvent sessionID round) (mes_events mes) events)
          (mes_snapshots mes) (mes_sessions mes)).

Definition SaveSnapshot (mes : MemoryEventStore) (sessionID : string) (round : Z)
    (state : State) (now : Z) : error * MemoryEventStore :=
  let stateData := Marshal state in
  let snapshot :=
    mkSnapshot (Z.of_nat (length (mes_snapshots mes))) sessionID round stateData now in
  (Nil, mkMemoryEventStore (mes_events mes) (mes_snapshots mes ++ [snapshot])
          (mes_sessions mes)).

(** The condition under which [GetEvents] keeps an event. *)
Definition ofSession (sessionID : string) (event : Event) : bool :=
  negb (String.eqb (Event_ID event) "")
  && bool_decide (String.length sessionID < String.length (Event_ID event))%nat
  && String.eqb (substring 0 (String.length sessionID) (Event_ID event)) sessionID.

Definition GetEvents (mes : MemoryEventStore) (sessionID : string) (fromRound : Z)
  : list Event * error :=
  (List.filter (ofSession sessionID) (mes_events mes), Nil).

(** One iteration of the loop of [GetLatestSnapshot]. *)
Definition latest_step (sessionID : string) (latest : option Snapshot)
    (snapshot : Snapshot) : option Snapshot :=
  if String.eqb (Snap_SessionID snapshot) sessionID then
    match latest with
    | None => Some snapshot
    | Some l =>
        if bool_decide (Snap_Round l < Snap_Round snapshot) then Some snapshot
        else Some l
    end
  else latest.

Definition load (snapshot : Snapshot) : loaded :=
  match Unmarshal (StateData snapshot) with
  | Some state => Loaded state
  | None => BadSnapshot
  end.

Definition GetLatestSnapshot (mes : MemoryEventStore) (sessionID : string) : loaded :=
  match foldl (latest_step sessionID) None (mes_snapshots mes) with
  | None => NoSnapshot
  | Some latest => load latest
  end.

Definition GetSnapshotAtRound (mes : MemoryEventStore) (sessionID : string)
    (round : Z) : loaded :=
  match list_find (fun snapshot =>
                     Snap_SessionID snapshot = sessionID /\ Snap_Round snapshot <= round)
                  (mes_snapshots mes) with
  | Some (_, snapshot) => load snapshot
  | None => NoSnapshot
  end.

Definition set_Status (s : Session) (status : string) (now : Z) : Session :=
  mkSession (Session_ID s) (Session_Name s) status (CreatedAt s) now.

Definition UpdateSessionStatus (mes : MemoryEventStore) (sessionID status : string)
    (now : Z) : error * MemoryEventStore :=
  match list_find (fun s => Session_ID s = sessionID) (mes_sessions mes) with
  | Some (i, s) =>
      (Nil, mkMemoryEventStore (mes_events mes) (mes_snapshots mes)
              (<[i := set_Status s status now]> (mes_sessions mes)))
  | None => (Errorf ("session not found: " +:+ sessionID), mes)
  end.

Definition Close (mes : MemoryEventStore) : error := Nil.

(** The stores a program can build: from the empty one, by the methods that
    write. *)
Inductive built : MemoryEventStore -> Prop :=
| built_new : built NewMemoryEventStore
| built_session mes sessionID name now1 now2 :
    built mes -> built (CreateSession mes sessionID name now1 now2).2
| built_events mes sessionID round events :
    built mes -> built (AppendEvents mes sessionID round events).2
| built_snapshot mes sessionID round state now :
    built mes -> built (SaveSnapshot mes sessionID round state now).2
| built_status mes sessionID status now :
    built mes -> built (UpdateSessionStatus mes sessionID status now).2.

End Store.
(** * The server around the resolver (main.go) *)

(** ** Roll checks *)

Record RollCheck := mkRollCheck {
  RollCheck_Actor : ID;
  RollCheck_Type : string;
  DC : Z
}.

Record RollResult := mkRollResult {
  Roll : Z;
  Modifier : Z;
  Total_ : Z;  (* Total *)
  Success : bool
}.

Section RollChecks.
Context {RS : RandSource}.

(** [handleRollCheck] once the body is parsed: [sessionID] is the
    [session-id] header, [now] the reading of [time.Now().UnixNano()]. *)
Definition handleRollCheck (stateManager : StateManager) (sessionID : string)
    (req : RollCheck) (now : Z) : RollResult :=
  let modifier :=
    if negb (String.eqb sessionID "") then
      let '(state, exists_) := GetState stateManager sessionID in
      if exists_ then
        match GetCharacterByID state (RollCheck_Actor req) with
        | Some (_, character) =>
            if String.eqb (RollCheck_Type req) "attack" then Attack (Stats character)
            else if String.eqb (RollCheck_Type req) "defense" then Defense (Stats character)
            else if String.eqb (RollCheck_Type req) "skill"
                    || String.eqb (RollCheck_Type req) "save"
            then Z.quot (Speed (Stats character)) 2
            else 0
        | None => 0
        end
      else 0
    else 0 in
  let seed := now in
  let rng := NewSeededRNG seed in
  let roll := fst (RollD20 rng) in
  let total := roll + modifier in
  let success := bool_decide (DC req <= total) in
  mkRollResult roll modifier total success.

End RollChecks.

(** ** Scenarios *)

Record ScenarioPosition := mkScenarioPosition { SP_X : Z; SP_Y : Z }.

Record ScenarioStats := mkScenarioStats {
  SS_HP : Z;
  SS_MaxHP : Z;
  SS_Attack : Z;
  SS_Defense : Z;
  SS_Speed : Z
}.

Record ScenarioWeapon := mkScenarioWeapon {
  SW_Name : string;
  SW_Damage : Z;
  SW_Accuracy : Z
}.

Record ScenarioAbility := mkScenarioAbility {
  SA_Name : string;
  SA_Cooldown : Z;
  SA_Effect : string;
  SA_Power : Z
}.

Record ScenarioItem := mkScenarioItem {
  SI_Name : string;
  SI_Type : string;
  SI_Effect : string
}.

Record ScenarioCharacter := mkScenarioCharacter {
  SC_Name : string;
  SC_Position : ScenarioPosition;
  SC_Stats : ScenarioStats;
  SC_Weapons : list ScenarioWeapon;
  SC_Abilities : list ScenarioAbility;
  SC_Items : list ScenarioItem
}.

Record Scenario := mkScenario {
  Scenario_Name : string;
  Description : string;
  Context_ : string;
  Players : list ScenarioCharacter;
  Enemies : list ScenarioCharacter
}.

(** [uuid.New()] is not part of the repository: the identifiers it hands
    out, in the order of the calls. *)
Class UUIDSource := { uuid : nat -> ID }.

Section Scenarios.
Context {RS : RandSource} {SS : SortSlice} {US : UUIDSource}.

(** [NewID()], given how many identifiers were drawn before. *)
Definition NewID (drawn : nat) : ID * nat := (uuid drawn, S drawn).

(** The three loops of [convertScenarioCharacterToCharacter], each drawing
    one identifier per element. *)
Fixpoint convertWeapons (ws : list ScenarioWeapon) (drawn : nat) : list Weapon * nat :=
  match ws with
  | [] => ([], drawn)
  | w :: ws =>
      let '(id, drawn) := NewID drawn in
      let '(rest, drawn) := convertWeapons ws drawn in
      (mkWeapon id (SW_Name w) (SW_Damage w) (SW_Accuracy w) :: rest, drawn)
  end.

Fixpoint convertAbilities (abs : list ScenarioAbility) (drawn : nat)
  : list Ability * nat :=
  match abs with
  | [] => ([], drawn)
  | a :: abs =>
      let '(id, drawn) := NewID drawn in
      let '(rest, drawn) := convertAbilities abs drawn in
      (mkAbility id (SA_Name a) (SA_Cooldown a) (SA_Effect a) (SA_Power a) :: rest, drawn)
  end.

Fixpoint convertItems (its : list ScenarioItem) (drawn : nat) : list Item * nat :=
  match its with
  | [] => ([], drawn)
  | item :: its =>
      let '(id, drawn) := NewID drawn in
      let '(rest, drawn) := convertItems its drawn in
      (mkItem id (SI_Name item) (SI_Type item) (SI_Effect item) :: rest, drawn)
  end.

Definition convertScenarioCharacterToCharacter (sc : ScenarioCharacter)
    (isPlayer : bool) (drawn : nat) : Character * nat :=
  let '(id, drawn) := NewID drawn in
  let stats := mkStat (SS_HP (SC_Stats sc)) (SS_MaxHP (SC_Stats sc))
                 (SS_Attack (SC_Stats sc)) (SS_Defense (SC_Stats sc))
                 (SS_Speed (SC_Stats sc)) in
  let position := mkPosition (SP_X (SC_Position sc)) (SP_Y (SC_Position sc)) in
  let '(weapons, drawn) := convertWeapons (SC_Weapons sc) drawn in
  let '(abilities, drawn) := convertAbilities (SC_Abilities sc) drawn in
  let '(items, drawn) := convertItems (SC_Items sc) drawn in
  (mkCharacter id (SC_Name sc) stats position weapons abilities items (Some ∅) isPlayer,
   drawn).

(** The loops over [scenario.Players] and [scenario.Enemies]. *)
Fixpoint convertAll (scs : list ScenarioCharacter) (isPlayer : bool) (drawn : nat)
  : list Character * nat :=
  match scs with
  | [] => ([], drawn)
  | sc :: scs =>
      let '(c, drawn) := convertScenarioCharacterToCharacter sc isPlayer drawn in
      let '(rest, drawn) := convertAll scs isPlayer drawn in
      (c :: rest, drawn)
  end.

(** [drawn] counts the identifiers drawn before the call. *)
Definition ConvertScenarioToState (scenario : Scenario) (seed : Z) (drawn : nat)
  : State * nat :=
  let rng := NewSeededRNG seed in
  let '(players, drawn) := convertAll (Players scenario) true drawn in
  let '(enemies, drawn) := convertAll (Enemies scenario) false drawn in
  let allCharacters := players ++ enemies in
  let initiatives := rollInitiatives rng allCharacters in
  let initiatives := sort_slice byInitiative initiatives in
  let turnOrder := initiatives.*1 in
  (mkState 1 allCharacters turnOrder 0 false None, drawn).

End Scenarios.

(** ** The action a game request stands for *)

(** What a handler answers when it does not go on: the status and the
    [error] of the JSON body. *)
Inductive reply (A : Type) : Type :=
| Goes (a : A)
| Answers (status : Z) (msg : string).
Arguments Goes {A} a.
Arguments Answers {A} status msg.

(** The [switch req.Action] of [handleGameAction], for the current
    character [currentChar]. *)
Definition requestedAction (state : State) (currentChar : Character)
    (reqAction : string) : reply Action :=
  if String.eqb reqAction "attack" then
    let targetID : ID :=
      match list_find (fun char => IsPlayer char = false /\ 0 < HP (Stats char))
                      (Characters state) with
      | Some (_, char) => Char_ID char
      | None => ""
      end in
    if String.eqb targetID "" then Answers 400 "No valid target"
    else
      let weaponID : ID :=
        match Weapons currentChar with
        | w :: _ => Weapon_ID w
        | [] => ""
        end in
      Goes (mkAction "Attack" (Char_ID currentChar) targetID weaponID "" "" "")
  else if String.eqb reqAction "defend" then
    Goes (mkAction "Defend" "" "" "" (Char_ID currentChar) "" "")
  else if String.eqb reqAction "flee" then
    Goes (mkAction "Flee" "" "" "" (Char_ID currentChar) "" "")
  else Answers 400 "Unknown action".

(** ** The combat map *)

(** The double quote of the HTML attributes. *)
Definition dq : string := String (ascii_of_nat 34) EmptyString.

(** The middle dot of an empty cell, in UTF-8. *)
Definition middot : string :=
  String (ascii_of_nat 194) (String (ascii_of_nat 183) EmptyString).

(** What is written for an occupied cell.  [class] is built and never
    written; the width of the health bar divides by [MaxHP]. *)
Definition renderOccupant (charAtPos : Character) : result string :=
  let class := "character" in
  let class := if IsPlayer charAtPos then class +:+ " player" else class +:+ " enemy" in
  let class :=
    if Z.eqb (HP (Stats charAtPos)) 0 then class +:+ " dead"
    else if bool_decide (HP (Stats charAtPos) < Z.quot (MaxHP (Stats charAtPos)) 3)
         then class +:+ " low-health"
         else class in
  if Z.eqb (MaxHP (Stats charAtPos)) 0 then Panic DivideByZero
  else
    Ok ("<div>" +:+ Name charAtPos +:+ "</div>"
        +:+ "<div class=" +:+ dq +:+ "health-bar" +:+ dq +:+ "><div class=" +:+ dq
        +:+ "health-fill" +:+ dq +:+ " style=" +:+ dq +:+ "width: "
        +:+ fmt_d (Z.quot (HP (Stats charAtPos) * 100) (MaxHP (Stats charAtPos)))
        +:+ "%" +:+ dq +:+ "></div></div>").

(** The first character standing at [(x, y)]. *)
Definition charAt (state : State) (x y : Z) : option (nat * Character) :=
  list_find (fun c => X (Pos c) = x /\ Y (Pos c) = y) (Characters state).

(** The body of the inner loop. *)
Definition renderCell (state : State) (x y : Z) : result string :=
  inner <- match charAt state x y with
           | Some (_, charAtPos) => renderOccupant charAtPos
           | None => Ok ("<div>" +:+ middot +:+ "</div>")
           end ;;
  Ok ("<div class=" +:+ dq +:+ "character" +:+ dq +:+ ">" +:+ inner +:+ "</div>").

(** The cells in the order of the two loops: [y] outside, [x] inside, each
    from -2 to 2. *)
Definition axis : list Z := [-2; -1; 0; 1; 2].
Definition cells : list (Z * Z) :=
  flat_map (fun y => List.map (fun x => (x, y)) axis) axis.

Fixpoint renderCells (state : State) (cs : list (Z * Z)) : result string :=
  match cs with
  | [] => Ok ""
  | (x, y) :: rest =>
      cell <- renderCell state x y ;;
      html <- renderCells state rest ;;
      Ok (cell +:+ html)
  end.

Definition renderCombatMap (state : State) : result string :=
  renderCells state cells.

(** ** Game requests against the state manager and the in-memory store *)

(** A handler that does not return has panicked, in the resolver or
    before. *)
Inductive crash : Type :=
| ResolverPanic (p : panic)
| RuntimeFault (f : fault).

Inductive served (A : Type) : Type :=
| Served (a : A)
| Crashed (c : crash).
Arguments Served {A} a.
Arguments Crashed {A} c.

Section Server.
Context {RS : RandSource} {MR : MapRange} {SS : SortSlice} {US : UUIDSource}
        {SJ : StateJSON}.

(** The two package variables the handlers work on, the event store being
    the in-memory one of the demo server. *)
Record Server := mkServer {
  stateManager : StateManager;
  eventStore : MemoryEventStore
}.

(** [handleGameAction] for the session of the route and the [action] field
    of the parsed body.  [now] is the reading of [time.Now().UnixNano()]
    that seeds the resolver, [stamp] that of [time.Now().Unix()] for a
    snapshot.  The answer is the logs of the resolution; the broadcast to
    the session's WebSocket client, which changes no state, is left out. *)
Definition handleGameAction (srv : Server) (sessionID reqAction : string)
    (now stamp : Z) : served (reply (list string) * Server) :=
  let '(state, exists_) := GetState (stateManager srv) sessionID in
  if negb exists_ then Served (Answers 404 "Session not found", srv)
  else
    match GetCurrentCharacter state with
    | Fault f => Crashed (RuntimeFault f)
    | Done None => Served (Answers 400 "No current character", srv)
    | Done (Some (_, currentChar)) =>
        match requestedAction state currentChar reqAction with
        | Answers status msg => Served (Answers status msg, srv)
        | Goes action =>
            let seed := now in
            match ApplyAction state action seed with
            | Panic p => Crashed (ResolverPanic p)
            | Ok resolution =>
                let newState := Res_State resolution in
                let sm := SetState (stateManager srv) sessionID newState in
                let es := (AppendEvents (eventStore srv) sessionID (Round newState)
                             (Events resolution)).2 in
                let es :=
                  if bool_decide (Round state < Round newState)
                  then (SaveSnapshot es sessionID (Round newState) newState stamp).2
                  else es in
                Served (Goes (Logs resolution), mkServer sm es)
            end
        end
    end.

(** [handleStartGame] once the scenario is loaded: the state is built, a
    fresh identifier names the session, and the session and its first
    snapshot are stored.  The answer is the session to redirect to. *)
Definition handleStartGame (srv : Server) (scenario : Scenario) (now : Z)
    (drawn : nat) (stamp1 stamp2 stamp3 : Z) : string * Server * nat :=
  let seed := now in
  let '(state, drawn) := ConvertScenarioToState scenario seed drawn in
  let '(sessionID, drawn) := NewID drawn in
  let sm := SetState (stateManager srv) sessionID state in
  let es := (CreateSession (eventStore srv) sessionID (Scenario_Name scenario)
               stamp1 stamp2).2 in
  let es := (SaveSnapshot es sessionID (Round state) state stamp3).2 in
  (sessionID, mkServer sm es, drawn).

End Server.
(** ** Notions the statements below are about *)

(** A character that still counts for its side. *)
Definition alive_player (c : Character) : Prop := IsPlayer c = true /\ 0 < HP (Stats c).
Definition alive_enemy (c : Character) : Prop := IsPlayer c = false /\ 0 < HP (Stats c).


(** A cooldown map that is there stays there. *)
Definition keeps_map (c c' : Character) : Prop :=
  AbilityCooldowns c <> None -> AbilityCooldowns c' <> None.


(** Two outcomes of a resolution that differ at most in the round and the
    turn counter of the state. *)
Definition agree (r1 r2 : result Resolution) : Prop :=
  match r1, r2 with
  | Ok x, Ok y =>
      Events x = Events y /\ Logs x = Logs y
      /\ Characters (Res_State x) = Characters (Res_State y)
      /\ IsComplete (Res_State x) = IsComplete (Res_State y)
      /\ Winner (Res_State x) = Winner (Res_State y)
  | Panic p, Panic q => p = q
  | _, _ => False
  end.

(** What follows the last dash of a string, if there is a dash. *)
Fixpoint after_dash (s : string) : option string :=
  match s with
  | EmptyString => None
  | String c s' =>
      match after_dash s' with
      | Some t => Some t
      | None => if Ascii.eqb c "-" then Some s' else None
      end
  end.

(** The events of [events] as [AppendEvents] stores them behind [n] events
    already there. *)
Definition stamped (sessionID : string) (round : Z) (n : nat) (events : list Event)
  : list Event :=
  imap (fun i event => set_Event_ID event (eventID sessionID round (n + i))) events.

(** Every stored event carries an id that ends in its own position. *)
Definition numbered (events : list Event) : Prop :=
  forall i e, events !! i = Some e -> exists sid r, Event_ID e = eventID sid r i.


(** What [convertScenarioCharacterToCharacter] makes of a scenario
    character. *)
Definition converted (sc : ScenarioCharacter) (isPlayer : bool) (c : Character) : Prop :=
  Name c = SC_Name sc /\ IsPlayer c = isPlayer
  /\ Stats c = mkStat (SS_HP (SC_Stats sc)) (SS_MaxHP (SC_Stats sc))
                 (SS_Attack (SC_Stats sc)) (SS_Defense (SC_Stats sc))
                 (SS_Speed (SC_Stats sc))
  /\ Pos c = mkPosition (SP_X (SC_Position sc)) (SP_Y (SC_Position sc))
  /\ AbilityCooldowns c = Some ∅
  /\ length (Weapons c) = length (SC_Weapons sc)
  /\ length (Abilities c) = length (SC_Abilities sc)
  /\ length (Items c) = length (SC_Items sc).

Section Health.
Context {SJ : StateJSON}.

(** A server all of whose sessions hold a well-formed state. *)
Definition healthy (srv : Server) : Prop :=
  map_Forall (fun _ state => wellformed state) (stateManager srv).

End Health.
(** ** Concrete parameters for the code around the resolver *)

(** A sort that meets what is known of [sort.Slice]: merge sort on "not
    less the other way round". *)
Definition not_after {A} (less : A -> A -> bool) (x y : A) : Prop := less y x = false.

#[global] Instance not_after_dec {A} (less : A -> A -> bool) x y :
  Decision (not_after less x y).
Proof. unfold not_after. apply _. Defined.

Definition MergeSort : SortSlice.
Proof.
  refine {| sort_slice := fun A less => merge_sort (not_after less) |}.
  - intros A less l. apply merge_sort_Permutation.
  - intros A less l [Hirr Htr Hinc].
    assert (Htot : Total (not_after less)).
    { intros x y. unfold not_after. destruct (less y x) eqn:E1; [|by left].
      right. destruct (less x y) eqn:E2; [|done].
      by rewrite <- (Hirr x), (Htr x y x E2 E1). }
    assert (Htrans : Transitive (not_after less)).
    { intros x y z Hxy Hyz. unfold not_after in *. by eapply Hinc. }
    pose proof (StronglySorted_merge_sort (not_after less) l) as Hs.
    clear Htot Htrans.
    induction Hs as [|x l' Hs IH Hx]; intros i j a b Hij Ha Hb.
    + done.
    + destruct j as [|j]; [lia|]. simpl in Hb.
      destruct i as [|i]; simpl in Ha.
      * injection Ha as <-. rewrite Forall_forall in Hx.
        apply Hx. by eapply list_elem_of_lookup_2.
      * eapply (IH i j); [lia|done..].
Defined.

(** Identifiers that never repeat. *)
Definition Counter : UUIDSource := {| uuid := fun n => "id-" +:+ pretty n |}.

(** The codec that keeps the value itself for its text. *)
Definition Plain : StateJSON :=
  {| Data := State; Marshal := fun s => s; Unmarshal := Some;
     Unmarshal_Marshal := fun _ => eq_refl |}.

(** A scenario of one hero against one goblin. *)
Definition ambush : Scenario :=
  mkScenario "Goblin Ambush" "A goblin blocks the road" "Forest road"
    [mkScenarioCharacter "Hero" (mkScenarioPosition 0 0) (mkScenarioStats 30 30 15 3 4)
       [mkScenarioWeapon "Sword" 6 85]
       [mkScenarioAbility "Fireball" 3 "damage" 8]
       [mkScenarioItem "Health Potion" "consumable" "heal 20 HP"]]
    [mkScenarioCharacter "Goblin" (mkScenarioPosition 1 1) (mkScenarioStats 15 15 5 2 3)
       [mkScenarioWeapon "Club" 3 60] [] []].

(** The arena once the hero has fled: complete, with both still standing. *)
Definition deserted_arena : State :=
  mkState 3 [hero; goblin] ["p1"; "e1"] 1 true (Some "player").

(** A guard in heavy armour. *)
Definition guard : Character :=
  mkCharacter "e2" "Guard" (mkStat 40 40 8 9 2) (mkPosition 2 0)
    [mkWeapon "w3" "Halberd" 8 70] [] [] (Some ∅) false.

Definition gatehouse : State := mkState 1 [hero; guard] ["p1"; "e2"] 0 false None.

(** A store with the events of two sessions, one of whose ids begins the
    other's, and with two snapshots of one session. *)
Definition two_sessions : MemoryEventStore (SJ := Plain) :=
  (AppendEvents
     (AppendEvents NewMemoryEventStore "game" 1 [damageEvent "e1" 12 "p1"]).2
     "game-2" 1 [damageEvent "p1" 3 "e1"; deathEvent "p1"]).2.

(** A manager that holds two sessions. *)
Definition two_states : StateManager :=
  SetState (SetState NewStateManager "a" arena) "b" chase.

(** A server with one session, at the arena. *)
Definition arena_server : Server (SJ := Plain) :=
  mkServer (SetState NewStateManager "s" arena) NewMemoryEventStore.
(** * The dice of the TypeScript core (packages/core/src/rng.ts) *)

From Stdlib Require Floats Uint63.

Local Open Scope string_scope.
Local Open Scope Z_scope.
Local Open Scope list_scope.

(** The generator of the TypeScript resolver works on [number]s, which are
    IEEE 754 doubles: they are modelled by the primitive [float]s, whose
    [+], [*] and [/] round to nearest, ties to even, as ECMAScript's do. *)
Module TS.

Import SpecFloat.

Definition number : Type := PrimFloat.float.

(** An integer literal of the source, as the double it denotes (exactly,
    below 2^53). *)
Definition num (z : Z) : number :=
  match z with
  | Z0 => PrimFloat.of_uint63 (Uint63.of_Z 0)
  | Zpos _ => PrimFloat.of_uint63 (Uint63.of_Z z)
  | Zneg p => PrimFloat.opp (PrimFloat.of_uint63 (Uint63.of_Z (Zpos p)))
  end.

(** [a % b]: the remainder of the division truncated towards zero, exact,
    with the sign of the dividend; [NaN] when the dividend is infinite or the
    divisor zero.  The two operands are written over their common exponent
    [e], where they are integers. *)
Definition js_rem (a b : number) : number :=
  match FloatOps.Prim2SF a, FloatOps.Prim2SF b with
  | S754_nan, _ | _, S754_nan => PrimFloat.nan
  | S754_infinity _, _ => PrimFloat.nan
  | _, S754_zero _ => PrimFloat.nan
  | _, S754_infinity _ => a
  | S754_zero _, _ => a
  | S754_finite sa ma ea, S754_finite _ mb eb =>
      let e := Z.min ea eb in
      let A := Z.shiftl (Zpos ma) (ea - e) in
      let B := Z.shiftl (Zpos mb) (eb - e) in
      let r := FloatOps.Z.ldexp (num (Z.rem A B)) e in
      if sa then PrimFloat.opp r else r
  end.

(** [Math.floor]: a double that has a fractional part is [m * 2^-k]; the
    others are their own floor. *)
Definition Math_floor (x : number) : number :=
  match FloatOps.Prim2SF x with
  | S754_finite s m (Zneg k) => num (Z.shiftr (if s then Zneg m else Zpos m) (Zpos k))
  | _ => x
  end.

Record SeededRNG := mkSeededRNG { seed : number }.

(** A method returns its value and the object, which it may have changed. *)
Definition next (this : SeededRNG) : number * SeededRNG :=
  let seed :=
    js_rem (PrimFloat.add (PrimFloat.mul (seed this) (num 9301)) (num 49297))
           (num 233280) in
  (PrimFloat.div seed (num 233280), mkSeededRNG seed).

Definition roll (this : SeededRNG) (sides : number) : number * SeededRNG :=
  let '(x, this) := next this in
  (PrimFloat.add (Math_floor (PrimFloat.mul x sides)) (num 1), this).

Definition rollD20 (this : SeededRNG) : number * SeededRNG := roll this (num 20).

Definition rollD6 (this : SeededRNG) : number * SeededRNG := roll this (num 6).

Definition clone (this : SeededRNG) : SeededRNG := mkSeededRNG (seed this).

End TS.

(** [f] on every integer from [base], [count] of them. *)
Fixpoint all_from (count : positive) (base : Z) (f : Z -> bool) : bool :=
  match count with
  | xH => f base
  | xO half => all_from half base f && all_from half (base + Zpos half) f
  | xI half =>
      f base && all_from half (base + 1) f && all_from half (base + 1 + Zpos half) f
  end.

(** The face [roll] computes from the state [s'] that [next] left is [q + 1]. *)
Definition shows (sides q s' : Z) : bool :=
  PrimFloat.Leibniz.eqb
    (PrimFloat.add
       (TS.Math_floor (PrimFloat.mul (PrimFloat.div (TS.num s') (TS.num 233280))
                         (TS.num sides)))
       (TS.num 1))
    (TS.num (q + 1)).

(** The states on which [floor(s' * sides / 233280)] is [q] all show
    [q + 1]. *)
Definition face_checked (sides q : Z) : bool :=
  all_from (Z.to_pos (233280 / sides)) (q * (233280 / sides)) (shows sides q).

Definition faces_checked (sides : Z) : bool :=
  forallb (face_checked sides) (seqZ (- sides) (2 * sides)).

(** The number of binary digits of a mantissa. *)
Definition digits (p : positive) : Z := Zpos (SpecFloat.digits2_pos p).
(** * Facts about the resolver *)

(** Case analysis on a handler that returned. *)
Ltac handler_inv H :=
  unfold bind in H; repeat case_match; simplify_eq; simpl.

(** Closed decidable facts, by evaluation. *)
Ltac by_compute :=
  lazymatch goal with
  | |- ~ ?P =>
      let H := fresh in
      intros H; apply (@bool_decide_pack P _) in H; vm_compute in H; exact H
  | |- ?P => apply (@bool_decide_unpack P _); vm_compute; exact I
  end.


Section Facts.
Context {RS : RandSource} {MR : MapRange}.

Lemma decay_step_lookup (g : gmap string Z) a k :
  decay_step g a !! k = if decide (a = k) then decay <$> g !! k else g !! k.
Proof.
  unfold decay_step, decay. destruct (g !! a) as [c|] eqn:Ha.
  - case_bool_decide; case_decide; subst; rewrite ?Ha; simpl;
      rewrite ?lookup_insert_eq, ?lookup_insert_ne by done;
      try case_bool_decide; try done; try lia.
  - case_decide; subst; rewrite ?Ha; done.
Qed.

Lemma foldl_decay_step_lookup (ks : list string) (g : gmap string Z) k :
  NoDup ks ->
  foldl decay_step g ks !! k = if decide (k ∈ ks) then decay <$> g !! k else g !! k.
Proof.
  revert g. induction ks as [|a ks IH]; intros g Hnd; cbn [foldl].
  - destruct (decide (k ∈ [])) as [H|H]; [by apply elem_of_nil in H | done].
  - apply NoDup_cons in Hnd as [Ha Hnd]. rewrite IH, decay_step_lookup by done.
    destruct (decide (k ∈ ks)) as [Hk|Hk];
      destruct (decide (k ∈ a :: ks)) as [Hk'|Hk'];
      destruct (decide (a = k)) as [->|Hne]; try done.
    all: exfalso;
      first [ by apply Ha
            | apply Hk', elem_of_cons; by auto
            | apply elem_of_cons in Hk' as [->|?]; done ].
Qed.

Lemma decayCooldowns_fmap (m : option (gmap string Z)) :
  decayCooldowns m = decayAll m.
Proof.
  destruct m as [g|]; [|done]. simpl. f_equal. apply map_eq. intros k.
  assert (Hnd : NoDup (range_keys g)).
  { rewrite range_keys_perm. apply NoDup_fst_map_to_list. }
  rewrite foldl_decay_step_lookup by done. rewrite lookup_fmap.
  case_decide as Hk; [done|].
  destruct (g !! k) as [c|] eqn:Hg; [|done].
  exfalso. apply Hk. rewrite range_keys_perm.
  apply list_elem_of_fmap. exists (k, c). split; [done|].
  by apply elem_of_map_to_list.
Qed.

End Facts.

Lemma list_find_insert_keep {A} (P : A -> Prop) `{!forall x, Decision (P x)}
    (l : list A) (i : nat) (x y : A) :
  l !! i = Some x -> (P x <-> P y) ->
  list_find P (<[i := y]> l)
  = (fun '(j, z) => (j, if decide (j = i) then y else z)) <$> list_find P l.
Proof.
  revert i. induction l as [|x0 l IH]; intros i Hi HP; [done|].
  destruct i as [|i]; simplify_eq/=.
  - destruct (decide (P x)) as [Hx|Hx].
    + rewrite decide_True by tauto. done.
    + rewrite decide_False by tauto.
      destruct (list_find P l) as [[j z]|]; done.
  - destruct (decide (P x0)); [done|].
    rewrite IH by done.
    destruct (list_find P l) as [[j z]|]; simpl; [|done].
    repeat case_decide; try done; lia.
Qed.

Section Base.
Context {RS : RandSource} {MR : MapRange}.

(** *** The dice *)

Lemma RollD20_range g : 1 <= fst (RollD20 g) <= 20.
Proof.
  unfold RollD20. pose proof (Intn_bounds (rng g) 20 ltac:(lia)) as H.
  destruct (Intn (rng g) 20) as [v r]. simpl in *. lia.
Qed.

Lemma RollD6_range g : 1 <= fst (RollD6 g) <= 6.
Proof.
  unfold RollD6. pose proof (Intn_bounds (rng g) 6 ltac:(lia)) as H.
  destruct (Intn (rng g) 6) as [v r]. simpl in *. lia.
Qed.

(** *** Pointers into [Characters] *)

Lemma GetCharacterByID_Some s id i c :
  GetCharacterByID s id = Some (i, c) ->
  Characters s !! i = Some c /\ Char_ID c = id.
Proof. intros (? & ? & _)%list_find_Some. done. Qed.

Lemma GetCharacterByID_elem s id i c :
  GetCharacterByID s id = Some (i, c) -> c ∈ Characters s.
Proof. intros [H _]%GetCharacterByID_Some. by eapply list_elem_of_lookup_2. Qed.

Lemma GetCharacterByID_store s i c c' id :
  Characters s !! i = Some c -> Char_ID c' = Char_ID c ->
  GetCharacterByID (store s i c') id
  = (fun '(j, z) => (j, if decide (j = i) then c' else z)) <$> GetCharacterByID s id.
Proof.
  intros Hi Hid. unfold GetCharacterByID, store. simpl.
  apply list_find_insert_keep with (x := c); [done|]. by rewrite Hid.
Qed.

Lemma GetCharacterByID_store_same s i c c' id :
  GetCharacterByID s id = Some (i, c) -> Char_ID c' = Char_ID c ->
  GetCharacterByID (store s i c') id = Some (i, c').
Proof.
  intros Hf Hid. pose proof (GetCharacterByID_Some _ _ _ _ Hf) as [Hi _].
  rewrite (GetCharacterByID_store s i c c' id Hi Hid), Hf. simpl.
  by rewrite decide_True.
Qed.

Lemma GetCharacterByID_fmap s s' (f : Character -> Character) cid :
  (forall c, Char_ID (f c) = Char_ID c) ->
  Characters s' = f <$> Characters s ->
  GetCharacterByID s' cid = prod_map id f <$> GetCharacterByID s cid.
Proof.
  intros Hf Hs. unfold GetCharacterByID. rewrite Hs, list_find_fmap.
  f_equal. apply list_find_ext. intros c. simpl. by rewrite Hf.
Qed.

(** *** [tick] *)

Lemma tick_Char_ID c : Char_ID (tick c) = Char_ID c.
Proof. done. Qed.
Lemma tick_HP c : HP (Stats (tick c)) = HP (Stats c).
Proof. done. Qed.
Lemma tick_MaxHP c : MaxHP (Stats (tick c)) = MaxHP (Stats c).
Proof. done. Qed.
Lemma tick_IsPlayer c : IsPlayer (tick c) = IsPlayer c.
Proof. done. Qed.
Lemma tick_Defense c : Defense (Stats (tick c)) = resetDefense (Defense (Stats c)).
Proof. done. Qed.
Lemma tick_AbilityCooldowns c :
  AbilityCooldowns (tick c) = decayAll (AbilityCooldowns c).
Proof. unfold tick. simpl. apply decayCooldowns_fmap. Qed.

Lemma map_get_decayAll m k : map_get (decayAll m) k = decay (map_get m k).
Proof.
  destruct m as [g|]; simpl; [|done].
  rewrite lookup_fmap. destruct (g !! k); done.
Qed.

(** *** [advanceTurn] *)

Lemma advanceTurn_ended s :
  ended s = true ->
  exists w, advanceTurn s
            = Ok (mkState (Round s) (tick <$> Characters s) (TurnOrder s) (CurrentTurn s) true w).
Proof.
  unfold ended, advanceTurn, deepCopyState.
  destruct (countAlive _) as [p e].
  destruct (Z.eqb p 0); simpl; [eauto|].
  destruct (Z.eqb e 0); simpl; [eauto|].
  intros ->. simpl. eauto.
Qed.

Lemma advanceTurn_going s :
  ended s = false -> TurnOrder s <> [] ->
  let ct := Z.rem (CurrentTurn s + 1) (Z.of_nat (length (TurnOrder s))) in
  advanceTurn s
  = Ok (mkState (if Z.eqb ct 0 then Round s + 1 else Round s) (tick <$> Characters s)
          (TurnOrder s) ct false (Winner s)).
Proof.
  unfold ended, advanceTurn, deepCopyState.
  destruct (countAlive _) as [p e].
  destruct (Z.eqb p 0); simpl; [done|].
  destruct (Z.eqb e 0); simpl; [done|].
  intros -> Hne. simpl. destruct (TurnOrder s); done.
Qed.

Lemma advanceTurn_Panic s p :
  advanceTurn s = Panic p -> TurnOrder s = [] /\ ended s = false.
Proof.
  intros H. destruct (ended s) eqn:He.
  - apply advanceTurn_ended in He as [w Hw]. congruence.
  - split; [|done]. destruct (TurnOrder s) eqn:Ht; [done|].
    rewrite advanceTurn_going in H; [done|done|]. by rewrite Ht.
Qed.

Lemma advanceTurn_Ok s s' :
  advanceTurn s = Ok s' ->
  Characters s' = tick <$> Characters s /\ TurnOrder s' = TurnOrder s.
Proof.
  intros H. destruct (ended s) eqn:He.
  - apply advanceTurn_ended in He as [w Hw]. rewrite Hw in H. injection H as <-. done.
  - destruct (TurnOrder s) eqn:Ht.
    + unfold ended, advanceTurn, deepCopyState in *.
      destruct (countAlive _) as [p e].
      destruct (Z.eqb p 0); simpl in *; [done|].
      destruct (Z.eqb e 0); simpl in *; [done|].
      rewrite He, Ht in H. done.
    + rewrite advanceTurn_going in H; [|done|by rewrite Ht]. injection H as <-. done.
Qed.

End Base.
Section Order.
Context {RS : RandSource} (MR1 MR2 : MapRange).

Lemma tick_order c : @tick MR1 c = @tick MR2 c.
Proof. unfold tick. by rewrite !decayCooldowns_fmap. Qed.

Lemma advanceTurn_order s : @advanceTurn MR1 s = @advanceTurn MR2 s.
Proof.
  unfold advanceTurn.
  replace (@tick MR1 <$> Characters (deepCopyState s))
    with (@tick MR2 <$> Characters (deepCopyState s)); [done|].
  apply list_fmap_ext. intros i c _. symmetry. apply tick_order.
Qed.

Ltac same_advance :=
  repeat first [ progress rewrite advanceTurn_order | done | case_match ].

Lemma handleAttack_order st a g ev lg :
  @handleAttack RS MR1 st a g ev lg = @handleAttack RS MR2 st a g ev lg.
Proof. unfold handleAttack. same_advance. Qed.

Lemma handleDefend_order st a g ev lg :
  @handleDefend RS MR1 st a g ev lg = @handleDefend RS MR2 st a g ev lg.
Proof. unfold handleDefend. same_advance. Qed.

Lemma handleAbility_order st a g ev lg :
  @handleAbility RS MR1 st a g ev lg = @handleAbility RS MR2 st a g ev lg.
Proof. unfold handleAbility, bind. same_advance. Qed.

Lemma handleUseItem_order st a g ev lg :
  @handleUseItem RS MR1 st a g ev lg = @handleUseItem RS MR2 st a g ev lg.
Proof. unfold handleUseItem. same_advance. Qed.

Lemma handleFlee_order st a g ev lg :
  @handleFlee RS MR1 st a g ev lg = @handleFlee RS MR2 st a g ev lg.
Proof. unfold handleFlee. same_advance. Qed.

End Order.

(** * The claims *)

Section Dispatch.
Context {RS : RandSource} {MR : MapRange}.

Lemma ApplyAction_Attack s a n :
  Kind a = "Attack" -> is_Some (GetCharacterByID s (Attacker a)) ->
  ApplyAction s a n = handleAttack s a (NewSeededRNG n) [] [bypass_log].
Proof.
  intros Hk [p Hp]. unfold ApplyAction, getActorID, deepCopyState.
  rewrite Hk. simpl. rewrite Hp. done.
Qed.

Lemma ApplyAction_Defend s a n :
  Kind a = "Defend" -> is_Some (GetCharacterByID s (Actor a)) ->
  ApplyAction s a n = handleDefend s a (NewSeededRNG n) [] [bypass_log].
Proof.
  intros Hk [p Hp]. unfold ApplyAction, getActorID, deepCopyState.
  rewrite Hk. simpl. rewrite Hp. done.
Qed.

Lemma ApplyAction_Ability s a n :
  Kind a = "Ability" -> is_Some (GetCharacterByID s (Actor a)) ->
  ApplyAction s a n = handleAbility s a (NewSeededRNG n) [] [bypass_log].
Proof.
  intros Hk [p Hp]. unfold ApplyAction, getActorID, deepCopyState.
  rewrite Hk. simpl. rewrite Hp. done.
Qed.

Lemma ApplyAction_UseItem s a n :
  Kind a = "UseItem" -> is_Some (GetCharacterByID s (Actor a)) ->
  ApplyAction s a n = handleUseItem s a (NewSeededRNG n) [] [bypass_log].
Proof.
  intros Hk [p Hp]. unfold ApplyAction, getActorID, deepCopyState.
  rewrite Hk. simpl. rewrite Hp. done.
Qed.

Lemma ApplyAction_Flee s a n :
  Kind a = "Flee" -> is_Some (GetCharacterByID s (Actor a)) ->
  ApplyAction s a n = handleFlee s a (NewSeededRNG n) [] [bypass_log].
Proof.
  intros Hk [p Hp]. unfold ApplyAction, getActorID, deepCopyState.
  rewrite Hk. simpl. rewrite Hp. done.
Qed.

(** Every call takes one of seven ways out. *)
Lemma ApplyAction_cases s a n :
  ApplyAction s a n = Ok (mkResolution [] s [bypass_log; "Invalid action: character not found"])
  \/ ApplyAction s a n = Ok (mkResolution [] s [bypass_log; "Invalid action kind"])
  \/ ApplyAction s a n = handleAttack s a (NewSeededRNG n) [] [bypass_log]
  \/ ApplyAction s a n = handleDefend s a (NewSeededRNG n) [] [bypass_log]
  \/ ApplyAction s a n = handleAbility s a (NewSeededRNG n) [] [bypass_log]
  \/ ApplyAction s a n = handleUseItem s a (NewSeededRNG n) [] [bypass_log]
  \/ ApplyAction s a n = handleFlee s a (NewSeededRNG n) [] [bypass_log].
Proof.
  unfold ApplyAction, deepCopyState. simpl.
  destruct (GetCharacterByID s (getActorID a)); [|by left].
  destruct (String.eqb (Kind a) "Attack") eqn:E1; simpl; [tauto|].
  destruct (String.eqb (Kind a) "Defend") eqn:E2; simpl; [tauto|].
  destruct (String.eqb (Kind a) "Ability") eqn:E3; simpl; [tauto|].
  destruct (String.eqb (Kind a) "UseItem") eqn:E4; simpl; [tauto|].
  destruct (String.eqb (Kind a) "Flee") eqn:E5; simpl; tauto.
Qed.

End Dispatch.

Section Returns.
Context {RS : RandSource} {MR : MapRange}.

(** *** When a call panics *)

Lemma advanceTurn_Panic_kind s p : advanceTurn s = Panic p -> p = DivideByZero.
Proof.
  unfold advanceTurn. intros H. repeat case_match; by simplify_eq.
Qed.

Lemma bind_advanceTurn_Panic {A} st (k : State -> result A) p :
  (forall x, k x <> Panic p) ->
  (x <- advanceTurn st ;; k x) = Panic p ->
  p = DivideByZero /\ TurnOrder st = [].
Proof.
  intros Hk H. destruct (advanceTurn st) as [x|q] eqn:E; simpl in H.
  - by apply Hk in H.
  - simplify_eq. split; [by eapply advanceTurn_Panic_kind|].
    by apply advanceTurn_Panic in E as [E _].
Qed.

(** The two ways a call can panic, with what brings them about. *)
Lemma ApplyAction_Panic s a n p :
  ApplyAction s a n = Panic p ->
  (p = DivideByZero /\ TurnOrder s = [])
  \/ (p = NilMapWrite
      /\ exists i c, GetCharacterByID s (Actor a) = Some (i, c)
                     /\ AbilityCooldowns c = None).
Proof.
  intros H.
  destruct (ApplyAction_cases s a n) as [E|[E|[E|[E|[E|[E|E]]]]]];
    rewrite E in H; try done; clear E.
  - left. unfold handleAttack in H. repeat case_match; simplify_eq;
      by apply bind_advanceTurn_Panic in H.
  - left. unfold handleDefend in H. repeat case_match; simplify_eq;
      by apply bind_advanceTurn_Panic in H.
  - unfold handleAbility in H. repeat case_match; simplify_eq.
    all: match goal with
         | H : (_ <- map_set ?m _ _ ;; _) = Panic _ |- _ =>
             destruct m as [g|] eqn:Hm; simpl in H
         end.
    all: try (right; split; [by simplify_eq|]; by eauto).
    all: left; repeat case_match; simplify_eq;
      by apply bind_advanceTurn_Panic in H.
  - left. unfold handleUseItem in H. repeat case_match; simplify_eq;
      by apply bind_advanceTurn_Panic in H.
  - left. unfold handleFlee in H. repeat case_match; simplify_eq;
      by apply bind_advanceTurn_Panic in H.
Qed.

(** A state with a turn order and no nil cooldown map is always resolved. *)
Lemma ApplyAction_returns s a n :
  TurnOrder s <> [] ->
  Forall (fun c => AbilityCooldowns c <> None) (Characters s) ->
  exists r, ApplyAction s a n = Ok r.
Proof.
  intros Hto Hmaps. destruct (ApplyAction s a n) as [r|p] eqn:E; [eauto|].
  apply ApplyAction_Panic in E as [[_ ?]|(_ & i & c & Hc & Hnil)]; [done|].
  apply GetCharacterByID_elem in Hc. rewrite Forall_forall in Hmaps.
  by apply Hmaps in Hc.
Qed.

End Returns.
Section Determinism.
Context {RS : RandSource} (MR1 MR2 : MapRange).

(** C1.  Two calls of [ApplyAction] on structurally equal state, action
    and seed return the same result (events, logs and state), whatever order
    Go picks for ranging over the cooldown maps in either call. *)
Theorem ApplyAction_deterministic s1 s2 a1 a2 n1 n2 :
  s1 = s2 -> a1 = a2 -> n1 = n2 ->
  @ApplyAction RS MR1 s1 a1 n1 = @ApplyAction RS MR2 s2 a2 n2.
Proof.
  intros -> -> ->. unfold ApplyAction.
  rewrite (handleAttack_order MR1 MR2), (handleDefend_order MR1 MR2),
    (handleAbility_order MR1 MR2), (handleUseItem_order MR1 MR2),
    (handleFlee_order MR1 MR2). done.
Qed.
End Determinism.

Section Claims1.
Context {RS : RandSource} {MR : MapRange}.

(** *** Logs only grow *)

Lemma handleAttack_logs st a g ev lg r :
  handleAttack st a g ev lg = Ok r -> exists rest, Logs r = lg ++ rest.
Proof.
  unfold handleAttack. intros H. handler_inv H; rewrite <- ?app_assoc; eauto.
Qed.

Lemma handleDefend_logs st a g ev lg r :
  handleDefend st a g ev lg = Ok r -> exists rest, Logs r = lg ++ rest.
Proof.
  unfold handleDefend. intros H. handler_inv H; rewrite <- ?app_assoc; eauto.
Qed.

Lemma handleAbility_logs st a g ev lg r :
  handleAbility st a g ev lg = Ok r -> exists rest, Logs r = lg ++ rest.
Proof.
  unfold handleAbility. intros H. handler_inv H; rewrite <- ?app_assoc; eauto.
  all: exists []; by rewrite app_nil_r.
Qed.

Lemma handleUseItem_logs st a g ev lg r :
  handleUseItem st a g ev lg = Ok r -> exists rest, Logs r = lg ++ rest.
Proof.
  unfold handleUseItem. intros H. handler_inv H; rewrite <- ?app_assoc; eauto.
  all: exists []; by rewrite app_nil_r.
Qed.

Lemma handleFlee_logs st a g ev lg r :
  handleFlee st a g ev lg = Ok r -> exists rest, Logs r = lg ++ rest.
Proof.
  unfold handleFlee. intros H. handler_inv H; rewrite <- ?app_assoc; eauto.
Qed.

(** C10.  Every resolution the Go [ApplyAction] returns has a non-empty
    [Logs] whose first element is "Actor bypass: Direct mutation used"; the
    handler's or the soft failure's own lines come after it. *)
Theorem ApplyAction_logs_start_with_bypass s a n r :
  ApplyAction s a n = Ok r ->
  exists rest, Logs r = "Actor bypass: Direct mutation used" :: rest.
Proof.
  intros H.
  destruct (ApplyAction_cases s a n) as [E|[E|[E|[E|[E|[E|E]]]]]];
    rewrite E in H.
  - simplify_eq. simpl. eauto.
  - simplify_eq. simpl. eauto.
  - apply handleAttack_logs in H as [rest ->]. simpl. eauto.
  - apply handleDefend_logs in H as [rest ->]. simpl. eauto.
  - apply handleAbility_logs in H as [rest ->]. simpl. eauto.
  - apply handleUseItem_logs in H as [rest ->]. simpl. eauto.
  - apply handleFlee_logs in H as [rest ->]. simpl. eauto.
Qed.


Lemma handleAbility_on_cooldown s a n ci character ai ability :
  Kind a = "Ability" ->
  GetCharacterByID s (Actor a) = Some (ci, character) ->
  list_find (fun ab => Ability_ID ab = Action_Ability a) (Abilities character)
    = Some (ai, ability) ->
  0 < map_get (AbilityCooldowns character) (Ability_ID ability) ->
  ApplyAction s a n
  = Ok (mkResolution [] s [bypass_log; Ability_Name ability +:+ " is on cooldown!"]).
Proof.
  intros Hk Hc Ha Hcd.
  rewrite ApplyAction_Ability by eauto.
  unfold handleAbility. rewrite Hc, Ha.
  rewrite bool_decide_true by done. done.
Qed.


(** *** A successful flee *)

Lemma handleFlee_success st a g ev lg i c :
  GetCharacterByID st (Actor a) = Some (i, c) ->
  15 <= fst (RollD20 g) + Speed (Stats c) ->
  handleFlee st a g ev lg
  = Ok (mkResolution (ev ++ [fleeEvent (Char_ID c)])
          (mkState (Round st) (Characters st) (TurnOrder st) (CurrentTurn st)
             true (Some "player"))
          (lg ++ [Name c +:+ " successfully flees from combat!"])).
Proof.
  intros Hc Hroll. unfold handleFlee. rewrite Hc.
  rewrite bool_decide_true by done. done.
Qed.

(** C2, at the failing input.  A player whose speed is 100 flees, whatever
    the seed: the resolution carries the flee event, the state is complete
    and otherwise untouched, and the winner recorded is "player", the very
    side that fled. *)
Theorem ApplyAction_player_flee_winner n :
  ApplyAction chase (fleeAction "p1") n
  = Ok (mkResolution [fleeEvent "p1"]
          (mkState 1 [runner; goblin] ["p1"; "e1"] 0 true (Some "player"))
          ["Actor bypass: Direct mutation used";
           "Runner successfully flees from combat!"]).
Proof.
  rewrite ApplyAction_Flee by (try reflexivity; by eexists).
  erewrite handleFlee_success with (i := 0%nat) (c := runner); [done|done|].
  pose proof (RollD20_range (NewSeededRNG n)). simpl. lia.
Qed.

End Claims1.

(** A run of C1: the same attack resolved under two different map orders. *)
Lemma ApplyAction_deterministic_witness :
  @ApplyAction Lcg KeyOrder tired_arena (attackAction "p1" "e1" "w1") 12345
  = @ApplyAction Lcg ReverseKeyOrder tired_arena (attackAction "p1" "e1" "w1") 12345.
Proof.
  apply (@ApplyAction_deterministic Lcg KeyOrder ReverseKeyOrder); reflexivity.
Defined.

Lemma ApplyAction_logs_start_with_bypass_witness :
  exists r,
    @ApplyAction Lcg KeyOrder arena (attackAction "p1" "e1" "w1") 12345 = Ok r
    /\ exists rest, Logs r = "Actor bypass: Direct mutation used" :: rest.
Proof.
  eexists. split; [vm_compute; reflexivity|].
  apply (@ApplyAction_logs_start_with_bypass Lcg KeyOrder arena
           (attackAction "p1" "e1" "w1") 12345).
  vm_compute. reflexivity.
Defined.


Section HPBounds.
Context {RS : RandSource} {MR : MapRange}.

Lemma hp_ok_tick c : hp_ok c -> hp_ok (tick c).
Proof. done. Qed.

Lemma advanceTurn_hp_bounds s s' :
  hp_bounds s -> advanceTurn s = Ok s' -> hp_bounds s'.
Proof.
  intros Hs [Hc _]%advanceTurn_Ok. unfold hp_bounds. rewrite Hc.
  apply Forall_fmap. eapply Forall_impl; [exact Hs|]. apply hp_ok_tick.
Qed.

Lemma store_hp_bounds s i c :
  hp_bounds s -> hp_ok c -> hp_bounds (store s i c).
Proof. intros Hs Hc. unfold hp_bounds, store. simpl. by apply Forall_insert. Qed.

Lemma GetCharacterByID_hp_ok s cid i c :
  hp_bounds s -> GetCharacterByID s cid = Some (i, c) -> hp_ok c.
Proof.
  intros Hs Hc%GetCharacterByID_elem. unfold hp_bounds in Hs.
  rewrite Forall_forall in Hs. auto.
Qed.

Ltac hp_step :=
  match goal with
  | H : advanceTurn _ = Ok ?s |- hp_bounds ?s =>
      eapply advanceTurn_hp_bounds; [|exact H]
  | |- hp_bounds (store _ _ _) => apply store_hp_bounds
  end.

Lemma handleAttack_hp_bounds st a g ev lg r :
  hp_bounds st -> handleAttack st a g ev lg = Ok r -> hp_bounds (Res_State r).
Proof.
  intros Hs H. unfold handleAttack in H. handler_inv H; repeat hp_step; try done.
  all: match goal with
       | Hs : hp_bounds ?s, Ht : GetCharacterByID ?s (Target _) = Some (_, ?t) |- _ =>
           pose proof (GetCharacterByID_hp_ok _ _ _ _ Hs Ht) as Hok
       end; unfold hp_ok in *; simpl; lia.
Qed.

Lemma handleDefend_hp_bounds st a g ev lg r :
  hp_bounds st -> handleDefend st a g ev lg = Ok r -> hp_bounds (Res_State r).
Proof.
  intros Hs H. unfold handleDefend in H. handler_inv H; repeat hp_step; try done.
  eapply GetCharacterByID_hp_ok in Hs; [|eassumption]. done.
Qed.

Lemma handleUseItem_hp_bounds st a g ev lg r :
  hp_bounds st -> handleUseItem st a g ev lg = Ok r -> hp_bounds (Res_State r).
Proof.
  intros Hs H. unfold handleUseItem in H. pose proof (RollD6_range g).
  handler_inv H; repeat hp_step; try done.
  all: match goal with
       | Hs : hp_bounds ?s, Ht : GetCharacterByID ?s (Actor _) = Some (_, ?t) |- _ =>
           pose proof (GetCharacterByID_hp_ok _ _ _ _ Hs Ht) as Hok
       end; unfold hp_ok in *; simpl; try lia.
Qed.

Lemma handleFlee_hp_bounds st a g ev lg r :
  hp_bounds st -> handleFlee st a g ev lg = Ok r -> hp_bounds (Res_State r).
Proof.
  intros Hs H. unfold handleFlee in H. handler_inv H; repeat hp_step; done.
Qed.

Lemma find_ability_power st cid i c aid j ab :
  powers_ok st -> GetCharacterByID st cid = Some (i, c) ->
  list_find (fun x => Ability_ID x = aid) (Abilities c) = Some (j, ab) ->
  -1 <= Power ab.
Proof.
  intros Hp Hc%GetCharacterByID_elem (Hab & _)%list_find_Some.
  unfold powers_ok in Hp. rewrite Forall_forall in Hp.
  specialize (Hp _ Hc). rewrite Forall_forall in Hp.
  apply Hp. by eapply list_elem_of_lookup_2.
Qed.

Lemma handleAbility_hp_bounds st a g ev lg r :
  hp_bounds st -> powers_ok st ->
  handleAbility st a g ev lg = Ok r -> hp_bounds (Res_State r).
Proof.
  intros Hs Hp H. unfold handleAbility in H. pose proof (RollD6_range g).
  handler_inv H; try done.
  all: match goal with
       | Hs : hp_bounds ?s, Hp : powers_ok ?s,
         Hc : GetCharacterByID ?s (Actor _) = Some (_, ?c),
         Ha : list_find _ (Abilities ?c) = Some _ |- _ =>
           pose proof (find_ability_power _ _ _ _ _ _ _ Hp Hc Ha);
           pose proof (GetCharacterByID_hp_ok _ _ _ _ Hs Hc)
       end.
  all: repeat hp_step; try done.
  all: match goal with
       | Ht : GetCharacterByID (store ?s ?i ?c) _ = Some (_, ?t) |- hp_ok (set_HP ?t _) =>
           assert (hp_ok t)
             by (eapply (GetCharacterByID_hp_ok (store s i c)); [|exact Ht];
                 by apply store_hp_bounds)
       | _ => idtac
       end.
  all: unfold hp_ok in *; simpl in *; lia.
Qed.

End HPBounds.
Section Claims3.
Context {RS : RandSource} {MR : MapRange}.


(** The input that refutes C3 as stated does so whatever the dice show: the
    goblin ends above its maximum. *)
Lemma backfire_breaks_hp_bounds n :
  exists r, ApplyAction jinxed_arena (abilityAction "p1" "a3" "e1") n = Ok r
            /\ ~ hp_bounds (Res_State r).
Proof.
  rewrite ApplyAction_Ability by (try reflexivity; by eexists).
  pose proof (RollD6_range (NewSeededRNG n)) as Hd.
  unfold handleAbility. simpl.
  set (d := fst (RollD6 (NewSeededRNG n))) in *.
  rewrite lookup_empty. simpl.
  destruct (Z.eqb_spec (0 `max` (15 - (-100 + d))) 0) as [?|_]; [lia|].
  match goal with
  | |- context [advanceTurn ?st] => destruct (advanceTurn st) as [s'|p] eqn:E
  end.
  - apply advanceTurn_Ok in E as [Hc _]. simpl in Hc.
    simpl. eexists; split; [done|]. simpl. unfold hp_bounds. rewrite Hc.
    intros H. apply Forall_cons in H as [_ H]. apply Forall_cons in H as [H _].
    unfold hp_ok in H. simpl in H. lia.
  - apply advanceTurn_Panic in E as [E _]. done.
Qed.

End Claims3.


Section Claims4.
Context {RS : RandSource} {MR : MapRange}.

Lemma advanceTurn_GetCharacterByID s s' cid :
  advanceTurn s = Ok s' ->
  GetCharacterByID s' cid = prod_map id tick <$> GetCharacterByID s cid.
Proof.
  intros [Hc _]%advanceTurn_Ok. by apply GetCharacterByID_fmap.
Qed.


End Claims4.

Section Claims6.
Context {RS : RandSource} {MR : MapRange}.

(** *** The Turn Advancer never panics twice *)

Lemma advanceTurn_settled s s' : advanceTurn s = Ok s' -> settled s'.
Proof.
  intros H. destruct (ended s) eqn:He.
  - apply advanceTurn_ended in He as [w Hw]. rewrite Hw in H.
    injection H as <-. by left.
  - destruct (TurnOrder s) eqn:Ht.
    + destruct (advanceTurn s) eqn:E; [|done].
      unfold ended, advanceTurn, deepCopyState in *.
      destruct (countAlive _) as [p e].
      destruct (Z.eqb p 0); simpl in *; [done|].
      destruct (Z.eqb e 0); simpl in *; [done|].
      rewrite He, Ht in E. done.
    + rewrite advanceTurn_going in H; [|done|by rewrite Ht].
      injection H as <-. right. simpl. by rewrite Ht.
Qed.

Lemma settled_advanceTurn s : settled s -> exists s', advanceTurn s = Ok s'.
Proof.
  intros Hs. destruct (advanceTurn s) as [s'|p] eqn:E; [eauto|].
  apply advanceTurn_Panic in E as [Ht He]. destruct Hs as [Hc|Hn]; [|done].
  unfold ended in He. destruct (countAlive _) as [x y].
  rewrite Hc in He. by rewrite !orb_true_r in He.
Qed.

Lemma decay_max v (N : nat) :
  decay (Z.max 0 (v - Z.of_nat N)) = Z.max 0 (v - Z.of_nat (S N)).
Proof. unfold decay. case_bool_decide; lia. Qed.

(** Cooldowns of a character found by id, followed through [N] passes. *)
Lemma advanceTurns_cooldown (N : nat) : forall s cid i c k,
  settled s ->
  GetCharacterByID s cid = Some (i, c) ->
  exists sN cN,
    advanceTurns N s = Ok sN
    /\ GetCharacterByID sN cid = Some (i, cN)
    /\ map_get (AbilityCooldowns cN) k = Nat.iter N decay (map_get (AbilityCooldowns c) k).
Proof.
  induction N as [|N IH]; intros s cid i c k Hs Hc.
  - exists s, c. done.
  - destruct (settled_advanceTurn s Hs) as [s' E].
    assert (Hc' : GetCharacterByID s' cid = Some (i, tick c))
      by (by rewrite (advanceTurn_GetCharacterByID _ _ _ E), Hc).
    destruct (IH s' cid i (tick c) k (advanceTurn_settled _ _ E) Hc')
      as (sN & cN & HN & HcN & Hv).
    exists sN, cN. split_and!; [by simpl; rewrite E|done|].
    rewrite Hv, tick_AbilityCooldowns, map_get_decayAll.
    by rewrite Nat.iter_succ_r.
Qed.

Lemma iter_decay (N : nat) v :
  0 <= v -> Nat.iter N decay v = Z.max 0 (v - Z.of_nat N).
Proof.
  intros Hv. induction N as [|N IH].
  - simpl. lia.
  - rewrite Nat.iter_succ, IH. apply decay_max.
Qed.

(** *** Using an ability *)

Lemma GetCharacterByID_store_keeps s cid i c j x y :
  GetCharacterByID s cid = Some (i, c) ->
  GetCharacterByID s (Char_ID x) = Some (j, x) ->
  Char_ID y = Char_ID x -> AbilityCooldowns y = AbilityCooldowns x ->
  exists c', GetCharacterByID (store s j y) cid = Some (i, c')
             /\ AbilityCooldowns c' = AbilityCooldowns c.
Proof.
  intros Hc Hx Hid Hcd.
  pose proof (GetCharacterByID_Some _ _ _ _ Hx) as [Hj _].
  pose proof (GetCharacterByID_Some _ _ _ _ Hc) as [Hi _].
  rewrite (GetCharacterByID_store s j x y cid Hj Hid), Hc. simpl.
  case_decide; subst; [|eauto]. exists y. split; [done|]. congruence.
Qed.

(** The state a handler hands to the Turn Advancer after a successful use:
    the actor's entry for the ability holds [ability.cooldown]. *)
Lemma handleAbility_sets_cooldown st a g ev lg ci character ai ability r :
  GetCharacterByID st (Actor a) = Some (ci, character) ->
  list_find (fun ab => Ability_ID ab = Action_Ability a) (Abilities character)
    = Some (ai, ability) ->
  map_get (AbilityCooldowns character) (Ability_ID ability) <= 0 ->
  handleAbility st a g ev lg = Ok r ->
  exists st' c',
    advanceTurn st' = Ok (Res_State r)
    /\ GetCharacterByID st' (Actor a) = Some (ci, c')
    /\ map_get (AbilityCooldowns c') (Ability_ID ability) = Cooldown ability.
Proof.
  intros Hc Ha Hcd H. unfold handleAbility in H. rewrite Hc, Ha in H.
  rewrite bool_decide_false in H by lia.
  destruct (AbilityCooldowns character) as [m|] eqn:Hm; [|done]. simpl in H.
  set (c1 := set_AbilityCooldowns character _) in H.
  assert (H1 : GetCharacterByID (store st ci c1) (Actor a) = Some (ci, c1))
    by (by apply GetCharacterByID_store_same with (c := character)).
  assert (Hv : map_get (AbilityCooldowns c1) (Ability_ID ability) = Cooldown ability)
    by (simpl; by rewrite lookup_insert_eq).
  handler_inv H.
  all: try (eexists _, _; split_and!; [eassumption|eassumption|done]).
  - (* damage, lethal *)
    match goal with
    | Ht : GetCharacterByID (store st ci c1) (Target a) = Some (?ti, ?t) |- _ =>
        pose proof (GetCharacterByID_Some _ _ _ _ Ht) as [_ Hid];
        rewrite <- Hid in Ht;
        edestruct (GetCharacterByID_store_keeps _ _ _ _ ti t
                     (set_HP t (0 `max` (HP (Stats t) - (Power ability + (RollD6 g).1))))
                     H1 Ht eq_refl eq_refl) as (c' & Hc' & Hcd')
    end.
    eexists _, c'. split_and!; [eassumption|done|by rewrite Hcd'].
  - (* damage *)
    match goal with
    | Ht : GetCharacterByID (store st ci c1) (Target a) = Some (?ti, ?t) |- _ =>
        pose proof (GetCharacterByID_Some _ _ _ _ Ht) as [_ Hid];
        rewrite <- Hid in Ht;
        edestruct (GetCharacterByID_store_keeps _ _ _ _ ti t
                     (set_HP t (0 `max` (HP (Stats t) - (Power ability + (RollD6 g).1))))
                     H1 Ht eq_refl eq_refl) as (c' & Hc' & Hcd')
    end.
    eexists _, c'. split_and!; [eassumption|done|by rewrite Hcd'].
  - (* heal *)
    eexists _, _. split_and!; [eassumption| |].
    + apply GetCharacterByID_store_same with (c := c1); done.
    + done.
Qed.


End Claims6.


Section Progress.
Context {RS : RandSource} {MR : MapRange}.

(** *** What a resolution does to the turn *)

Lemma advance_shape st st0 st' :
  advanceTurn st0 = Ok st' ->
  Round st0 = Round st -> TurnOrder st0 = TurnOrder st ->
  CurrentTurn st0 = CurrentTurn st -> IsComplete st0 = IsComplete st ->
  Winner st0 = Winner st ->
  shape st st'.
Proof.
  intros H ? ? ? ? ?. right. right. exists (Characters st0).
  destruct st0, st. simpl in *. by subst.
Qed.

Lemma handleAttack_shape st a g ev lg r :
  handleAttack st a g ev lg = Ok r -> shape st (Res_State r).
Proof.
  intros H. unfold handleAttack in H. handler_inv H;
    first [ by left | by eapply advance_shape ].
Qed.

Lemma handleDefend_shape st a g ev lg r :
  handleDefend st a g ev lg = Ok r -> shape st (Res_State r).
Proof.
  intros H. unfold handleDefend in H. handler_inv H;
    first [ by left | by eapply advance_shape ].
Qed.

Lemma handleAbility_shape st a g ev lg r :
  handleAbility st a g ev lg = Ok r -> shape st (Res_State r).
Proof.
  intros H. unfold handleAbility in H. handler_inv H;
    first [ by left | by eapply advance_shape ].
Qed.

Lemma handleUseItem_shape st a g ev lg r :
  handleUseItem st a g ev lg = Ok r -> shape st (Res_State r).
Proof.
  intros H. unfold handleUseItem in H. handler_inv H;
    first [ by left | by eapply advance_shape ].
Qed.

Lemma handleFlee_shape st a g ev lg r :
  handleFlee st a g ev lg = Ok r -> shape st (Res_State r).
Proof.
  intros H. unfold handleFlee in H. handler_inv H;
    first [ by left | by (right; left) | by eapply advance_shape ].
Qed.

Lemma ApplyAction_shape s a n r :
  ApplyAction s a n = Ok r -> shape s (Res_State r).
Proof.
  intros H.
  destruct (ApplyAction_cases s a n) as [E|[E|[E|[E|[E|[E|E]]]]]];
    rewrite E in H.
  - simplify_eq. by left.
  - simplify_eq. by left.
  - by eapply handleAttack_shape.
  - by eapply handleDefend_shape.
  - by eapply handleAbility_shape.
  - by eapply handleUseItem_shape.
  - by eapply handleFlee_shape.
Qed.

(** One resolution, seen from the turn counter. *)
Lemma ApplyAction_step s a n r :
  IsComplete s = false ->
  0 <= CurrentTurn s < Z.of_nat (length (TurnOrder s)) ->
  ApplyAction s a n = Ok r ->
  let s' := Res_State r in
  TurnOrder s' = TurnOrder s
  /\ (s' = s
      \/ (IsComplete s' = true /\ Round s' = Round s)
      \/ (IsComplete s' = false
          /\ turnsTaken s' = turnsTaken s + 1
          /\ 0 <= CurrentTurn s' < Z.of_nat (length (TurnOrder s))
          /\ Round s <= Round s' <= Round s + 1)).
Proof.
  intros Hc Hct H. apply ApplyAction_shape in H. cbv zeta.
  destruct H as [->|[->|[cs H]]]; [by auto|by auto|].
  set (st := set_Characters s cs) in *.
  destruct (ended st) eqn:He.
  - apply advanceTurn_ended in He as [w Hw]. rewrite Hw in H.
    injection H as <-. simpl. auto.
  - assert (Hne : TurnOrder st <> []).
    { simpl. intros E. rewrite E in Hct. simpl in Hct. lia. }
    rewrite advanceTurn_going in H by done. injection H as <-. simpl.
    split; [done|]. right. right. unfold turnsTaken. simpl.
    set (len := Z.of_nat (length (TurnOrder s))) in *.
    destruct (decide (CurrentTurn s + 1 = len)) as [E|E].
    + rewrite E, Z.rem_same by lia. simpl. lia.
    + rewrite Z.rem_small by lia.
      destruct (Z.eqb_spec (CurrentTurn s + 1) 0); lia.
Qed.

End Progress.
Section Bounded.
Context {RS : RandSource} {MR : MapRange}.

Lemma CheckCombatEnd_false s :
  CheckCombatEnd s = false -> IsComplete s = false /\ Round s < 20.
Proof.
  unfold CheckCombatEnd. intros [? H]%orb_false_elim.
  apply bool_decide_eq_false in H. split; [done|lia].
Qed.

Lemma drive_invariant policy seeds (fuel : nat) : forall s sk,
  Round s <= 20 ->
  (CheckCombatEnd s = false -> 0 <= CurrentTurn s < Z.of_nat (length (TurnOrder s))) ->
  drive policy seeds fuel s = Ok sk ->
  TurnOrder sk = TurnOrder s
  /\ Round sk <= 20
  /\ (CheckCombatEnd sk = false ->
      turnsTaken sk = turnsTaken s + Z.of_nat (changed policy seeds fuel s)
      /\ 0 <= CurrentTurn sk < Z.of_nat (length (TurnOrder s))).
Proof.
  induction fuel as [|fuel IH]; intros s sk Hr Hct H; simpl in *.
  - destruct (CheckCombatEnd s) eqn:E; simplify_eq;
      (split_and!; [done|done|]); intros E'; [congruence|].
    split; [lia|auto].
  - destruct (CheckCombatEnd s) eqn:E; simplify_eq.
    { split_and!; [done|done|]. intros E'. congruence. }
    specialize (Hct eq_refl).
    destruct (CheckCombatEnd_false _ E) as [Hc Hlt].
    destruct (ApplyAction s (policy s) (seeds fuel)) as [r|p] eqn:Ha; [|done].
    simpl in H.
    destruct (ApplyAction_step _ _ _ _ Hc Hct Ha) as [Hto Hstep]. cbv zeta in *.
    destruct Hstep as [Hs|[[Hc' Hr']|(Hc' & Ht & Hct' & Hr')]].
    + rewrite Hs in *. rewrite decide_True by done.
      destruct (IH s sk) as (? & ? & ?); auto.
    + assert (CheckCombatEnd (Res_State r) = true) as E'
        by (unfold CheckCombatEnd; by rewrite Hc').
      destruct fuel; simpl in H; rewrite E' in H; simplify_eq;
        (split_and!; [done|lia|]); intros; congruence.
    + assert (Res_State r <> s) as Hne by (intros E'; rewrite E' in Ht; lia).
      rewrite decide_False by done.
      destruct (IH (Res_State r) sk) as (? & ? & Hk); [lia|by rewrite Hto|done|].
      split_and!; [congruence|done|]. intros E'.
      destruct (Hk E') as [? ?]. rewrite Hto in *. split; [lia|done].
Qed.


(** A resolver that keeps soft-failing keeps the loop where it is. *)
Lemma drive_stuck policy seeds s :
  (forall n, exists ev lg, ApplyAction s (policy s) n = Ok (mkResolution ev s lg)) ->
  forall fuel, drive policy seeds fuel s = Ok s.
Proof.
  intros Hs. induction fuel as [|fuel IH]; simpl.
  - by destruct (CheckCombatEnd s).
  - destruct (CheckCombatEnd s); [done|].
    destruct (Hs (seeds fuel)) as (ev & lg & ->). simpl. exact IH.
Qed.

End Bounded.

Section Stuck.
Context {RS : RandSource} {MR : MapRange}.

(** The counterexample to C8 does not depend on the dice or on the seeds:
    whatever the d6 shows, the goblin survives the first Fireball (15 hit
    points against at most 14), the turn passes to it, and every further
    cast by the hero finds Fireball on cooldown. *)
Lemma always_fireball_never_ends seeds fuel :
  exists sk, drive always_fireball seeds fuel arena = Ok sk
             /\ CheckCombatEnd sk = false.
Proof.
  destruct fuel as [|fuel]; [by exists arena|].
  cbn [drive]. replace (CheckCombatEnd arena) with false by reflexivity.
  unfold always_fireball at 1.
  rewrite ApplyAction_Ability by (try reflexivity; by eexists).
  pose proof (RollD6_range (NewSeededRNG (seeds fuel))) as Hd.
  unfold handleAbility. simpl.
  set (d := fst (RollD6 (NewSeededRNG (seeds fuel)))) in *.
  rewrite lookup_empty. simpl.
  destruct (Z.eqb_spec (0 `max` (15 - (8 + d))) 0) as [?|_]; [lia|].
  set (st := store _ _ _).
  assert (He : ended st = false).
  { unfold ended, countAlive. simpl.
    rewrite bool_decide_true by lia. done. }
  rewrite (advanceTurn_going st He) by done.
  cbn [bind TurnOrder CurrentTurn Round Winner Characters Res_State st store
       set_Characters arena length Z.of_nat].
  set (s1 := mkState _ _ _ _ _ _).
  exists s1. split; [|done].
  apply drive_stuck. intros n. eexists _, _.
  set (hero1 := set_AbilityCooldowns hero (Some (<["a1" := 3]> ∅))).
  apply (handleAbility_on_cooldown s1 (abilityAction "p1" "a1" "e1") n 0%nat
           (tick hero1) 0%nat fireball).
  - reflexivity.
  - reflexivity.
  - reflexivity.
  - rewrite tick_AbilityCooldowns, map_get_decayAll. simpl.
    rewrite lookup_insert_eq. done.
Qed.

End Stuck.


(** *** A side effect of removing an item in place

    [handleUseItem] keeps a pointer to the item it found and reads it again
    after [append] has shifted the rest of the inventory over it.  With the
    potion in front of the rock, using the potion is reported as using the
    rock, and nobody is healed.  ([MemRefine.ApplyAction_refines] below
    derives this reading from the in-place [append] on the store.) *)
Example use_potion_reports_rock :
  match @ApplyAction Lcg KeyOrder arena (useItemAction "p1" "i1") 3 with
  | Ok r => Events r = [itemUsedEvent "p1" "i2"]
            /\ Logs r = ["Actor bypass: Direct mutation used"]
  | Panic _ => False
  end.
Proof. vm_compute. done. Qed.

(** * The store a call leaves behind *)

Module MemFacts.
Import Mem.

(** *** Writes above [base] leave the store below [base] alone *)

Lemma take_write_char base l i c h :
  (base <= l)%nat -> take base (write_char l i c h) = take base h.
Proof.
  intros Hl. unfold write_char. destruct (h !! l) as [[cs| |]|]; try done.
  by apply take_insert_ge.
Qed.

Lemma take_update_map base l f h :
  (base <= l)%nat -> take base (update_map l f h) = take base h.
Proof.
  intros Hl. unfold update_map. destruct (h !! l) as [[| |m]|]; try done.
  by apply take_insert_ge.
Qed.

Lemma take_write_array base l a h :
  (base <= l)%nat -> take base (write_array l a h) = take base h.
Proof.
  intros Hl. unfold write_array. destruct (h !! l) as [[| |]|]; try done.
  by apply take_insert_ge.
Qed.

Lemma length_write_char l i c h : length (write_char l i c h) = length h.
Proof.
  unfold write_char. destruct (h !! l) as [[cs| |]|]; try done.
  apply length_insert.
Qed.

Lemma length_update_map l f h : length (update_map l f h) = length h.
Proof.
  unfold update_map. destruct (h !! l) as [[| |m]|]; try done.
  apply length_insert.
Qed.

Lemma length_write_array l a h : length (write_array l a h) = length h.
Proof.
  unfold write_array. destruct (h !! l) as [[| |]|]; try done.
  apply length_insert.
Qed.

(** *** The characters array after a write *)

Lemma chars_at_write_char l l' i c h :
  chars_at (write_char l' i c h) l
  = if decide (l = l') then <[i := c]> (chars_at h l) else chars_at h l.
Proof.
  unfold write_char, chars_at.
  destruct (h !! l') as [[cs| |]|] eqn:E; case_decide; subst; rewrite ?E; try done.
  - rewrite list_lookup_insert_eq by (by eapply lookup_lt_Some). done.
  - by rewrite list_lookup_insert_ne.
Qed.

Lemma chars_at_update_map l l' f h :
  chars_at (update_map l' f h) l = chars_at h l.
Proof.
  unfold update_map, chars_at.
  destruct (h !! l') as [[| |m]|] eqn:E; try done.
  destruct (decide (l = l')) as [->|Hne].
  - rewrite list_lookup_insert_eq by (by eapply lookup_lt_Some). by rewrite E.
  - by rewrite list_lookup_insert_ne.
Qed.

Lemma owned_write_char base l i c h :
  owned base h l -> cell_owned base c -> owned base (write_char l i c h) l.
Proof.
  intros [Hl Hcs] Hc. split; [done|].
  rewrite chars_at_write_char, decide_True by done. by apply Forall_insert.
Qed.

Lemma owned_update_map base l l' f h :
  owned base h l -> owned base (update_map l' f h) l.
Proof. intros [Hl Hcs]. split; [done|]. by rewrite chars_at_update_map. Qed.

Lemma owned_lookup base h l i c :
  owned base h l -> chars_at h l !! i = Some c -> cell_owned base c.
Proof. intros [_ Hcs] Hi. by eapply Forall_lookup_1. Qed.

(** *** Encoding allocates, and owns what it allocates *)

Lemma encode_char_spec c h h' c' :
  encode_char c h = (h', c') ->
  (exists fresh, h' = h ++ fresh) /\ cell_owned (length h) c'.
Proof.
  unfold encode_char, alloc. intros H.
  destruct (AbilityCooldowns c) as [m|]; simplify_eq.
  - split.
    + exists [ItemArray (Items c); CooldownMap m]. by rewrite <- app_assoc.
    + split; simpl; [done|]. intros l [= <-]. rewrite length_app. lia.
  - split; [eauto|]. split; simpl; [done|]. done.
Qed.

Lemma cell_owned_mono base base' c :
  (base <= base')%nat -> cell_owned base' c -> cell_owned base c.
Proof.
  intros Hle [Hi Hm]. split; [lia|]. intros l Hl. specialize (Hm l Hl). lia.
Qed.

Lemma encode_chars_spec cs : forall h h' cs',
  encode_chars cs h = (h', cs') ->
  (exists fresh, h' = h ++ fresh) /\ Forall (cell_owned (length h)) cs'.
Proof.
  induction cs as [|c cs IH]; intros h h' cs' H; simpl in H.
  - simplify_eq. split; [exists []; by rewrite app_nil_r|done].
  - destruct (encode_char c h) as [h1 c1] eqn:E1.
    destruct (encode_chars cs h1) as [h2 cs2] eqn:E2. simplify_eq.
    apply encode_char_spec in E1 as [[f1 ->] Hc1].
    apply IH in E2 as [[f2 ->] Hcs2].
    split; [exists (f1 ++ f2); by rewrite app_assoc|].
    constructor; [done|].
    eapply Forall_impl; [exact Hcs2|]. intros c'. apply cell_owned_mono.
    rewrite length_app. lia.
Qed.

Lemma chars_at_alloc cs h : chars_at (h ++ [Chars cs]) (length h) = cs.
Proof.
  unfold chars_at. rewrite lookup_app_r by lia. by rewrite Nat.sub_diag.
Qed.

Lemma encode_spec s h h' s' :
  encode s h = (h', s') ->
  (exists fresh, h' = h ++ fresh) /\ owned (length h) h' (m_Characters s').
Proof.
  unfold encode, alloc. intros H.
  destruct (encode_chars (Characters s) h) as [h1 cs] eqn:E. simplify_eq.
  apply encode_chars_spec in E as [[f ->] Hcs]. simpl.
  split; [exists (f ++ [Chars cs]); by rewrite app_assoc|].
  split; [rewrite length_app; lia|]. by rewrite chars_at_alloc.
Qed.

Lemma deepCopyState_spec state h h' s' :
  deepCopyState state h = (h', s') ->
  (exists fresh, h' = h ++ fresh) /\ owned (length h) h' (m_Characters s').
Proof. apply encode_spec. Qed.

Section Frame.
Context {RS : RandSource} {MR : MapRange}.

Lemma tick_at_kept base h0 l h i :
  kept base h0 h l -> kept base h0 (tick_at l h i) l.
Proof.
  intros (Ht & Hlen & Ho). unfold tick_at.
  destruct (chars_at h l !! i) as [c|] eqn:Hc; [|done].
  pose proof (owned_lookup _ _ _ _ _ Ho Hc) as [Hi Hm].
  destruct Ho as [Hl Hcs].
  destruct (m_AbilityCooldowns c) as [ml|] eqn:Hml.
  - specialize (Hm ml eq_refl). split_and!.
    + by rewrite take_write_char, take_update_map.
    + by rewrite length_write_char, length_update_map.
    + apply owned_write_char; [by apply owned_update_map|].
      split; simpl; [done|]. rewrite Hml. by intros ? [= <-].
  - split_and!.
    + by rewrite take_write_char.
    + by rewrite length_write_char.
    + apply owned_write_char; [done|]. split; simpl; [done|]. by rewrite Hml.
Qed.

Lemma foldl_tick_at_kept base h0 l (ixs : list nat) : forall h,
  kept base h0 h l -> kept base h0 (foldl (tick_at l) h ixs) l.
Proof.
  induction ixs as [|i ixs IH]; intros h Hk; simpl; [done|].
  apply IH. by apply tick_at_kept.
Qed.

(** The Turn Advancer works on a copy of its own. *)
Lemma advanceTurn_frame state h :
  exists fresh, fst (advanceTurn state h) = h ++ fresh.
Proof.
  unfold advanceTurn.
  destruct (deepCopyState state h) as [h1 s1] eqn:E.
  apply deepCopyState_spec in E as [[f ->] Ho].
  set (h2 := foldl _ _ _).
  assert (Hk : kept (length h) (h ++ f) h2 (m_Characters s1)).
  { apply foldl_tick_at_kept. split_and!; [done|done|done]. }
  destruct Hk as (Ht & Hlen & _).
  assert (Hh2 : exists fresh, h2 = h ++ fresh).
  { exists (drop (length h) h2). rewrite <- (take_drop (length h) h2) at 1.
    f_equal. rewrite Ht. by rewrite take_app_length. }
  repeat case_match; simpl; done.
Qed.

Lemma finish_frame base events logs state h :
  (base <= length h)%nat ->
  take base (fst (finish events logs state h)) = take base h.
Proof.
  intros Hb. unfold finish.
  destruct (advanceTurn_frame state h) as [f Hf].
  destruct (advanceTurn state h) as [h' r]. simpl in *. subst.
  by rewrite take_app_le.
Qed.


Lemma GetCharacterByID_owned base h state cid i c :
  owned base h (m_Characters state) ->
  GetCharacterByID h state cid = Some (i, c) -> cell_owned base c.
Proof.
  intros Ho (Hi & _)%list_find_Some. by eapply owned_lookup.
Qed.

Ltac frame_side :=
  rewrite ?length_write_char, ?length_update_map, ?length_write_array; done.

Ltac frame_learn base :=
  repeat match goal with
    | Ho : owned base ?h (m_Characters ?s),
      H : GetCharacterByID ?h ?s _ = Some (_, ?c) |- _ =>
        lazymatch goal with
        | _ : cell_owned base c |- _ => fail
        | _ => pose proof (GetCharacterByID_owned _ _ _ _ _ _ Ho H)
        end
    end.

Ltac frame_solve :=
  repeat first
    [ done
    | rewrite finish_frame by frame_side
    | rewrite take_write_char by done
    | rewrite take_update_map by done
    | rewrite take_write_array by done ].

Lemma handleAttack_frame base state a g ev lg h :
  owned base h (m_Characters state) -> (base <= length h)%nat ->
  take base (fst (handleAttack state a g ev lg h)) = take base h.
Proof.
  intros Ho Hb. pose proof Ho as [Hl _]. unfold handleAttack.
  repeat case_match; simplify_eq/=; frame_solve.
Qed.

Lemma handleDefend_frame base state a g ev lg h :
  owned base h (m_Characters state) -> (base <= length h)%nat ->
  take base (fst (handleDefend state a g ev lg h)) = take base h.
Proof.
  intros Ho Hb. pose proof Ho as [Hl _]. unfold handleDefend.
  repeat case_match; simplify_eq/=; frame_solve.
Qed.

Lemma handleFlee_frame base state a g ev lg h :
  owned base h (m_Characters state) -> (base <= length h)%nat ->
  take base (fst (handleFlee state a g ev lg h)) = take base h.
Proof.
  intros Ho Hb. pose proof Ho as [Hl _]. unfold handleFlee.
  repeat case_match; simplify_eq/=; frame_solve.
Qed.

Lemma handleAbility_frame base state a g ev lg h :
  owned base h (m_Characters state) -> (base <= length h)%nat ->
  take base (fst (handleAbility state a g ev lg h)) = take base h.
Proof.
  intros Ho Hb. pose proof Ho as [Hl _]. unfold handleAbility.
  repeat case_match; simplify_eq/=; try done; frame_learn base.
  all: match goal with
       | Hc : cell_owned _ ?c, E : m_AbilityCooldowns ?c = Some ?ml |- _ =>
           pose proof (proj2 Hc ml E)
       end.
  all: frame_solve.
Qed.

Lemma handleUseItem_frame base state a g ev lg h :
  owned base h (m_Characters state) -> (base <= length h)%nat ->
  take base (fst (handleUseItem state a g ev lg h)) = take base h.
Proof.
  intros Ho Hb. pose proof Ho as [Hl _]. unfold handleUseItem.
  repeat case_match; simplify_eq/=; try done; frame_learn base.
  all: match goal with
       | Hc : cell_owned _ ?c, E : m_Items ?c = (?il, _) |- _ =>
           pose proof (proj1 Hc) as Hil; rewrite E in Hil; simpl in Hil
       end.
  all: frame_solve.
Qed.

(** Everything a call writes, it writes to objects made after the call
    began: the store it was given is a prefix of the store it leaves. *)
Lemma ApplyAction_frame state action seed h :
  exists fresh, fst (ApplyAction state action seed h) = h ++ fresh.
Proof.
  set (h' := fst (ApplyAction state action seed h)).
  enough (Ht : take (length h) h' = h /\ (length h <= length h')%nat).
  { exists (drop (length h) h'). rewrite <- (take_drop (length h) h') at 1.
    by rewrite (proj1 Ht). }
  subst h'. unfold ApplyAction.
  destruct (deepCopyState state h) as [h1 s1] eqn:E.
  apply deepCopyState_spec in E as [[f ->] Ho].
  assert (Hb : (length h <= length (h ++ f))%nat) by (rewrite length_app; lia).
  assert (H0 : take (length h) (h ++ f) = h) by (by rewrite take_app_length).
  assert (Hlen : forall x : heap * result ResolutionM,
             take (length h) (fst x) = take (length h) (h ++ f) ->
             take (length h) (fst x) = h /\ (length h <= length (fst x))%nat).
  { intros x Hx. rewrite Hx, H0. split; [done|].
    apply (f_equal length) in Hx. rewrite H0, length_take in Hx. lia. }
  repeat case_match; simpl; try (split; [done|lia]); apply Hlen.
  - by apply handleAttack_frame.
  - by apply handleDefend_frame.
  - by apply handleAbility_frame.
  - by apply handleUseItem_frame.
  - by apply handleFlee_frame.
Qed.

End Frame.

(** *** What a retained state denotes *)

Lemma decode_app h fresh s :
  valid h s -> decode (h ++ fresh) s = decode h s.
Proof.
  intros [Hl Hcs]. unfold decode.
  assert (Hc : chars_at (h ++ fresh) (m_Characters s) = chars_at h (m_Characters s))
    by (unfold chars_at; by rewrite lookup_app_l).
  rewrite Hc. f_equal. apply Forall_fmap_ext_1.
  eapply Forall_impl; [exact Hcs|]. intros c [Hi Hm]. unfold decode_char. f_equal.
  - unfold items_at, array_at. by rewrite lookup_app_l.
  - unfold map_at. destruct (m_AbilityCooldowns c) as [l|]; [|done].
    by rewrite lookup_app_l by done.
Qed.

Section Claim9.
Context {RS : RandSource} {MR : MapRange}.

(** C9.  [ApplyAction] never mutates its input: the store after the call is
    the store before it followed by freshly allocated objects only (every
    handler writes to a deep copy), so the input state, and any state value
    the caller retained from earlier calls, denotes after the call exactly
    what it denoted before. *)
Theorem ApplyAction_preserves_input state action seed h :
  valid h state ->
  let h' := fst (ApplyAction state action seed h) in
  (exists fresh, h' = h ++ fresh)
  /\ decode h' state = decode h state
  /\ forall retained, valid h retained -> decode h' retained = decode h retained.
Proof.
  intros Hv. cbv zeta.
  destruct (ApplyAction_frame state action seed h) as [fresh ->].
  split_and!; [eauto|by apply decode_app|]. intros. by apply decode_app.
Qed.

End Claim9.
End MemFacts.

(** * The resolver on the store refines the resolver on values *)

Module MemRefine.

(** The resolver on values, under names that stay apart from those of the
    resolver on the store. *)
Abbreviation val_GetCharacterByID := GetCharacterByID.
Abbreviation val_advanceTurn := advanceTurn.
Abbreviation val_handleAttack := handleAttack.
Abbreviation val_handleDefend := handleDefend.
Abbreviation val_handleAbility := handleAbility.
Abbreviation val_handleUseItem := handleUseItem.
Abbreviation val_handleFlee := handleFlee.
Abbreviation val_ApplyAction := ApplyAction.
Abbreviation val_deepCopyState := deepCopyState.

Import Mem MemFacts.

(** *** Reads after writes *)

Lemma array_at_write_char l i c h l' : array_at (write_char l i c h) l' = array_at h l'.
Proof.
  unfold write_char, array_at. destruct (h !! l) as [[cs| |]|] eqn:E; try done.
  destruct (decide (l' = l)) as [->|Hne].
  - rewrite list_lookup_insert_eq by (by eapply lookup_lt_Some). by rewrite E.
  - by rewrite list_lookup_insert_ne.
Qed.

Lemma map_at_write_char l i c h ml : map_at (write_char l i c h) ml = map_at h ml.
Proof.
  destruct ml as [l'|]; [|done].
  unfold write_char, map_at. destruct (h !! l) as [[cs| |]|] eqn:E; try done.
  destruct (decide (l' = l)) as [->|Hne].
  - rewrite list_lookup_insert_eq by (by eapply lookup_lt_Some). by rewrite E.
  - by rewrite list_lookup_insert_ne.
Qed.

Lemma decode_char_write_char l i c h c' :
  decode_char (write_char l i c h) c' = decode_char h c'.
Proof.
  unfold decode_char, items_at. by rewrite array_at_write_char, map_at_write_char.
Qed.

Lemma array_at_update_map l f h l' : array_at (update_map l f h) l' = array_at h l'.
Proof.
  unfold update_map, array_at. destruct (h !! l) as [[| |m]|] eqn:E; try done.
  destruct (decide (l' = l)) as [->|Hne].
  - rewrite list_lookup_insert_eq by (by eapply lookup_lt_Some). by rewrite E.
  - by rewrite list_lookup_insert_ne.
Qed.

Lemma map_at_update_map_eq l f h :
  map_at (update_map l f h) (Some l) = f <$> map_at h (Some l).
Proof.
  unfold update_map, map_at. destruct (h !! l) as [[| |m]|] eqn:E; rewrite ?E; try done.
  rewrite list_lookup_insert_eq by (by eapply lookup_lt_Some). done.
Qed.

Lemma map_at_update_map_ne l f h ml :
  ml <> Some l -> map_at (update_map l f h) ml = map_at h ml.
Proof.
  intros Hne. destruct ml as [l'|]; [|done].
  unfold update_map, map_at. destruct (h !! l) as [[| |m]|] eqn:E; try done.
  rewrite list_lookup_insert_ne by congruence. done.
Qed.

Lemma chars_at_write_array l a h l' : chars_at (write_array l a h) l' = chars_at h l'.
Proof.
  unfold write_array, chars_at. destruct (h !! l) as [[| |]|] eqn:E; try done.
  destruct (decide (l' = l)) as [->|Hne].
  - rewrite list_lookup_insert_eq by (by eapply lookup_lt_Some). by rewrite E.
  - by rewrite list_lookup_insert_ne.
Qed.

Lemma map_at_write_array l a h ml : map_at (write_array l a h) ml = map_at h ml.
Proof.
  destruct ml as [l'|]; [|done].
  unfold write_array, map_at. destruct (h !! l) as [[| |]|] eqn:E; try done.
  destruct (decide (l' = l)) as [->|Hne].
  - rewrite list_lookup_insert_eq by (by eapply lookup_lt_Some). by rewrite E.
  - by rewrite list_lookup_insert_ne.
Qed.

Lemma array_at_write_array_ne l a h l' :
  l' <> l -> array_at (write_array l a h) l' = array_at h l'.
Proof.
  intros Hne. unfold write_array, array_at.
  destruct (h !! l) as [[| |]|] eqn:E; try done.
  by rewrite list_lookup_insert_ne.
Qed.

Lemma array_at_write_array_eq l a h a0 :
  h !! l = Some (ItemArray a0) -> array_at (write_array l a h) l = a.
Proof.
  intros E. unfold write_array, array_at. rewrite E.
  rewrite list_lookup_insert_eq by (by eapply lookup_lt_Some). done.
Qed.

(** *** Cells that share nothing *)

Lemma separated_insert cs i c c' :
  separated cs -> cs !! i = Some c -> same_refs c c' -> separated (<[i := c']> cs).
Proof.
  intros Hs Hi [Hit Hm] j k x y Hj Hk Hjk.
  apply list_lookup_insert_Some in Hj as [(-> & -> & _)|[Hne Hj]];
    apply list_lookup_insert_Some in Hk as [(-> & -> & _)|[Hne' Hk]]; try done.
  - rewrite <- Hit, <- Hm. by eapply Hs.
  - rewrite <- Hit, <- Hm. by eapply Hs.
  - by eapply Hs.
Qed.

(** *** Encoding: bounds, separation, round trip *)

Lemma cell_within_mono lo hi lo' hi' c :
  (lo' <= lo)%nat -> (hi <= hi')%nat -> cell_within lo hi c -> cell_within lo' hi' c.
Proof.
  intros ? ? [Hi Hm]. split; [lia|]. intros l Hl. specialize (Hm l Hl). lia.
Qed.

Lemma cell_within_valid lo h c : cell_within lo (length h) c -> cell_valid h c.
Proof.
  intros [Hi Hm]. split; [lia|]. destruct (m_AbilityCooldowns c) as [l|]; [|done].
  specialize (Hm l eq_refl). lia.
Qed.

Lemma decode_char_app h fresh c :
  cell_valid h c -> decode_char (h ++ fresh) c = decode_char h c.
Proof.
  intros [Hi Hm]. unfold decode_char. f_equal.
  - unfold items_at, array_at. by rewrite lookup_app_l.
  - unfold map_at. destruct (m_AbilityCooldowns c) as [l|]; [|done].
    by rewrite lookup_app_l.
Qed.

Lemma encode_char_within c h h' c' :
  encode_char c h = (h', c') ->
  (length h < length h')%nat /\ cell_within (length h) (length h') c'
  /\ decode_char h' c' = c.
Proof.
  unfold encode_char, alloc. intros H.
  destruct c as [cid nm st ps ws abs its cds pl].
  destruct cds as [m|]; simplify_eq/=; split_and!.
  - rewrite !length_app. simpl. lia.
  - split; simpl; [rewrite !length_app; simpl; lia|].
    intros l [= <-]. rewrite !length_app. simpl. lia.
  - unfold decode_char, items_at, array_at, map_at. simpl.
    rewrite (list_lookup_middle (h ++ [ItemArray its]) [] _ _ eq_refl).
    rewrite <- app_assoc. simpl.
    rewrite (list_lookup_middle h _ _ _ eq_refl).
    by rewrite firstn_all.
  - rewrite !length_app. simpl. lia.
  - split; simpl; [rewrite !length_app; simpl; lia|]. done.
  - unfold decode_char, items_at, array_at, map_at. simpl.
    rewrite (list_lookup_middle h [] _ _ eq_refl).
    by rewrite firstn_all.
Qed.

Lemma encode_chars_within cs : forall h h' cs',
  encode_chars cs h = (h', cs') ->
  (length h <= length h')%nat
  /\ Forall (cell_within (length h) (length h')) cs'
  /\ separated cs'
  /\ decode_char h' <$> cs' = cs.
Proof.
  induction cs as [|c cs IH]; intros h h' cs' H; simpl in H.
  - simplify_eq. split_and!; [done|done| |done].
    intros i j c c' Hi. by rewrite lookup_nil in Hi.
  - destruct (encode_char c h) as [h1 c1] eqn:E1.
    destruct (encode_chars cs h1) as [h2 cs2] eqn:E2. simplify_eq.
    pose proof (encode_chars_spec _ _ _ _ E2) as [[f2 Hf2] _].
    apply encode_char_within in E1 as (Hlt & Hw1 & Hd1).
    apply IH in E2 as (Hle & Hw2 & Hs2 & Hd2).
    split_and!.
    + lia.
    + constructor.
      * eapply cell_within_mono; [| |exact Hw1]; lia.
      * eapply Forall_impl; [exact Hw2|]. intros x.
        apply cell_within_mono; lia.
    + intros i j x y Hi Hj Hij.
      destruct i as [|i], j as [|j]; simplify_eq/=.
      * pose proof (Forall_lookup_1 _ _ _ _ Hw2 Hj) as [Hyi Hym].
        destruct Hw1 as [Hxi Hxm]. split; [lia|].
        intros l Hl Hl'. specialize (Hxm l Hl). specialize (Hym l Hl'). lia.
      * pose proof (Forall_lookup_1 _ _ _ _ Hw2 Hi) as [Hxi Hxm].
        destruct Hw1 as [Hyi Hym]. split; [lia|].
        intros l Hl Hl'. specialize (Hxm l Hl). specialize (Hym l Hl'). lia.
      * eapply Hs2; eauto.
    + simpl. f_equal; [|done]. subst h'.
      rewrite decode_char_app; [done|]. by eapply cell_within_valid.
Qed.

Lemma encode_decode s h h' s' :
  encode s h = (h', s') ->
  decode h' s' = s
  /\ separated (chars_at h' (m_Characters s'))
  /\ valid h' s'.
Proof.
  unfold encode, alloc. intros H.
  destruct (encode_chars (Characters s) h) as [h1 cs] eqn:E. simplify_eq.
  apply encode_chars_within in E as (Hle & Hw & Hs & Hd).
  unfold decode. simpl. rewrite chars_at_alloc.
  assert (Hv : Forall (cell_valid (h1 ++ [Chars cs])) cs).
  { eapply Forall_impl; [exact Hw|]. intros c Hc.
    apply cell_within_valid with (lo := length h).
    eapply cell_within_mono; [| |exact Hc]; [lia|]. rewrite length_app. lia. }
  split_and!.
  - destruct s. simpl in *. f_equal. rewrite <- Hd.
    apply Forall_fmap_ext_1. eapply Forall_impl; [exact Hw|].
    intros c Hc. apply decode_char_app. by eapply cell_within_valid.
  - done.
  - split; simpl; [rewrite length_app; simpl; lia|]. by rewrite chars_at_alloc.
Qed.


#[local] Arguments map_at : simpl never.
#[local] Arguments array_at : simpl never.
#[local] Arguments chars_at : simpl never.
#[local] Arguments update_map : simpl never.
#[local] Arguments write_char : simpl never.
#[local] Arguments write_array : simpl never.

Section Refine.
Context {RS : RandSource} {MR : MapRange}.

(** *** The Turn Advancer *)

Lemma countAlive_decode h cs : countAlive (decode_char h <$> cs) = countAliveM cs.
Proof.
  unfold countAlive, countAliveM. generalize (0, 0).
  induction cs as [|c cs IH]; intros [p e]; simpl; [done|].
  rewrite IH. done.
Qed.

Lemma tick_at_unfold l h i c :
  chars_at h l !! i = Some c ->
  tick_at l h i
  = write_char l i (setm_Defense c (resetDefense (Defense (m_Stats c))))
      (decay_in_place c h).
Proof. intros E. unfold tick_at, decay_in_place. by rewrite E. Qed.

Lemma decode_char_decay_own h c :
  decode_char (decay_in_place c h)
    (setm_Defense c (resetDefense (Defense (m_Stats c))))
  = tick (decode_char h c).
Proof.
  unfold decode_char, tick, decay_in_place, items_at, decayCooldowns. simpl.
  destruct (m_AbilityCooldowns c) as [ml|] eqn:E; simpl; [|done].
  rewrite array_at_update_map, map_at_update_map_eq.
  by destruct (map_at h (Some ml)).
Qed.

Lemma decode_char_decay_other h c c' :
  (forall l, m_AbilityCooldowns c = Some l -> m_AbilityCooldowns c' <> Some l) ->
  decode_char (decay_in_place c h) c' = decode_char h c'.
Proof.
  intros Hne. unfold decode_char, decay_in_place, items_at.
  destruct (m_AbilityCooldowns c) as [ml|] eqn:E; [|done].
  rewrite array_at_update_map, map_at_update_map_ne by auto. done.
Qed.

Lemma chars_at_decay_in_place c h l : chars_at (decay_in_place c h) l = chars_at h l.
Proof.
  unfold decay_in_place. destruct (m_AbilityCooldowns c); [|done].
  apply chars_at_update_map.
Qed.

Lemma ticked_step h1 cs1 l k h :
  separated cs1 -> (k < length cs1)%nat ->
  ticked h1 cs1 l k h -> ticked h1 cs1 l (S k) (tick_at l h k).
Proof.
  intros Hsep Hk [Hlen Hpt].
  destruct (lookup_lt_is_Some_2 cs1 k Hk) as [ck Hck].
  destruct (Hpt k ck Hck) as (ck' & Hck' & [Hri Hrm] & Hdk).
  rewrite decide_False in Hdk by lia.
  rewrite (tick_at_unfold _ _ _ _ Hck').
  split.
  - rewrite chars_at_write_char, decide_True by done.
    by rewrite length_insert, chars_at_decay_in_place.
  - intros j c Hc. destruct (Hpt j c Hc) as (c' & Hc' & [Hi Hm] & Hd).
    rewrite chars_at_write_char, decide_True, chars_at_decay_in_place by done.
    destruct (decide (j = k)) as [->|Hne].
    + assert (c = ck) as -> by congruence.
      assert (c' = ck') as -> by congruence.
      eexists. split_and!.
      * apply list_lookup_insert_eq. rewrite Hlen. done.
      * split; simpl; congruence.
      * rewrite decode_char_write_char, decode_char_decay_own, Hdk.
        by rewrite decide_True by lia.
    + exists c'. split_and!.
      * by rewrite list_lookup_insert_ne.
      * done.
      * rewrite decode_char_write_char, decode_char_decay_other, Hd.
        { repeat case_decide; try done; lia. }
        intros ml Hml. rewrite <- Hrm in Hml. rewrite <- Hm.
        by eapply (Hsep k j).
Qed.

Lemma ticked_loop h1 l (k : nat) :
  separated (chars_at h1 l) -> (k <= length (chars_at h1 l))%nat ->
  ticked h1 (chars_at h1 l) l k (foldl (tick_at l) h1 (seq 0 k)).
Proof.
  intros Hsep. induction k as [|k IH]; intros Hk.
  - split; [done|]. intros j c Hc. exists c. split_and!; done.
  - rewrite seq_S, foldl_app. simpl. apply ticked_step; [done|lia|]. apply IH. lia.
Qed.

Lemma ticked_all h1 l h :
  ticked h1 (chars_at h1 l) l (length (chars_at h1 l)) h ->
  decode_char h <$> chars_at h l = tick <$> (decode_char h1 <$> chars_at h1 l).
Proof.
  intros [Hlen Hpt]. apply list_eq. intros j.
  rewrite !list_lookup_fmap.
  destruct (chars_at h1 l !! j) as [c|] eqn:Hc; simpl.
  - destruct (Hpt j c Hc) as (c' & -> & _ & Hd). simpl. rewrite Hd.
    rewrite decide_True; [done|]. by eapply lookup_lt_Some.
  - apply lookup_ge_None in Hc. rewrite <- Hlen in Hc.
    apply lookup_ge_None in Hc. by rewrite Hc.
Qed.

(** The Turn Advancer on the store computes what the Turn Advancer on values
    computes from the value the state denotes. *)
Lemma advanceTurn_refines state h :
  match snd (Mem.advanceTurn state h) with
  | Ok s' => val_advanceTurn (decode h state)
             = Ok (decode (fst (Mem.advanceTurn state h)) s')
  | Panic p => val_advanceTurn (decode h state) = Panic p
  end.
Proof.
  unfold Mem.advanceTurn, Mem.deepCopyState.
  destruct (encode (decode h state) h) as [h1 s1] eqn:E.
  apply encode_decode in E as (Hd & Hsep & _).
  set (l := m_Characters s1) in *.
  set (h2 := foldl (tick_at l) h1 (seq 0 (length (chars_at h1 l)))).
  assert (Hch : decode_char h2 <$> chars_at h2 l = tick <$> Characters (decode h state)).
  { rewrite <- Hd. simpl. apply ticked_all. by apply ticked_loop. }
  unfold val_advanceTurn, val_deepCopyState.
  rewrite <- Hch, countAlive_decode.
  assert (Hf : Round (decode h state) = m_Round s1
               /\ TurnOrder (decode h state) = m_TurnOrder s1
               /\ CurrentTurn (decode h state) = m_CurrentTurn s1
               /\ IsComplete (decode h state) = m_IsComplete s1
               /\ Winner (decode h state) = m_Winner s1)
    by (by rewrite <- Hd).
  destruct Hf as (-> & -> & -> & -> & ->).
  destruct (countAliveM (chars_at h2 l)) as [p e].
  repeat case_match; simplify_eq/=; done.
Qed.


(** *** Handlers *)

Lemma finish_refines events logs state h :
  refines (finish events logs state h)
    (updatedState <- val_advanceTurn (decode h state) ;;
     Ok (mkResolution events updatedState logs)).
Proof.
  unfold refines, finish. pose proof (advanceTurn_refines state h) as H.
  destruct (Mem.advanceTurn state h) as [h' [s'|p]]; simpl in *; by rewrite H.
Qed.

Lemma finish_refines_at v events logs state h :
  decode h state = v ->
  refines (finish events logs state h)
    (updatedState <- val_advanceTurn v ;;
     Ok (mkResolution events updatedState logs)).
Proof. intros <-. apply finish_refines. Qed.

Lemma GetCharacterByID_decode h state cid :
  val_GetCharacterByID (decode h state) cid
  = prod_map id (decode_char h) <$> Mem.GetCharacterByID h state cid.
Proof.
  unfold val_GetCharacterByID, Mem.GetCharacterByID, decode. simpl.
  rewrite list_find_fmap. f_equal.
Qed.

Lemma decode_write_char h state i c :
  decode (write_char (m_Characters state) i c h) state
  = store (decode h state) i (decode_char h c).
Proof.
  unfold decode, store, set_Characters. simpl. f_equal.
  rewrite chars_at_write_char, decide_True by done.
  rewrite list_fmap_insert. rewrite decode_char_write_char. f_equal.
  apply list_fmap_ext. intros j x _. apply decode_char_write_char.
Qed.

Lemma soft_refines h state events logs :
  refines (h, Ok (mkResolutionM events state logs))
    (Ok (mkResolution events (decode h state) logs)).
Proof. done. Qed.

Lemma handleAttack_refines state a g ev lg h :
  refines (Mem.handleAttack state a g ev lg h)
    (val_handleAttack (decode h state) a g ev lg).
Proof.
  unfold Mem.handleAttack, val_handleAttack.
  rewrite !GetCharacterByID_decode.
  destruct (Mem.GetCharacterByID h state (Attacker a)) as [[ai attacker]|]; simpl; [|done].
  destruct (Mem.GetCharacterByID h state (Target a)) as [[ti target]|]; simpl; [|done].
  destruct (list_find _ (m_Weapons attacker)) as [[wi w]|];
    destruct (RollD20 g) as [attackRoll g1]; case_bool_decide;
    try destruct (RollD6 g1) as [damageRoll g2]; simpl;
    try match goal with |- context [Z.eqb ?x 0] => destruct (Z.eqb x 0) end;
    apply finish_refines_at; by rewrite ?decode_write_char.
Qed.

Lemma handleDefend_refines state a g ev lg h :
  refines (Mem.handleDefend state a g ev lg h)
    (val_handleDefend (decode h state) a g ev lg).
Proof.
  unfold Mem.handleDefend, val_handleDefend.
  rewrite !GetCharacterByID_decode.
  destruct (Mem.GetCharacterByID h state (Actor a)) as [[ci character]|]; simpl; [|done].
  apply finish_refines_at; by rewrite ?decode_write_char.
Qed.

Lemma handleFlee_refines state a g ev lg h :
  refines (Mem.handleFlee state a g ev lg h)
    (val_handleFlee (decode h state) a g ev lg).
Proof.
  unfold Mem.handleFlee, val_handleFlee.
  rewrite !GetCharacterByID_decode.
  destruct (Mem.GetCharacterByID h state (Actor a)) as [[ci character]|]; simpl; [|done].
  case_bool_decide; [done|]. apply finish_refines.
Qed.


(** *** Removing an item in place *)

Lemma remove_in_place_take (a : list Item) (n i : nat) :
  (i < length (take n a))%nat ->
  take (n - 1) (remove_in_place a n i) = delete i (take n a).
Proof.
  intros Hi. rewrite length_take in Hi. unfold remove_in_place.
  rewrite (delete_take_drop (take n a)).
  rewrite take_take, Nat.min_l by lia.
  rewrite app_assoc.
  assert (Hlen : length (take i a ++ drop (S i) (take n a)) = (Nat.min n (length a) - 1)%nat).
  { rewrite length_app, length_take, length_drop, length_take. lia. }
  rewrite take_app_ge by lia. rewrite Hlen.
  destruct (decide (n <= length a)%nat).
  - replace (n - 1 - (n `min` length a - 1))%nat with 0%nat by lia.
    by rewrite take_0, app_nil_r.
  - rewrite (drop_ge a (n - 1)) by lia. by rewrite take_nil, app_nil_r.
Qed.

Lemma remove_in_place_lookup (a : list Item) (n i : nat) item :
  take n a !! i = Some item ->
  default item (remove_in_place a n i !! i) = default item (take n a !! S i).
Proof.
  intros Hi. pose proof (lookup_lt_Some _ _ _ Hi) as Hlt.
  rewrite length_take in Hlt. unfold remove_in_place.
  rewrite lookup_app_r by (rewrite length_take; lia).
  rewrite length_take, Nat.min_l, Nat.sub_diag by lia.
  destruct (take n a !! S i) as [x|] eqn:Hx.
  - rewrite lookup_app_l.
    + by rewrite lookup_drop, Nat.add_0_r, Hx.
    + apply lookup_lt_Some in Hx. rewrite length_drop. lia.
  - apply lookup_ge_None in Hx. rewrite length_take in Hx.
    rewrite lookup_app_r by (rewrite length_drop, length_take; lia).
    rewrite length_drop, length_take.
    replace (0 - (n `min` length a - S i))%nat with 0%nat by lia.
    rewrite lookup_drop, Nat.add_0_r.
    destruct (decide (n <= length a)%nat).
    + rewrite lookup_take_lt in Hi by lia.
      replace (n - 1)%nat with i by lia. by rewrite Hi.
    + rewrite (lookup_ge_None_2 a (n - 1)) by lia. done.
Qed.

(** *** Writes that reach one cell only *)

Lemma GetCharacterByID_lookup h state cid i c :
  Mem.GetCharacterByID h state cid = Some (i, c) ->
  chars_at h (m_Characters state) !! i = Some c.
Proof. by intros (? & _)%list_find_Some. Qed.

Lemma decode_char_update_map_own h c ml f :
  m_AbilityCooldowns c = Some ml ->
  decode_char (update_map ml f h) c
  = set_AbilityCooldowns (decode_char h c) (f <$> map_at h (Some ml)).
Proof.
  intros E. unfold decode_char, set_AbilityCooldowns, items_at. simpl.
  by rewrite E, array_at_update_map, map_at_update_map_eq.
Qed.

Lemma decode_char_update_map_other h c ml f :
  m_AbilityCooldowns c <> Some ml ->
  decode_char (update_map ml f h) c = decode_char h c.
Proof.
  intros E. unfold decode_char, items_at.
  by rewrite array_at_update_map, map_at_update_map_ne.
Qed.

Lemma decode_update_map h state ci c ml f :
  separated (chars_at h (m_Characters state)) ->
  chars_at h (m_Characters state) !! ci = Some c ->
  m_AbilityCooldowns c = Some ml ->
  decode (update_map ml f h) state
  = store (decode h state) ci
      (set_AbilityCooldowns (decode_char h c) (f <$> map_at h (Some ml))).
Proof.
  intros Hsep Hc Hml. unfold decode, store, set_Characters. simpl. f_equal.
  rewrite chars_at_update_map. apply list_eq. intros j.
  rewrite list_lookup_fmap.
  destruct (decide (j = ci)) as [->|Hne].
  - rewrite list_lookup_insert_eq
      by (rewrite length_fmap; by eapply lookup_lt_Some).
    rewrite Hc. simpl. f_equal. by apply decode_char_update_map_own.
  - rewrite list_lookup_insert_ne by done. rewrite list_lookup_fmap.
    destruct (chars_at h (m_Characters state) !! j) as [c'|] eqn:Hc'; [|done].
    simpl. f_equal. apply decode_char_update_map_other.
    by eapply (Hsep ci j).
Qed.

Lemma decode_char_write_array_other h c il a :
  fst (m_Items c) <> il ->
  decode_char (write_array il a h) c = decode_char h c.
Proof.
  intros E. unfold decode_char, items_at.
  by rewrite array_at_write_array_ne, map_at_write_array.
Qed.

(** Replacing an item array and then the cell that owns it. *)
Lemma decode_write_array_char h state ci c c' a :
  separated (chars_at h (m_Characters state)) ->
  chars_at h (m_Characters state) !! ci = Some c ->
  decode (write_char (m_Characters state) ci c'
            (write_array (fst (m_Items c)) a h)) state
  = store (decode h state) ci
      (decode_char (write_array (fst (m_Items c)) a h) c').
Proof.
  intros Hsep Hc. rewrite decode_write_char.
  unfold decode, store, set_Characters. simpl. f_equal.
  rewrite chars_at_write_array. apply list_eq. intros j.
  destruct (decide (j = ci)) as [->|Hne].
  - rewrite !list_lookup_insert_eq
      by (rewrite length_fmap; by eapply lookup_lt_Some). done.
  - rewrite !list_lookup_insert_ne by done. rewrite !list_lookup_fmap.
    destruct (chars_at h (m_Characters state) !! j) as [cj|] eqn:Hcj; [|done].
    simpl. f_equal. apply decode_char_write_array_other.
    by eapply (Hsep j ci).
Qed.

Lemma handleAbility_refines state a g ev lg h :
  separated (chars_at h (m_Characters state)) ->
  refines (Mem.handleAbility state a g ev lg h)
    (val_handleAbility (decode h state) a g ev lg).
Proof.
  intros Hsep. unfold Mem.handleAbility, val_handleAbility.
  rewrite !GetCharacterByID_decode.
  destruct (Mem.GetCharacterByID h state (Actor a)) as [[ci c]|] eqn:Hc; simpl; [|done].
  apply GetCharacterByID_lookup in Hc.
  destruct (list_find _ (m_Abilities c)) as [[ai ability]|]; [|done].
  case_bool_decide; [done|].
  destruct (m_AbilityCooldowns c) as [ml|] eqn:Hml; simpl; [|done].
  destruct (map_at h (Some ml)) as [m|] eqn:Hm; simpl; [|done].
  set (h1 := update_map ml <[Ability_ID ability := Cooldown ability]> h).
  match goal with
  | |- context [store (decode h state) ci ?x] =>
      assert (H1 : decode h1 state = store (decode h state) ci x)
        by (unfold h1; rewrite (decode_update_map h state ci c ml) by done;
            by rewrite Hm);
      assert (H1c : decode_char h1 c = x)
        by (unfold h1; rewrite decode_char_update_map_own by done; by rewrite Hm);
      rewrite <- H1
  end.
  destruct (String.eqb (Effect ability) "damage").
  { destruct (negb (String.eqb (Target a) "")).
    - rewrite GetCharacterByID_decode.
      destruct (Mem.GetCharacterByID h1 state (Target a)) as [[ti target]|]; simpl.
      + match goal with |- context [Z.eqb ?x 0] => destruct (Z.eqb x 0) end;
          apply finish_refines_at; by rewrite decode_write_char.
      + by apply finish_refines_at.
    - by apply finish_refines_at. }
  destruct (String.eqb (Effect ability) "heal").
  - apply finish_refines_at. rewrite decode_write_char. f_equal.
    change (decode_char h1 (setm_HP c ?x)) with (set_HP (decode_char h1 c) x).
    by rewrite H1c.
  - by apply finish_refines_at.
Qed.

Lemma handleUseItem_refines state a g ev lg h :
  separated (chars_at h (m_Characters state)) ->
  refines (Mem.handleUseItem state a g ev lg h)
    (val_handleUseItem (decode h state) a g ev lg).
Proof.
  intros Hsep. unfold Mem.handleUseItem, val_handleUseItem.
  rewrite !GetCharacterByID_decode.
  destruct (Mem.GetCharacterByID h state (Actor a)) as [[ci c]|] eqn:Hc; simpl; [|done].
  apply GetCharacterByID_lookup in Hc.
  destruct (list_find _ (items_at h (m_Items c))) as [[i item]|] eqn:Hf; [|done].
  apply list_find_Some in Hf as (Hi & _ & _).
  destruct (m_Items c) as [il n] eqn:Hit. unfold items_at in Hi. simpl in Hi.
  assert (Htyped : exists a0, h !! il = Some (ItemArray a0)).
  { unfold array_at in Hi. destruct (h !! il) as [[| a0 |]|]; eauto;
      by rewrite take_nil in Hi. }
  destruct Htyped as [a0 Ha0].
  set (arr := remove_in_place (array_at h il) n i).
  set (h1 := write_array il arr h).
  assert (Harr : array_at h1 il = arr) by (by eapply array_at_write_array_eq).
  rewrite Harr.
  assert (Hitem : default item (arr !! i)
                  = item_after_removal (items_at h (il, n)) i item).
  { unfold arr, item_after_removal, items_at. simpl.
    by apply remove_in_place_lookup. }
  rewrite Hitem.
  assert (Hcell : decode_char h1 (setm_Items c (il, (n - 1)%nat))
                  = set_Items (decode_char h c)
                      (delete i (items_at h (il, n)))).
  { unfold decode_char, set_Items, items_at. simpl.
    rewrite Harr. unfold h1. rewrite map_at_write_array. f_equal.
    unfold arr. apply remove_in_place_take. by eapply lookup_lt_Some. }
  assert (Hil : il = fst (m_Items c)) by (by rewrite Hit).
  unfold h1. rewrite Hil.
  destruct (Contains _ "Potion"); simpl;
    apply finish_refines_at;
    rewrite (decode_write_array_char h state ci c) by done;
    rewrite <- Hil; fold h1; f_equal.
  - change (decode_char h1 (setm_HP ?c0 ?x)) with (set_HP (decode_char h1 c0) x).
    by rewrite Hcell.
  - exact Hcell.
Qed.


(** *** The whole call *)

(** The resolver on the store computes, on the value its input denotes,
    what the resolver on values computes: same events and logs, a state
    that denotes the same value, the same panic. *)
Theorem ApplyAction_refines state action seed h :
  valid h state ->
  refines (Mem.ApplyAction state action seed h)
    (val_ApplyAction (decode h state) action seed).
Proof.
  intros Hv. unfold Mem.ApplyAction, val_ApplyAction, Mem.deepCopyState, val_deepCopyState.
  destruct (encode (decode h state) h) as [h1 s1] eqn:E.
  pose proof (encode_spec _ _ _ _ E) as [[fresh ->] _].
  apply encode_decode in E as (Hd & Hsep & _).
  assert (Hin : decode (h ++ fresh) state = decode h state) by (by apply decode_app).
  assert (Hsoft : forall ev lg,
            refines (h ++ fresh, Ok (mkResolutionM ev state lg))
              (Ok (mkResolution ev (decode h state) lg))).
  { intros ev lg. unfold refines, decode_resolution. simpl. by rewrite Hin. }
  rewrite <- Hd at 1. rewrite GetCharacterByID_decode.
  destruct (Mem.GetCharacterByID (h ++ fresh) s1 (getActorID action)) as [p|];
    cbv beta iota delta [fmap option_fmap option_map]; [|apply Hsoft].
  destruct (negb (existsb (String.eqb (Kind action)) validKinds)); [apply Hsoft|].
  destruct (String.eqb (Kind action) "Attack");
    [rewrite <- Hd; apply handleAttack_refines|].
  destruct (String.eqb (Kind action) "Defend");
    [rewrite <- Hd; apply handleDefend_refines|].
  destruct (String.eqb (Kind action) "Ability");
    [rewrite <- Hd; by apply handleAbility_refines|].
  destruct (String.eqb (Kind action) "UseItem");
    [rewrite <- Hd; by apply handleUseItem_refines|].
  destruct (String.eqb (Kind action) "Flee");
    [rewrite <- Hd; apply handleFlee_refines|].
  apply Hsoft.
Qed.

End Refine.
End MemRefine.

Lemma arena_store_valid : Mem.valid (fst Mem.arena_store) (snd Mem.arena_store).
Proof. by_compute. Qed.

(** A run of C9: the hero's attack on the goblin leaves the store that
    holds the arena untouched. *)
Lemma ApplyAction_preserves_input_witness :
  let h := fst Mem.arena_store in
  let s := snd Mem.arena_store in
  let h' := fst (@Mem.ApplyAction Lcg KeyOrder s (attackAction "p1" "e1" "w1") 12345 h) in
  (exists fresh, h' = h ++ fresh)
  /\ Mem.decode h' s = Mem.decode h s
  /\ forall retained, Mem.valid h retained -> Mem.decode h' retained = Mem.decode h retained.
Proof.
  apply (@MemFacts.ApplyAction_preserves_input Lcg KeyOrder).
  exact arena_store_valid.
Defined.
(** * More about the resolver *)

Section Related.
Context {RS : RandSource} {MR : MapRange}.
Context (R : Character -> Character -> Prop) (HR : Upkeep R) (Htick : forall c, R c (tick c)).

Lemma related_refl st : Forall2 R (Characters st) (Characters st).
Proof. apply Forall2_same_length_lookup. split; [done|]. intros i x y ??. 
  assert (x = y) as -> by congruence. apply HR. Qed.

Lemma related_store st st0 i c c' :
  Forall2 R (Characters st) (Characters st0) ->
  Characters st0 !! i = Some c -> R c c' ->
  Forall2 R (Characters st) (Characters (store st0 i c')).
Proof.
  intros H Hi Hc. unfold store. simpl.
  apply Forall2_same_length_lookup. split.
  - rewrite length_insert. by eapply Forall2_length.
  - intros j x y Hx Hy. destruct (decide (j = i)) as [->|Hne].
    + rewrite list_lookup_insert_eq in Hy by (by eapply lookup_lt_Some).
      injection Hy as <-. eapply (upkeep_trans R HR); [|exact Hc].
      eapply Forall2_lookup_lr; [exact H|exact Hx|exact Hi].
    + rewrite list_lookup_insert_ne in Hy by done.
      eapply Forall2_lookup_lr; [exact H|exact Hx|exact Hy].
Qed.

Lemma related_advance st st0 s' :
  Forall2 R (Characters st) (Characters st0) ->
  advanceTurn st0 = Ok s' ->
  Forall2 R (Characters st) (Characters s').
Proof.
  intros H [-> _]%advanceTurn_Ok.
  apply Forall2_fmap_r. eapply Forall2_impl; [exact H|].
  intros x y Hxy. eapply (upkeep_trans R HR); [exact Hxy|apply Htick].
Qed.

End Related.

Section Related2.
Context {RS : RandSource} {MR : MapRange}.
Context (R : Character -> Character -> Prop) (HR : Upkeep R) (Htick : forall c, R c (tick c)).

Lemma map_set_Ok m k v m' : map_set m k v = Ok m' -> exists g, m' = Some g.
Proof. destruct m; simpl; intros; simplify_eq; eauto. Qed.

Ltac related_lookup :=
  first
    [ eapply GetCharacterByID_Some; eassumption
    | unfold store; simpl; apply list_lookup_insert_eq;
      eapply lookup_lt_Some, GetCharacterByID_Some; eassumption ].

Ltac related_char :=
  repeat match goal with
         | H : map_set _ _ _ = Ok _ |- _ => apply map_set_Ok in H as [? ->]
         end;
  repeat first
    [ apply (upkeep_refl R HR)
    | apply (upkeep_HP R HR)
    | apply (upkeep_Defense R HR)
    | apply (upkeep_Items R HR)
    | apply (upkeep_AbilityCooldowns R HR)
    | eapply (upkeep_trans R HR); [|apply (upkeep_HP R HR)] ].

Ltac related :=
  repeat match goal with
         | H : advanceTurn _ = Ok ?s |- Forall2 _ _ (Characters ?s) =>
             eapply (related_advance R HR Htick); [|exact H]
         | |- Forall2 _ _ (Characters (store _ _ _)) =>
             eapply (related_store R HR); [|related_lookup|related_char]
         | |- Forall2 _ (Characters ?s) (Characters ?s) => apply (related_refl R HR)
         end.

Lemma handleAttack_related st a g ev lg r :
  handleAttack st a g ev lg = Ok r ->
  Forall2 R (Characters st) (Characters (Res_State r)).
Proof. intros H. unfold handleAttack in H. handler_inv H; related. Qed.

Lemma handleDefend_related st a g ev lg r :
  handleDefend st a g ev lg = Ok r ->
  Forall2 R (Characters st) (Characters (Res_State r)).
Proof. intros H. unfold handleDefend in H. handler_inv H; related. Qed.

Lemma handleAbility_related st a g ev lg r :
  handleAbility st a g ev lg = Ok r ->
  Forall2 R (Characters st) (Characters (Res_State r)).
Proof. intros H. unfold handleAbility in H. handler_inv H; related. Qed.

Lemma handleUseItem_related st a g ev lg r :
  handleUseItem st a g ev lg = Ok r ->
  Forall2 R (Characters st) (Characters (Res_State r)).
Proof. intros H. unfold handleUseItem in H. handler_inv H; related. Qed.

Lemma handleFlee_related st a g ev lg r :
  handleFlee st a g ev lg = Ok r ->
  Forall2 R (Characters st) (Characters (Res_State r)).
Proof. intros H. unfold handleFlee in H. handler_inv H; related. Qed.

(** Whatever a relation respects of the writes and of the Turn Advancer, it
    holds between each character before a resolution and after. *)
Lemma ApplyAction_related s a n r :
  ApplyAction s a n = Ok r ->
  Forall2 R (Characters s) (Characters (Res_State r)).
Proof.
  intros H.
  destruct (ApplyAction_cases s a n) as [E|[E|[E|[E|[E|[E|E]]]]]];
    rewrite E in H.
  - simplify_eq. apply (related_refl R HR).
  - simplify_eq. apply (related_refl R HR).
  - by eapply handleAttack_related.
  - by eapply handleDefend_related.
  - by eapply handleAbility_related.
  - by eapply handleUseItem_related.
  - by eapply handleFlee_related.
Qed.

End Related2.

Section Invariants.
Context {RS : RandSource} {MR : MapRange}.

Lemma same_sheet_Upkeep : Upkeep same_sheet.
Proof.
  split; unfold same_sheet.
  - done.
  - intros c1 c2 c3 H1 H2. destruct_and!. split_and!; congruence.
  - done.
  - done.
  - done.
  - done.
Qed.

Lemma same_sheet_tick c : same_sheet c (tick c).
Proof. done. Qed.

Lemma keeps_map_Upkeep : Upkeep keeps_map.
Proof.
  split; unfold keeps_map; simpl; try done.
  intros c1 c2 c3 H1 H2 H. auto.
Qed.

Lemma keeps_map_tick c : keeps_map c (tick c).
Proof.
  unfold keeps_map. rewrite tick_AbilityCooldowns.
  by destruct (AbilityCooldowns c).
Qed.

Lemma ApplyAction_TurnOrder s a n r :
  ApplyAction s a n = Ok r -> TurnOrder (Res_State r) = TurnOrder s.
Proof.
  intros [->|[->|[cs H]]]%ApplyAction_shape; [done|done|].
  by apply advanceTurn_Ok in H as [_ ->].
Qed.

Lemma ApplyAction_sheets s a n r :
  ApplyAction s a n = Ok r ->
  Forall2 same_sheet (Characters s) (Characters (Res_State r)).
Proof. apply ApplyAction_related; [apply same_sheet_Upkeep|apply same_sheet_tick]. Qed.

Lemma sheets_ids cs cs' :
  Forall2 same_sheet cs cs' -> Char_ID <$> cs' = Char_ID <$> cs.
Proof.
  induction 1 as [|c c' cs cs' Hc _ IH]; [done|].
  rewrite !fmap_cons, IH. by destruct Hc as [-> _].
Qed.

Lemma advanceTurn_CurrentTurn st st' :
  advanceTurn st = Ok st' ->
  0 <= CurrentTurn st < Z.of_nat (length (TurnOrder st)) ->
  0 <= CurrentTurn st' < Z.of_nat (length (TurnOrder st)).
Proof.
  intros H Hct. destruct (ended st) eqn:He.
  - apply advanceTurn_ended in He as [w Hw]. rewrite Hw in H. by injection H as <-.
  - assert (Hne : TurnOrder st <> []).
    { intros E. rewrite E in Hct. simpl in Hct. lia. }
    rewrite advanceTurn_going in H by done. injection H as <-. simpl.
    pose proof (Z.rem_bound_pos (CurrentTurn st + 1)
                  (Z.of_nat (length (TurnOrder st))) ltac:(lia) ltac:(lia)).
    lia.
Qed.

Lemma ApplyAction_pointed s a n r :
  pointed s -> ApplyAction s a n = Ok r -> pointed (Res_State r).
Proof.
  intros (Hne & Hct & Hids) H.
  pose proof (ApplyAction_TurnOrder _ _ _ _ H) as Hto.
  pose proof (sheets_ids _ _ (ApplyAction_sheets _ _ _ _ H)) as Hid.
  unfold pointed. rewrite Hto, Hid. split; [done|]. split; [|done].
  apply ApplyAction_shape in H as [->|[->|[cs H]]]; [done|done|].
  by apply advanceTurn_CurrentTurn in H.
Qed.

Lemma ApplyAction_maps s a n r :
  Forall (fun c => AbilityCooldowns c <> None) (Characters s) ->
  ApplyAction s a n = Ok r ->
  Forall (fun c => AbilityCooldowns c <> None) (Characters (Res_State r)).
Proof.
  intros Hm H.
  pose proof (ApplyAction_related keeps_map keeps_map_Upkeep keeps_map_tick _ _ _ _ H) as HR.
  clear H. induction HR as [|c c' cs cs' Hc _ IH]; [done|].
  apply Forall_cons in Hm as [? ?]. constructor; [by apply Hc|by apply IH].
Qed.

Lemma ApplyAction_keeps_wellformed s a n :
  wellformed s ->
  exists r, ApplyAction s a n = Ok r /\ wellformed (Res_State r).
Proof.
  intros [Hp Hm].
  destruct (ApplyAction_returns s a n) as [r Hr]; [by destruct Hp|done|].
  exists r. split; [done|]. split; [by eapply ApplyAction_pointed|by eapply ApplyAction_maps].
Qed.


(** X9.  A well-formed state is always resolved, never a panic, whatever the
    action and the seed, and the state returned is well-formed again. *)
Theorem ApplyAction_wellformed s a n :
  wellformed s ->
  exists r, ApplyAction s a n = Ok r /\ wellformed (Res_State r).
Proof. apply ApplyAction_keeps_wellformed. Qed.

Lemma reachable_pointed s0 s :
  pointed s0 -> reachable s0 s -> pointed s.
Proof. intros H0. induction 1; [done|]. by eapply ApplyAction_pointed. Qed.

(** What [GetCurrentCharacter] finds in a pointed state. *)
Lemma GetCurrentCharacter_pointed s :
  pointed s ->
  exists i c, GetCurrentCharacter s = Done (Some (i, c))
              /\ Characters s !! i = Some c
              /\ TurnOrder s !! Z.to_nat (CurrentTurn s) = Some (Char_ID c).
Proof.
  intros (Hne & Hct & Hids). unfold GetCurrentCharacter, index.
  rewrite bool_decide_false by lia. rewrite bool_decide_true by lia.
  destruct (TurnOrder s !! Z.to_nat (CurrentTurn s)) as [cid|] eqn:Hcid.
  - rewrite Forall_forall in Hids.
    assert (Hin : cid ∈ Char_ID <$> Characters s)
      by (apply Hids; by eapply list_elem_of_lookup_2).
    apply list_elem_of_fmap in Hin as (c0 & Hc0 & Hin).
    destruct (list_find (fun c => Char_ID c = cid) (Characters s)) as [[i c]|] eqn:Hf.
    + apply list_find_Some in Hf as (Hi & Hc & _). exists i, c.
      by rewrite Hc.
    + apply list_find_None in Hf. rewrite Forall_forall in Hf.
      by destruct (Hf c0 Hin).
  - apply lookup_ge_None in Hcid. lia.
Qed.

(** X6.  [GetCurrentCharacter] panics exactly when the turn counter is
    negative (index out of range); a counter at or past the end of the turn
    order yields [nil] instead. *)
Theorem GetCurrentCharacter_panics s :
  ((exists f, GetCurrentCharacter s = Fault f) <-> CurrentTurn s < 0)
  /\ (Z.of_nat (length (TurnOrder s)) <= CurrentTurn s ->
      GetCurrentCharacter s = Done None).
Proof.
  unfold GetCurrentCharacter, index. split.
  - destruct (decide (Z.of_nat (length (TurnOrder s)) <= CurrentTurn s)) as [Hge|Hlt].
    + rewrite bool_decide_true by done. split; [by intros [f ?]|lia].
    + rewrite bool_decide_false by done.
      destruct (decide (0 <= CurrentTurn s)) as [Hpos|Hneg].
      * rewrite bool_decide_true by done.
        destruct (TurnOrder s !! Z.to_nat (CurrentTurn s)) eqn:E.
        -- split; [by intros [f ?]|lia].
        -- apply lookup_ge_None in E. lia.
      * rewrite bool_decide_false by done. split; [lia|eauto].
  - intros Hge. by rewrite bool_decide_true.
Qed.

End Invariants.


Section Turns.
Context {RS : RandSource} {MR : MapRange}.

(** *** Defending, and what becomes of defense *)


Lemma iter_resetDefense (N : nat) d :
  Nat.iter N resetDefense d
  = if bool_decide (d <= 5) then d else Z.max (d - 2 * Z.of_nat N) (4 + d mod 2).
Proof.
  induction N as [|N IH].
  - simpl. case_bool_decide; [done|]. Z.div_mod_to_equations. lia.
  - rewrite Nat.iter_succ, IH. unfold resetDefense.
    repeat case_bool_decide; Z.div_mod_to_equations; lia.
Qed.

Lemma advanceTurns_Characters (N : nat) : forall s s',
  advanceTurns N s = Ok s' ->
  Characters s' = Nat.iter N (fmap (M:=list) tick) (Characters s).
Proof.
  induction N as [|N IH]; intros s s' H; simpl in H.
  - by injection H as <-.
  - destruct (advanceTurn s) as [s1|p] eqn:E; simpl in H; [|done].
    apply IH in H. rewrite H. apply advanceTurn_Ok in E as [-> _].
    by rewrite Nat.iter_succ_r.
Qed.

Lemma iter_tick_lookup (N : nat) : forall cs i c,
  cs !! i = Some c ->
  exists c', Nat.iter N (fmap (M:=list) tick) cs !! i = Some c'
             /\ Defense (Stats c') = Nat.iter N resetDefense (Defense (Stats c)).
Proof.
  induction N as [|N IH]; intros cs i c Hc.
  - exists c. done.
  - destruct (IH cs i c Hc) as (c1 & H1 & Hd). exists (tick c1).
    rewrite !Nat.iter_succ, list_lookup_fmap, H1. split; [done|].
    by rewrite tick_Defense, Hd.
Qed.


(** *** Who wins *)

Lemma countAlive_from cs : forall p e,
  foldl (fun '(alivePlayers, aliveEnemies) c =>
           if IsPlayer c && bool_decide (0 < HP (Stats c)) then (alivePlayers + 1, aliveEnemies)
           else if negb (IsPlayer c) && bool_decide (0 < HP (Stats c))
                then (alivePlayers, aliveEnemies + 1)
                else (alivePlayers, aliveEnemies))
        (p, e) cs
  = (p + Z.of_nat (length (filter alive_player cs)),
     e + Z.of_nat (length (filter alive_enemy cs))).
Proof.
  induction cs as [|c cs IH]; intros p e.
  - simpl. f_equal; lia.
  - simpl.
    assert (Hrw : forall b, b = IsPlayer c -> True) by done. clear Hrw.
    rewrite !filter_cons.
    destruct (decide (alive_player c)) as [[Hp Hh]|Hnp];
      destruct (decide (alive_enemy c)) as [[He Hh']|Hne].
    + congruence.
    + rewrite Hp. simpl. rewrite bool_decide_true by done. rewrite IH.
      simpl. f_equal; lia.
    + rewrite He. simpl. rewrite bool_decide_true by done. rewrite IH.
      simpl. f_equal; lia.
    + assert (bool_decide (0 < HP (Stats c)) = false) as ->.
      { apply bool_decide_eq_false. intros Hh. unfold alive_player, alive_enemy in *.
        destruct (IsPlayer c); tauto. }
      rewrite !andb_false_r. by rewrite IH.
Qed.

Lemma countAlive_spec cs :
  countAlive cs = (Z.of_nat (length (filter alive_player cs)),
                   Z.of_nat (length (filter alive_enemy cs))).
Proof. unfold countAlive. by rewrite countAlive_from. Qed.

Lemma no_alive_iff (P : Character -> Prop) `{!forall c, Decision (P c)} cs :
  Z.of_nat (length (filter P cs)) = 0 <-> Forall (fun c => ~ P c) cs.
Proof.
  split.
  - intros Hz. apply Forall_forall. intros c Hc HP.
    assert (c ∈ filter P cs) as Hin by (by apply list_elem_of_filter).
    destruct (filter P cs); [by apply elem_of_nil in Hin|simpl in Hz; lia].
  - intros Hall. induction Hall as [|c cs' Hc _ IH]; [done|].
    by rewrite filter_cons_False.
Qed.

Lemma alive_tick_player c : alive_player (tick c) <-> alive_player c.
Proof. done. Qed.
Lemma alive_tick_enemy c : alive_enemy (tick c) <-> alive_enemy c.
Proof. done. Qed.

(** X13.  The verdict of the Turn Advancer.  With no player alive the
    combat is complete and the enemies have won, also when no enemy is alive
    either; with a player but no enemy alive the players have won; with both
    sides alive the verdict is left as it was.  A draw is never declared. *)
Theorem advanceTurn_verdict s s' :
  advanceTurn s = Ok s' ->
  (Forall (fun c => ~ alive_player c) (Characters s) ->
   IsComplete s' = true /\ Winner s' = Some "enemy")
  /\ (Exists alive_player (Characters s) ->
      Forall (fun c => ~ alive_enemy c) (Characters s) ->
      IsComplete s' = true /\ Winner s' = Some "player")
  /\ (Exists alive_player (Characters s) -> Exists alive_enemy (Characters s) ->
      IsComplete s' = IsComplete s /\ Winner s' = Winner s).
Proof.
  intros H. unfold advanceTurn, deepCopyState in H.
  rewrite countAlive_spec in H.
  assert (Hp : Z.of_nat (length (filter alive_player (tick <$> Characters s))) = 0
               <-> Forall (fun c => ~ alive_player c) (Characters s)).
  { rewrite no_alive_iff, Forall_fmap. done. }
  assert (He : Z.of_nat (length (filter alive_enemy (tick <$> Characters s))) = 0
               <-> Forall (fun c => ~ alive_enemy c) (Characters s)).
  { rewrite no_alive_iff, Forall_fmap. done. }
  destruct (Z.eqb_spec (Z.of_nat (length (filter alive_player (tick <$> Characters s)))) 0)
    as [Ep|Ep].
  { simpl in H. injection H as <-. simpl. apply Hp in Ep.
    split; [done|]. split; intros Hex; exfalso;
      apply Exists_exists in Hex as (c & Hc & Hal);
      rewrite Forall_forall in Ep; by apply (Ep c). }
  destruct (Z.eqb_spec (Z.of_nat (length (filter alive_enemy (tick <$> Characters s)))) 0)
    as [Ee|Ee].
  { simpl in H. injection H as <-. simpl. apply He in Ee.
    split; [by intros ?%Hp|]. split; [done|].
    intros _ Hex. exfalso. apply Exists_exists in Hex as (c & Hc & Hal).
    rewrite Forall_forall in Ee. by apply (Ee c). }
  split; [by intros ?%Hp|]. split; [by intros _ ?%He|]. intros _ _.
  destruct (IsComplete s) eqn:Hc; simpl in H.
  - by injection H as <-.
  - destruct (TurnOrder s); [done|]. by injection H as <-.
Qed.

(** *** Once complete *)

(** X14.  Nothing stops a complete combat from being acted on, but it stays
    complete: a resolution from a complete state returns a complete state
    with the same round and the same turn counter. *)
Theorem ApplyAction_complete_stays s a n r :
  IsComplete s = true ->
  ApplyAction s a n = Ok r ->
  IsComplete (Res_State r) = true
  /\ Round (Res_State r) = Round s
  /\ CurrentTurn (Res_State r) = CurrentTurn s.
Proof.
  intros Hc [->|[->|[cs H]]]%ApplyAction_shape; [done|done|].
  assert (He : ended (set_Characters s cs) = true).
  { unfold ended. destruct (countAlive _). simpl. rewrite Hc.
    by rewrite !orb_true_r. }
  apply advanceTurn_ended in He as [w Hw]. rewrite Hw in H. by injection H as <-.
Qed.

End Turns.

Section OutOfTurn.
Context {RS : RandSource} {MR : MapRange}.

(** *** Using an item that is not the last one *)


(** *** Whose turn it is *)

Lemma advance_agree st1 st2 ev lg :
  Characters st1 = Characters st2 -> TurnOrder st1 = TurnOrder st2 ->
  IsComplete st1 = IsComplete st2 -> Winner st1 = Winner st2 ->
  agree (updatedState <- advanceTurn st1 ;; Ok (mkResolution ev updatedState lg))
        (updatedState <- advanceTurn st2 ;; Ok (mkResolution ev updatedState lg)).
Proof.
  intros Hc Ht Hi Hw. unfold advanceTurn, deepCopyState.
  rewrite Hc, Ht, Hi, Hw. destruct (countAlive _) as [p e].
  destruct (Z.eqb p 0); simpl; [done|].
  destruct (Z.eqb e 0); simpl; [done|].
  destruct (IsComplete st2); simpl; [done|].
  destruct (TurnOrder st2); simpl; done.
Qed.

Lemma agree_Ok ev st1 st2 lg :
  Characters st1 = Characters st2 -> IsComplete st1 = IsComplete st2 ->
  Winner st1 = Winner st2 ->
  agree (Ok (mkResolution ev st1 lg)) (Ok (mkResolution ev st2 lg)).
Proof. done. Qed.

Ltac agree_tac :=
  unfold GetCharacterByID; simpl;
  repeat case_match; simplify_eq;
  first [ by apply agree_Ok | by apply advance_agree ].

Lemma handleAttack_agree st ct a g ev lg :
  agree (handleAttack (set_CurrentTurn st ct) a g ev lg) (handleAttack st a g ev lg).
Proof. unfold handleAttack. agree_tac. Qed.

Lemma handleDefend_agree st ct a g ev lg :
  agree (handleDefend (set_CurrentTurn st ct) a g ev lg) (handleDefend st a g ev lg).
Proof. unfold handleDefend. agree_tac. Qed.

Lemma handleAbility_agree st ct a g ev lg :
  agree (handleAbility (set_CurrentTurn st ct) a g ev lg) (handleAbility st a g ev lg).
Proof.
  unfold handleAbility, GetCharacterByID; simpl.
  repeat case_match; simplify_eq; try by apply agree_Ok.
  all: destruct (map_set _ _ _) as [cds|p]; simpl; [|done].
  all: repeat case_match; simplify_eq; by apply advance_agree.
Qed.

Lemma handleUseItem_agree st ct a g ev lg :
  agree (handleUseItem (set_CurrentTurn st ct) a g ev lg) (handleUseItem st a g ev lg).
Proof. unfold handleUseItem. agree_tac. Qed.

Lemma handleFlee_agree st ct a g ev lg :
  agree (handleFlee (set_CurrentTurn st ct) a g ev lg) (handleFlee st a g ev lg).
Proof. unfold handleFlee. agree_tac. Qed.

(** X15.  [ApplyAction] never looks at whose turn it is.  With any other
    value in [CurrentTurn] the call panics in the same way or returns the
    same events, the same logs, the same characters and the same verdict:
    an action by a character out of turn is resolved like any other. *)
Theorem ApplyAction_ignores_turn s ct a n :
  agree (ApplyAction (set_CurrentTurn s ct) a n) (ApplyAction s a n).
Proof.
  unfold ApplyAction, deepCopyState.
  change (GetCharacterByID (set_CurrentTurn s ct) (getActorID a))
    with (GetCharacterByID s (getActorID a)).
  destruct (GetCharacterByID s (getActorID a)); [|by apply agree_Ok].
  destruct (negb _); [by apply agree_Ok|].
  destruct (String.eqb (Kind a) "Attack"); [apply handleAttack_agree|].
  destruct (String.eqb (Kind a) "Defend"); [apply handleDefend_agree|].
  destruct (String.eqb (Kind a) "Ability"); [apply handleAbility_agree|].
  destruct (String.eqb (Kind a) "UseItem"); [apply handleUseItem_agree|].
  destruct (String.eqb (Kind a) "Flee"); [apply handleFlee_agree|].
  by apply agree_Ok.
Qed.

End OutOfTurn.
(** * The dice and the set-up of an encounter *)

Section DiceFacts.
Context {RS : RandSource}.

Lemma RollD100_range g : 1 <= fst (RollD100 g) <= 100.
Proof.
  unfold RollD100. pose proof (Intn_bounds (rng g) 100 ltac:(lia)).
  destruct (Intn (rng g) 100). simpl in *. lia.
Qed.

(** Every die of rng.go shows a face of its own: the d20 1 to 20, the d6
    1 to 6, the d100 1 to 100, whatever the generator's state. *)
Lemma dice_show_their_faces g :
  1 <= fst (RollD20 g) <= 20
  /\ 1 <= fst (RollD6 g) <= 6
  /\ 1 <= fst (RollD100 g) <= 100.
Proof.
  split; [apply RollD20_range|split; [apply RollD6_range|apply RollD100_range]].
Qed.

Lemma wrap_id z : is_int z -> wrap z = z.
Proof.
  unfold is_int, int_min, int_max, wrap. intros H.
  rewrite Z.mod_small by lia. lia.
Qed.

Lemma wrap_high z : int_max < z <= 2 ^ 64 -> wrap z = z - 2 ^ 64.
Proof.
  unfold int_max, wrap. intros H.
  replace (z + 2 ^ 63) with ((z - 2 ^ 63) + 1 * 2 ^ 64) by lia.
  rewrite Z.mod_add by lia. rewrite Z.mod_small by lia. lia.
Qed.

(** The count handed to [Intn]: the exact one when it fits, otherwise not
    positive. *)
Lemma RandomInt_count min max :
  is_int min -> is_int max -> min <= max ->
  let n := wrap (wrap (max - min) + 1) in
  (max - min + 1 <= int_max /\ n = max - min + 1)
  \/ (int_max < max - min + 1 /\ n <= 0).
Proof.
  unfold is_int, int_min, int_max. intros Hmin Hmax Hle. cbv zeta.
  destruct (decide (max - min <= 2 ^ 63 - 1)) as [Hs|Hs].
  - rewrite (wrap_id (max - min)) by (unfold is_int, int_min, int_max; lia).
    destruct (decide (max - min + 1 <= 2 ^ 63 - 1)) as [Hs'|Hs'].
    + left. rewrite wrap_id by (unfold is_int, int_min, int_max; lia). lia.
    + right. rewrite wrap_high by (unfold int_max; lia). lia.
  - right. rewrite (wrap_high (max - min)) by (unfold int_max; lia).
    rewrite wrap_id by (unfold is_int, int_min, int_max; lia). lia.
Qed.

(** X1.  The number [RandomInt] returns lies between [min] and [max], both
    included. *)
Theorem RandomInt_range s min max v s' :
  is_int min -> is_int max -> min <= max ->
  RandomInt s min max = Done (v, s') -> min <= v <= max.
Proof.
  intros Hmin Hmax Hle H. unfold RandomInt in H.
  rewrite bool_decide_false in H by lia.
  destruct (RandomInt_count min max Hmin Hmax Hle) as [[Hfit Hn]|[_ Hn]];
    cbv zeta in Hn.
  - rewrite Hn in H. rewrite bool_decide_false in H by lia.
    pose proof (Intn_bounds (rng s) (max - min + 1) ltac:(lia)) as Hb.
    destruct (Intn (rng s) (max - min + 1)) as [x r]. simpl in Hb.
    injection H as <- _. unfold is_int, int_min, int_max in *.
    rewrite wrap_id by (unfold is_int, int_min, int_max; lia). lia.
  - rewrite bool_decide_true in H by done. done.
Qed.

(** X2.  [RandomInt] panics exactly when the range is in order but holds more
    numbers than an [int] can count: [max - min + 1] wraps to a value that
    is not positive, which [Intn] rejects.  An inverted range does not
    panic: it returns [min] and leaves the generator alone. *)
Theorem RandomInt_panics s min max :
  is_int min -> is_int max ->
  (RandomInt s min max = Fault InvalidIntnArgument
   <-> min <= max /\ int_max < max - min + 1)
  /\ (max < min -> RandomInt s min max = Done (min, s)).
Proof.
  intros Hmin Hmax. split; [|intros H; unfold RandomInt; by rewrite bool_decide_true].
  unfold RandomInt. destruct (decide (max < min)) as [Hlt|Hge].
  - rewrite bool_decide_true by done. split; [done|lia].
  - rewrite bool_decide_false by done.
    destruct (RandomInt_count min max Hmin Hmax ltac:(lia)) as [[Hfit Hn]|[Hbig Hn]];
      cbv zeta in Hn.
    + rewrite Hn, bool_decide_false by lia.
      destruct (Intn _ _). split; [done|lia].
    + rewrite bool_decide_true by done. split; [intros _; lia|done].
Qed.

End DiceFacts.





Section SetupFacts.
Context {RS : RandSource} {SS : SortSlice}.

Lemma byInitiative_StrictWeak : StrictWeak byInitiative.
Proof.
  unfold byInitiative. split.
  - intros x. apply bool_decide_eq_false. lia.
  - intros x y z. rewrite !bool_decide_eq_true. lia.
  - intros x y z. rewrite !bool_decide_eq_false. lia.
Qed.

Lemma rollInitiatives_ids cs : forall g, (rollInitiatives g cs).*1 = Char_ID <$> cs.
Proof.
  induction cs as [|c cs IH]; intros g; [done|].
  simpl. destruct (RollD20 g) as [d g']. simpl. by rewrite IH.
Qed.

(** Entry [k] of the rolled list belongs to character [k]: its id, and its
    speed plus a d20. *)
Lemma rollInitiatives_lookup cs : forall g k e,
  rollInitiatives g cs !! k = Some e ->
  exists c, cs !! k = Some c /\ e.1 = Char_ID c
            /\ Speed (Stats c) + 1 <= e.2 <= Speed (Stats c) + 20.
Proof.
  induction cs as [|c cs IH]; intros g k e H; [done|].
  simpl in H. pose proof (RollD20_range g) as Hd.
  destruct (RollD20 g) as [d g']. simpl in Hd.
  destruct k as [|k]; simpl in H.
  - injection H as <-. exists c. simpl. split; [done|]. split; [done|lia].
  - apply IH in H as (c' & ? & ? & ?). by exists c'.
Qed.

(** The initiatives behind a turn order: the rolled ones, sorted. *)
Lemma CreateInitialState_initiatives players enemies seed :
  exists inits,
    TurnOrder (CreateInitialState players enemies seed) = inits.*1
    /\ inits ≡ₚ rollInitiatives (NewSeededRNG seed) (players ++ enemies)
    /\ forall i j a b, (i < j)%nat -> inits !! i = Some a -> inits !! j = Some b ->
                       b.2 <= a.2.
Proof.
  eexists. split; [reflexivity|]. split; [apply sort_slice_perm|].
  intros i j a b Hij Ha Hb.
  pose proof (sort_slice_ordered _ byInitiative
                (rollInitiatives (NewSeededRNG seed) (players ++ enemies))
                byInitiative_StrictWeak i j a b Hij Ha Hb) as H.
  unfold byInitiative in H. apply bool_decide_eq_false in H. lia.
Qed.

(** X3.  [CreateInitialState] keeps the roster, players first, and gives every
    character exactly one place in the turn order: the turn order is a
    permutation of the characters' ids.  The state starts at round 1, turn 0,
    not complete, without a winner. *)
Theorem CreateInitialState_turn_order players enemies seed :
  let s := CreateInitialState players enemies seed in
  Characters s = players ++ enemies
  /\ TurnOrder s ≡ₚ Char_ID <$> (players ++ enemies)
  /\ Round s = 1 /\ CurrentTurn s = 0 /\ IsComplete s = false /\ Winner s = None.
Proof.
  cbv zeta. split; [done|]. split; [|done].
  unfold CreateInitialState. simpl.
  rewrite sort_slice_perm. by rewrite rollInitiatives_ids.
Qed.


Lemma NoDup_fmap_elem {A B} (f : A -> B) (l : list A) x y :
  NoDup (f <$> l) -> x ∈ l -> y ∈ l -> f x = f y -> x = y.
Proof.
  intros Hnd [i Hi]%list_elem_of_lookup [j Hj]%list_elem_of_lookup Hf.
  assert (i = j) as ->.
  { eapply NoDup_lookup; [exact Hnd| |].
    - by rewrite list_lookup_fmap, Hi.
    - by rewrite list_lookup_fmap, Hj, Hf. }
  congruence.
Qed.


End SetupFacts.



Section SetupReach.
Context {RS : RandSource} {MR : MapRange} {SS : SortSlice}.

Lemma CreateInitialState_pointed players enemies seed :
  players ++ enemies <> [] -> pointed (CreateInitialState players enemies seed).
Proof.
  intros Hne.
  assert (Hperm : TurnOrder (CreateInitialState players enemies seed)
                  ≡ₚ Char_ID <$> (players ++ enemies)).
  { unfold CreateInitialState. simpl.
    rewrite sort_slice_perm. by rewrite rollInitiatives_ids. }
  split; [|split].
  - intros E. rewrite E in Hperm. apply Permutation_nil_l in Hperm.
    symmetry in Hperm. by apply fmap_nil_inv in Hperm.
  - assert (length (TurnOrder (CreateInitialState players enemies seed))
            = length (players ++ enemies)) as Hlen.
    { rewrite Hperm. by rewrite length_fmap. }
    rewrite Hlen. simpl. destruct (players ++ enemies); [done|]. simpl. lia.
  - apply Forall_forall. intros cid Hcid. by rewrite Hperm in Hcid.
Qed.

(** X7.  In an encounter set up by [CreateInitialState] from a roster that is
    not empty, it is always somebody's turn: after any number of
    resolutions, [GetCurrentCharacter] neither panics nor returns [nil], and
    the character it returns is the one the turn order names. *)
Theorem GetCurrentCharacter_reachable players enemies seed s :
  players ++ enemies <> [] ->
  reachable (CreateInitialState players enemies seed) s ->
  exists i c, GetCurrentCharacter s = Done (Some (i, c))
              /\ Characters s !! i = Some c
              /\ TurnOrder s !! Z.to_nat (CurrentTurn s) = Some (Char_ID c).
Proof.
  intros Hne Hr. apply GetCurrentCharacter_pointed.
  eapply reachable_pointed; [|exact Hr]. by apply CreateInitialState_pointed.
Qed.

End SetupReach.
(** * The in-memory event store *)

Section Strings.

Lemma length_append s t :
  String.length (s +:+ t) = (String.length s + String.length t)%nat.
Proof. induction s as [|c s IH]; simpl; [done|]. by rewrite IH. Qed.

Lemma prefix_append s t rest :
  String.prefix s t = true -> String.prefix s (t +:+ rest) = true.
Proof.
  revert t. induction s as [|c s IH]; intros t H.
  - by destruct t, rest.
  - destruct t as [|d t]; [done|]. simpl in *.
    destruct (ascii_dec c d); [by apply IH|done].
Qed.

Lemma prefix_length s t :
  String.prefix s t = true -> (String.length s <= String.length t)%nat.
Proof.
  revert t. induction s as [|c s IH]; intros t H; simpl; [lia|].
  destruct t as [|d t]; [done|]. simpl in *.
  destruct (ascii_dec c d); [|done]. apply IH in H. lia.
Qed.

Lemma prefix_append_cases s t rest :
  String.prefix s (t +:+ rest) = true ->
  String.prefix s t = true \/ String.prefix t s = true.
Proof.
  revert t. induction s as [|c s IH]; intros t H.
  - left. by destruct t.
  - destruct t as [|d t]; [by right|]. simpl in *.
    destruct (ascii_dec c d) as [->|]; [|done].
    destruct (ascii_dec d d); [|done]. by apply IH.
Qed.

Lemma after_dash_cons c s :
  after_dash (String c s)
  = match after_dash s with
    | Some t => Some t
    | None => if Ascii.eqb c "-" then Some s else None
    end.
Proof. done. Qed.

Lemma after_dash_digits x : forall s, after_dash (pretty_N_go x s) = after_dash s.
Proof.
  induction (N.lt_wf_0 x) as [x _ IH]; intros s.
  destruct (decide (x = 0)%N) as [->|Hx]; [by rewrite pretty_N_go_0|].
  rewrite pretty_N_go_step by lia. rewrite IH by (apply N.div_lt; lia).
  rewrite after_dash_cons. destruct (after_dash s); [done|].
  unfold pretty_N_char. by repeat case_match.
Qed.

Lemma after_dash_fmt_d (n : nat) : after_dash (fmt_d (Z.of_nat n)) = None.
Proof.
  unfold fmt_d, pretty, pretty_Z. destruct (Z.of_nat n) as [|p|p] eqn:E; [done| |lia].
  unfold pretty, pretty_positive, pretty, pretty_N.
  rewrite decide_False by done. by rewrite after_dash_digits.
Qed.

Lemma after_dash_append pre ds :
  after_dash ds = None -> after_dash (pre +:+ "-" +:+ ds) = Some ds.
Proof.
  intros H. induction pre as [|c pre IH].
  - change (after_dash (String "-" ds) = Some ds).
    by rewrite after_dash_cons, H.
  - change (after_dash (String c (pre +:+ "-" +:+ ds)) = Some ds).
    by rewrite after_dash_cons, IH.
Qed.

Lemma append_assoc s t u : (s +:+ t) +:+ u = s +:+ t +:+ u.
Proof.
  induction s as [|c s IH]; [done|].
  change (String c ((s +:+ t) +:+ u) = String c (s +:+ t +:+ u)). by rewrite IH.
Qed.

End Strings.

Section StoreFacts.
Context {SJ : StateJSON}.

Lemma eventID_index sid1 r1 n1 sid2 r2 n2 :
  eventID sid1 r1 n1 = eventID sid2 r2 n2 -> n1 = n2.
Proof.
  unfold eventID. intros H.
  assert (Hd : forall sid r (n : nat),
             after_dash (sid +:+ "-" +:+ fmt_d r +:+ "-" +:+ fmt_d (Z.of_nat n))
             = Some (fmt_d (Z.of_nat n))).
  { intros sid r n.
    rewrite <- (append_assoc sid "-" _), <- (append_assoc (sid +:+ "-") (fmt_d r) _).
    apply after_dash_append, after_dash_fmt_d. }
  apply (f_equal after_dash) in H. rewrite !Hd in H.
  injection H as H. unfold fmt_d in H. apply pretty_Z_inj in H. lia.
Qed.

Lemma appendEvent_fold sid r evs : forall events,
  foldl (appendEvent sid r) events evs = events ++ stamped sid r (length events) evs.
Proof.
  unfold stamped.
  induction evs as [|e evs IH]; intros events.
  - simpl. by rewrite app_nil_r.
  - cbn [foldl]. rewrite IH. unfold appendEvent.
    rewrite <- app_assoc. f_equal. cbn [imap app]. rewrite Nat.add_0_r. f_equal.
    apply imap_ext. intros i x _. cbn. rewrite length_app. cbn.
    do 2 f_equal. lia.
Qed.

Lemma numbered_append sid r events evs :
  numbered events -> numbered (foldl (appendEvent sid r) events evs).
Proof.
  intros Hn. rewrite appendEvent_fold. intros i e Hi.
  apply lookup_app_Some in Hi as [Hi|[Hge Hi]]; [by apply Hn|].
  unfold stamped in Hi. rewrite list_lookup_imap in Hi.
  destruct (evs !! (i - length events)%nat) as [e0|]; [|done].
  simpl in Hi. injection Hi as <-. exists sid, r. simpl. f_equal. lia.
Qed.

Lemma built_numbered mes : built mes -> numbered (mes_events mes).
Proof.
  induction 1 as [| | mes sid r evs _ IH | |mes sid status now _ IH]; simpl; try done.
  - by apply numbered_append.
  - unfold UpdateSessionStatus. by destruct (list_find _ _) as [[??]|].
Qed.

(** X16.  In a store built from the empty one by its methods, no two events
    carry the same id: [AppendEvents] ends each id in the position the event
    takes in the store. *)
Theorem built_event_ids_unique mes :
  built mes -> NoDup (Event_ID <$> mes_events mes).
Proof.
  intros Hn%built_numbered. apply NoDup_alt. intros i j x Hi Hj.
  rewrite list_lookup_fmap in Hi, Hj.
  destruct (mes_events mes !! i) as [ei|] eqn:Ei; [|done].
  destruct (mes_events mes !! j) as [ej|] eqn:Ej; [|done].
  simpl in *. injection Hi as Hi. injection Hj as Hj.
  destruct (Hn _ _ Ei) as (s1 & r1 & H1). destruct (Hn _ _ Ej) as (s2 & r2 & H2).
  eapply eventID_index. by rewrite <- H1, <- H2, Hi, Hj.
Qed.

Lemma ofSession_eventID sid sid' r n e :
  ofSession sid (set_Event_ID e (eventID sid' r n))
  = String.prefix sid (eventID sid' r n)
    && bool_decide (String.length sid < String.length (eventID sid' r n))%nat.
Proof.
  unfold ofSession. simpl.
  assert (eventID sid' r n <> "") as Hne.
  { unfold eventID. destruct sid'; done. }
  apply String.eqb_neq in Hne. rewrite Hne. simpl.
  rewrite andb_comm. f_equal.
  destruct (String.prefix sid (eventID sid' r n)) eqn:Hp.
  - apply prefix_correct in Hp. rewrite Hp. apply String.eqb_refl.
  - apply String.eqb_neq. intros E. apply prefix_correct in E. congruence.
Qed.

Lemma eventID_longer sid r n : (String.length sid < String.length (eventID sid r n))%nat.
Proof. unfold eventID. rewrite length_append. simpl. lia. Qed.

(** X17.  After [AppendEvents] for a session, [GetEvents] for that session
    returns what it returned before followed by the appended events, in
    order, each stamped with its id.  The same holds for every session id
    that is a prefix of the session's id: an id is matched by its first
    characters only, so a session whose id begins another's sees the
    other's events too.  [fromRound] plays no part. *)
Theorem GetEvents_after_append mes sid sid' round events fromRound :
  String.prefix sid sid' = true ->
  (GetEvents (AppendEvents mes sid' round events).2 sid fromRound).1
  = (GetEvents mes sid fromRound).1
    ++ stamped sid' round (length (mes_events mes)) events.
Proof.
  intros Hp. unfold GetEvents, AppendEvents. simpl.
  rewrite appendEvent_fold, List.filter_app. f_equal.
  apply forallb_filter_id. apply forallb_forall. intros e He.
  apply list_elem_of_In, list_elem_of_lookup in He as [i Hi].
  unfold stamped in Hi. rewrite list_lookup_imap in Hi.
  destruct (events !! i) as [e0|]; [|done]. simpl in Hi. injection Hi as <-.
  rewrite ofSession_eventID.
  unfold eventID at 1. rewrite (prefix_append _ _ _ Hp). simpl.
  apply bool_decide_eq_true.
  pose proof (prefix_length _ _ Hp). pose proof (eventID_longer sid' round
    (length (mes_events mes) + i)). lia.
Qed.

(** X18.  Sessions whose ids do not begin one another are kept apart: what
    [GetEvents] returns for one is not changed by [AppendEvents] for the
    other.  Two different ids of the same length, such as two UUIDs, are of
    this kind. *)
Theorem GetEvents_other_session mes sid sid' round events fromRound :
  String.prefix sid sid' = false -> String.prefix sid' sid = false ->
  GetEvents (AppendEvents mes sid' round events).2 sid fromRound
  = GetEvents mes sid fromRound.
Proof.
  intros Hp Hp'. unfold GetEvents, AppendEvents. simpl.
  rewrite appendEvent_fold, List.filter_app. f_equal.
  rewrite <- (app_nil_r (List.filter _ (mes_events mes))) at 2. f_equal.
  assert (Hall : forall l, (forall e, In e l -> ofSession sid e = false) ->
                           List.filter (ofSession sid) l = []).
  { induction l as [|x l IH]; intros Hl; [done|]. simpl.
    rewrite (Hl x) by (by left). apply IH. intros e He. apply Hl. by right. }
  apply Hall. intros e He.
  apply list_elem_of_In, list_elem_of_lookup in He as [i Hi].
  unfold stamped in Hi. rewrite list_lookup_imap in Hi.
  destruct (events !! i) as [e0|]; [|done]. simpl in Hi. injection Hi as <-.
  rewrite ofSession_eventID.
  destruct (String.prefix sid (eventID sid' round _)) eqn:E; [|done].
  unfold eventID in E. apply prefix_append_cases in E as [E|E]; congruence.
Qed.

End StoreFacts.

Section SnapshotFacts.
Context {SJ : StateJSON}.

Lemma latest_step_eq sid latest snapshot :
  Snap_SessionID snapshot = sid ->
  latest_step sid latest snapshot
  = match latest with
    | None => Some snapshot
    | Some l => if bool_decide (Snap_Round l < Snap_Round snapshot) then Some snapshot
                else Some l
    end.
Proof. intros <-. unfold latest_step. by rewrite String.eqb_refl. Qed.

Lemma latest_step_ne sid latest snapshot :
  Snap_SessionID snapshot <> sid -> latest_step sid latest snapshot = latest.
Proof. intros H%String.eqb_neq. unfold latest_step. by rewrite H. Qed.

(** What the loop of [GetLatestSnapshot] holds after a run over [snaps]:
    nothing if the session has no snapshot there, and otherwise one of the
    session's snapshots whose round none of the others exceeds. *)
Lemma latest_fold sid snaps :
  match foldl (latest_step sid) None snaps with
  | None => Forall (fun s => Snap_SessionID s <> sid) snaps
  | Some l =>
      l ∈ snaps /\ Snap_SessionID l = sid
      /\ Forall (fun s => Snap_SessionID s = sid -> Snap_Round s <= Snap_Round l) snaps
  end.
Proof.
  induction snaps as [|s snaps IH] using rev_ind; [simpl; constructor|].
  rewrite foldl_app. simpl.
  destruct (decide (Snap_SessionID s = sid)) as [Hs|Hs].
  - rewrite latest_step_eq by done.
    destruct (foldl (latest_step sid) None snaps) as [l|].
    + destruct IH as (Hin & Hl & Hmax). case_bool_decide.
      * split_and!; [set_solver|done|]. apply Forall_app. split.
        -- eapply Forall_impl; [exact Hmax|]. simpl. intros x Hx Hxs.
           specialize (Hx Hxs). lia.
        -- by repeat constructor.
      * split_and!; [set_solver|done|]. apply Forall_app. split; [done|].
        repeat constructor. intros _. lia.
    + split_and!; [set_solver|done|]. apply Forall_app. split.
      * eapply Forall_impl; [exact IH|]. simpl. intros x Hx Hxs. done.
      * by repeat constructor.
  - rewrite latest_step_ne by done.
    destruct (foldl (latest_step sid) None snaps) as [l|].
    + destruct IH as (Hin & Hl & Hmax). split_and!; [set_solver|done|].
      apply Forall_app. split; [done|]. by repeat constructor.
    + apply Forall_app. split; [done|]. by repeat constructor.
Qed.

Lemma load_Marshal i sid r state now :
  load (mkSnapshot i sid r (Marshal state) now) = Loaded state.
Proof. unfold load. simpl. by rewrite Unmarshal_Marshal. Qed.

(** X19.  [GetLatestSnapshot] answers [nil] exactly when the session has no
    snapshot, and otherwise with a snapshot of that session whose round no
    other snapshot of the session exceeds. *)
Theorem GetLatestSnapshot_highest mes sid :
  (GetLatestSnapshot mes sid = NoSnapshot
   <-> Forall (fun s => Snap_SessionID s <> sid) (mes_snapshots mes))
  /\ (GetLatestSnapshot mes sid <> NoSnapshot ->
      exists l, l ∈ mes_snapshots mes /\ Snap_SessionID l = sid
                /\ GetLatestSnapshot mes sid = load l
                /\ Forall (fun s => Snap_SessionID s = sid -> Snap_Round s <= Snap_Round l)
                     (mes_snapshots mes)).
Proof.
  unfold GetLatestSnapshot. pose proof (latest_fold sid (mes_snapshots mes)) as H.
  destruct (foldl (latest_step sid) None (mes_snapshots mes)) as [l|].
  - destruct H as (Hin & Hl & Hmax). split.
    + split.
      * unfold load. destruct (Unmarshal (StateData l)); done.
      * intros Hall. rewrite Forall_forall in Hall. by destruct (Hall l Hin).
    + intros _. exists l. done.
  - split; [done|]. done.
Qed.

Lemma latest_after_save mes sid round state now :
  GetLatestSnapshot (SaveSnapshot mes sid round state now).2 sid
  = if decide (Forall (fun s => Snap_SessionID s = sid -> Snap_Round s < round)
                 (mes_snapshots mes))
    then Loaded state
    else GetLatestSnapshot mes sid.
Proof.
  unfold GetLatestSnapshot, SaveSnapshot. simpl. rewrite foldl_app. simpl.
  rewrite latest_step_eq by done.
  pose proof (latest_fold sid (mes_snapshots mes)) as H.
  destruct (foldl (latest_step sid) None (mes_snapshots mes)) as [l|].
  - destruct H as (Hin & Hl & Hmax). simpl. case_bool_decide as Hlt.
    + rewrite decide_True; [apply load_Marshal|].
      eapply Forall_impl; [exact Hmax|]. simpl. intros x Hx Hxs.
      specialize (Hx Hxs). lia.
    + rewrite decide_False; [done|]. intros Hall. rewrite Forall_forall in Hall.
      specialize (Hall l Hin Hl). lia.
  - rewrite decide_True; [apply load_Marshal|].
    eapply Forall_impl; [exact H|]. by simpl.
Qed.




(** [UpdateSessionStatus] fails exactly when no session has the id,
    and then leaves the store as it was.  Otherwise it writes the status and
    the time into the first session with that id and into no other, keeps
    that session's id, name and creation time, and leaves events and
    snapshots alone. *)
Lemma UpdateSessionStatus_first mes sid status now :
  (Forall (fun s => Session_ID s <> sid) (mes_sessions mes) ->
   UpdateSessionStatus mes sid status now
   = (Errorf ("session not found: " +:+ sid), mes))
  /\ (forall i s,
        mes_sessions mes !! i = Some s -> Session_ID s = sid ->
        (forall j y, mes_sessions mes !! j = Some y -> (j < i)%nat -> Session_ID y <> sid) ->
        UpdateSessionStatus mes sid status now
        = (Nil, mkMemoryEventStore (mes_events mes) (mes_snapshots mes)
                  (<[i := mkSession sid (Session_Name s) status (CreatedAt s) now]>
                     (mes_sessions mes)))).
Proof.
  unfold UpdateSessionStatus. split.
  - intros Hnone.
    assert (Hf : list_find (fun s => Session_ID s = sid) (mes_sessions mes) = None)
      by (by apply list_find_None).
    by rewrite Hf.
  - intros i s Hi Hs Hfirst.
    assert (Hf : list_find (fun s => Session_ID s = sid) (mes_sessions mes) = Some (i, s))
      by (by apply list_find_Some).
    rewrite Hf. unfold set_Status. by rewrite Hs.
Qed.

End SnapshotFacts.

(** * The state manager *)

(** [GetState] after [SetState] returns the state set for that
    session and what it returned before for any other; after [DeleteState]
    it reports the session as missing, with the zero state, and any other
    as before. *)
Lemma GetState_after sm k k' state :
  GetState (SetState sm k state) k'
  = (if decide (k = k') then (state, true) else GetState sm k')
  /\ GetState (DeleteState sm k) k'
     = (if decide (k = k') then (zeroState, false) else GetState sm k').
Proof.
  unfold GetState, SetState, DeleteState, StateManager in *. split.
  - destruct (decide (k = k')) as [->|Hne].
    + by rewrite lookup_insert_eq.
    + by rewrite lookup_insert_ne.
  - destruct (decide (k = k')) as [->|Hne].
    + by rewrite lookup_delete_eq.
    + by rewrite lookup_delete_ne.
Qed.

(** [GetStateCount] counts session ids, not calls: setting a state
    adds one only if the session had none, deleting takes one off only if
    the session had one. *)
Theorem GetStateCount_after sm k state :
  GetStateCount (SetState sm k state)
  = (if (GetState sm k).2 then GetStateCount sm else GetStateCount sm + 1)
  /\ GetStateCount (DeleteState sm k)
     = (if (GetState sm k).2 then GetStateCount sm - 1 else GetStateCount sm).
Proof.
  unfold GetStateCount, GetState, SetState, DeleteState, StateManager in *.
  destruct (sm !! k) as [s0|] eqn:E; simpl; split.
  - rewrite <- (insert_delete_id sm k s0 E) at 2.
    rewrite <- insert_delete_eq. rewrite !map_size_insert_None by apply lookup_delete_eq.
    done.
  - rewrite <- (insert_delete_id sm k s0 E) at 2.
    rewrite map_size_insert_None by apply lookup_delete_eq. lia.
  - rewrite map_size_insert_None by done. lia.
  - by rewrite delete_id.
Qed.

Lemma copyStates_lookup sm keys k :
  copyStates sm keys !! k = if decide (k ∈ keys) then sm !! k else None.
Proof.
  unfold copyStates. induction keys as [|x keys IH] using rev_ind.
  - cbn [foldl]. rewrite lookup_empty.
    destruct (decide (k ∈ [])) as [Hin|]; [by apply elem_of_nil in Hin|done].
  - rewrite foldl_app. cbn [foldl].
    assert (Hsnoc : k ∈ keys ++ [x] <-> k ∈ keys \/ k = x).
    { rewrite elem_of_app, list_elem_of_singleton. done. }
    unfold copyEntry at 1. unfold StateManager in *.
    destruct (decide (k = x)) as [->|Hne].
    + destruct (decide (x ∈ keys ++ [x])) as [_|Hnin]; [|tauto].
      destruct (sm !! x) as [v|] eqn:Ex.
      * by rewrite lookup_insert_eq.
      * rewrite IH. by destruct (decide (x ∈ keys)).
    + assert (forall m : gmap string State,
                match sm !! x with Some v => <[x:=v]> m | None => m end !! k = m !! k)
        as -> by (intros m; destruct (sm !! x); [by rewrite lookup_insert_ne|done]).
      rewrite IH.
      destruct (decide (k ∈ keys)), (decide (k ∈ keys ++ [x])); tauto.
Qed.

(** X23.  [GetAllStates] returns a map with exactly the sessions and states
    of the manager, in whatever order the range over the map visits the
    keys. *)
Theorem GetAllStates_copy sm keys :
  keys ≡ₚ (map_to_list sm).*1 ->
  copyStates sm keys = sm /\ GetAllStates sm = sm.
Proof.
  assert (Hcopy : forall ks, ks ≡ₚ (map_to_list sm).*1 -> copyStates sm ks = sm).
  { intros ks Hks. apply map_eq. intros k. rewrite copyStates_lookup.
    destruct (decide (k ∈ ks)) as [|Hnin]; [done|].
    destruct (sm !! k) as [v|] eqn:E; [|done].
    exfalso. apply Hnin. rewrite Hks.
    apply list_elem_of_fmap. exists (k, v). split; [done|].
    by apply elem_of_map_to_list. }
  intros Hk. split; [by apply Hcopy|]. by apply Hcopy.
Qed.
(** * The server *)

Section RollCheckFacts.
Context {RS : RandSource}.

(** The result of a roll check adds up: the roll is a d20, the total
    is the roll plus the modifier, and the check succeeds exactly when the
    total reaches the DC.  So a DC of at most the modifier plus 1 cannot be
    missed and a DC above the modifier plus 20 cannot be met, whatever the
    clock that seeds the die shows.  Without a session header, or for a
    session the server does not hold, the modifier is 0. *)
Theorem handleRollCheck_adds_up sm sessionID req now :
  let res := handleRollCheck sm sessionID req now in
  1 <= Roll res <= 20
  /\ Total_ res = Roll res + Modifier res
  /\ (Success res = true <-> DC req <= Total_ res)
  /\ (DC req <= Modifier res + 1 -> Success res = true)
  /\ (Modifier res + 20 < DC req -> Success res = false)
  /\ (sessionID = "" \/ (GetState sm sessionID).2 = false -> Modifier res = 0).
Proof.
  cbv zeta. unfold handleRollCheck. cbn [Roll Total_ Modifier Success].
  pose proof (RollD20_range (NewSeededRNG now)) as Hd.
  set (d := fst (RollD20 (NewSeededRNG now))) in *.
  set (m := if negb (String.eqb sessionID "") then _ else 0).
  split; [done|]. split; [done|]. split; [apply bool_decide_eq_true|].
  split; [intros; apply bool_decide_eq_true; lia|].
  split; [intros; apply bool_decide_eq_false; lia|].
  intros [->|Hno]; [done|]. subst m.
  destruct (negb _); [|done]. destruct (GetState sm sessionID) as [st ex].
  simpl in Hno. by rewrite Hno.
Qed.

End RollCheckFacts.

Section ScenarioFacts.
Context {RS : RandSource} {MR : MapRange} {SS : SortSlice} {US : UUIDSource}.

Lemma convertWeapons_drawn ws : forall n, (n <= (convertWeapons ws n).2)%nat.
Proof.
  induction ws as [|w ws IH]; intros n; simpl; [done|].
  specialize (IH (S n)). destruct (convertWeapons ws (S n)). simpl in *. lia.
Qed.

Lemma convertAbilities_drawn abs : forall n, (n <= (convertAbilities abs n).2)%nat.
Proof.
  induction abs as [|a abs IH]; intros n; simpl; [done|].
  specialize (IH (S n)). destruct (convertAbilities abs (S n)). simpl in *. lia.
Qed.

Lemma convertItems_drawn its : forall n, (n <= (convertItems its n).2)%nat.
Proof.
  induction its as [|i its IH]; intros n; simpl; [done|].
  specialize (IH (S n)). destruct (convertItems its (S n)). simpl in *. lia.
Qed.

Lemma convertWeapons_length ws : forall n, length (convertWeapons ws n).1 = length ws.
Proof.
  induction ws as [|w ws IH]; intros n; simpl; [done|].
  specialize (IH (S n)). destruct (convertWeapons ws (S n)). simpl in *. lia.
Qed.
Lemma convertAbilities_length abs : forall n,
  length (convertAbilities abs n).1 = length abs.
Proof.
  induction abs as [|a abs IH]; intros n; simpl; [done|].
  specialize (IH (S n)). destruct (convertAbilities abs (S n)). simpl in *. lia.
Qed.
Lemma convertItems_length its : forall n, length (convertItems its n).1 = length its.
Proof.
  induction its as [|i its IH]; intros n; simpl; [done|].
  specialize (IH (S n)). destruct (convertItems its (S n)). simpl in *. lia.
Qed.

Lemma convertCharacter_spec sc b n :
  let '(c, n') := convertScenarioCharacterToCharacter sc b n in
  Char_ID c = uuid n /\ (n < n')%nat /\ converted sc b c.
Proof.
  unfold convertScenarioCharacterToCharacter, NewID.
  pose proof (convertWeapons_drawn (SC_Weapons sc) (S n)) as H1.
  pose proof (convertWeapons_length (SC_Weapons sc) (S n)) as L1.
  destruct (convertWeapons (SC_Weapons sc) (S n)) as [ws n1]. simpl in H1, L1.
  pose proof (convertAbilities_drawn (SC_Abilities sc) n1) as H2.
  pose proof (convertAbilities_length (SC_Abilities sc) n1) as L2.
  destruct (convertAbilities (SC_Abilities sc) n1) as [abs n2]. simpl in H2, L2.
  pose proof (convertItems_drawn (SC_Items sc) n2) as H3.
  pose proof (convertItems_length (SC_Items sc) n2) as L3.
  destruct (convertItems (SC_Items sc) n2) as [its n3]. simpl in H3, L3.
  split; [done|]. split; [lia|]. by repeat split.
Qed.

(** The characters of one of the two loops: one per scenario character, in
    order, with identifiers drawn at increasing positions of the source. *)
Lemma convertAll_spec scs b : forall n,
  let '(cs, n') := convertAll scs b n in
  (n <= n')%nat
  /\ Forall2 (fun sc c => converted sc b c) scs cs
  /\ exists ks, Char_ID <$> cs = uuid <$> ks
                /\ Forall (fun k => n <= k < n')%nat ks /\ NoDup ks.
Proof.
  induction scs as [|sc scs IH]; intros n; simpl.
  - split; [done|]. split; [constructor|]. exists []. by repeat constructor.
  - pose proof (convertCharacter_spec sc b n) as Hc.
    destruct (convertScenarioCharacterToCharacter sc b n) as [c n1].
    destruct Hc as (Hid & Hn & Hconv).
    specialize (IH n1). destruct (convertAll scs b n1) as [cs n2].
    destruct IH as (Hle & Hall & ks & Hks & Hrange & Hnd).
    split; [lia|]. split; [by constructor|].
    exists (n :: ks). split; [by rewrite !fmap_cons, Hid, Hks|]. split.
    + constructor; [lia|]. eapply Forall_impl; [exact Hrange|]. simpl. lia.
    + constructor; [|done]. intros Hin. rewrite Forall_forall in Hrange.
      apply Hrange in Hin. lia.
Qed.

Lemma ConvertScenarioToState_Characters scenario seed n :
  Characters (ConvertScenarioToState scenario seed n).1
  = (convertAll (Players scenario) true n).1
    ++ (convertAll (Enemies scenario) false (convertAll (Players scenario) true n).2).1.
Proof.
  unfold ConvertScenarioToState.
  destruct (convertAll (Players scenario) true n) as [ps n1]. simpl.
  destruct (convertAll (Enemies scenario) false n1) as [es n2]. done.
Qed.

Lemma ConvertScenarioToState_CreateInitialState scenario seed n :
  (ConvertScenarioToState scenario seed n).1
  = CreateInitialState (convertAll (Players scenario) true n).1
      (convertAll (Enemies scenario) false (convertAll (Players scenario) true n).2).1
      seed.
Proof.
  unfold ConvertScenarioToState, CreateInitialState.
  destruct (convertAll (Players scenario) true n) as [ps n1]. simpl.
  destruct (convertAll (Enemies scenario) false n1) as [es n2]. done.
Qed.

Lemma ConvertScenarioToState_converted scenario seed n :
  Forall2 (fun '(sc, b) c => converted sc b c)
    (((fun sc => (sc, true)) <$> Players scenario)
     ++ ((fun sc => (sc, false)) <$> Enemies scenario))
    (Characters (ConvertScenarioToState scenario seed n).1).
Proof.
  rewrite ConvertScenarioToState_Characters.
  pose proof (convertAll_spec (Players scenario) true n) as Hp.
  destruct (convertAll (Players scenario) true n) as [ps n1]. cbn [fst snd].
  pose proof (convertAll_spec (Enemies scenario) false n1) as He.
  destruct (convertAll (Enemies scenario) false n1) as [es n2]. cbn [fst snd].
  destruct Hp as (_ & Hp & _). destruct He as (_ & He & _).
  apply Forall2_app; apply Forall2_fmap_l; [exact Hp|exact He].
Qed.

Lemma ConvertScenarioToState_keeps_wellformed scenario seed n :
  Players scenario ++ Enemies scenario <> [] ->
  wellformed (ConvertScenarioToState scenario seed n).1.
Proof.
  intros Hne. pose proof (ConvertScenarioToState_converted scenario seed n) as Hconv.
  split.
  - rewrite ConvertScenarioToState_CreateInitialState.
    apply CreateInitialState_pointed.
    rewrite ConvertScenarioToState_Characters in Hconv.
    apply Forall2_length in Hconv. rewrite length_app, !length_fmap in Hconv.
    intros E. rewrite E in Hconv. simpl in Hconv.
    apply (f_equal length) in E. rewrite length_app in E. simpl in E.
    destruct (Players scenario), (Enemies scenario); simpl in *; try done; lia.
  - clear Hne. induction Hconv as [|[sc b] c ? ? Hc _ IH]; constructor; [|done].
    destruct Hc as (_ & _ & _ & _ & -> & _). done.
Qed.

(** X25.  The state [ConvertScenarioToState] builds has one character per
    scenario character, players first, each with the name, stats and
    position of the scenario, the side of its list and an empty cooldown
    map that is not nil.  If the scenario has any character at all the state
    is well-formed, so no resolution from it can panic. *)
Theorem ConvertScenarioToState_wellformed scenario seed n :
  let s := (ConvertScenarioToState scenario seed n).1 in
  Forall2 (fun '(sc, b) c => converted sc b c)
    (((fun sc => (sc, true)) <$> Players scenario)
     ++ ((fun sc => (sc, false)) <$> Enemies scenario))
    (Characters s)
  /\ (Players scenario ++ Enemies scenario <> [] ->
      wellformed s /\ forall a seed', exists r, ApplyAction s a seed' = Ok r).
Proof.
  cbv zeta. split; [apply ConvertScenarioToState_converted|].
  intros Hne. pose proof (ConvertScenarioToState_keeps_wellformed scenario seed n Hne) as Hw.
  split; [done|]. intros a seed'.
  destruct (ApplyAction_keeps_wellformed _ a seed' Hw) as (r & Hr & _). eauto.
Qed.

(** X26.  If [uuid.New] never hands out the same identifier twice, the
    characters of the state [ConvertScenarioToState] builds have ids that
    differ from one another, and so has the turn order. *)
Theorem ConvertScenarioToState_distinct_ids scenario seed n :
  Inj (=) (=) uuid ->
  let s := (ConvertScenarioToState scenario seed n).1 in
  NoDup (Char_ID <$> Characters s) /\ NoDup (TurnOrder s).
Proof.
  intros Hinj. cbv zeta.
  assert (Hnd : NoDup (Char_ID <$> Characters (ConvertScenarioToState scenario seed n).1)).
  { rewrite ConvertScenarioToState_Characters.
    pose proof (convertAll_spec (Players scenario) true n) as Hp.
    destruct (convertAll (Players scenario) true n) as [ps n1]. cbn [fst snd].
    pose proof (convertAll_spec (Enemies scenario) false n1) as He.
    destruct (convertAll (Enemies scenario) false n1) as [es n2]. cbn [fst snd].
    destruct Hp as (_ & _ & kp & Hkp & Hrp & Hndp).
    destruct He as (_ & _ & ke & Hke & Hre & Hnde).
    rewrite fmap_app, Hkp, Hke, <- fmap_app.
    apply NoDup_fmap_2; [done|]. apply NoDup_app. split; [done|]. split; [|done].
    intros k Hk1 Hk2. rewrite Forall_forall in Hrp, Hre.
    apply Hrp in Hk1. apply Hre in Hk2. lia. }
  split; [done|].
  rewrite ConvertScenarioToState_CreateInitialState in *.
  assert (Hperm : TurnOrder (CreateInitialState
                    (convertAll (Players scenario) true n).1
                    (convertAll (Enemies scenario) false
                       (convertAll (Players scenario) true n).2).1 seed)
                  ≡ₚ Char_ID <$> Characters (CreateInitialState
                    (convertAll (Players scenario) true n).1
                    (convertAll (Enemies scenario) false
                       (convertAll (Players scenario) true n).2).1 seed)).
  { unfold CreateInitialState. simpl.
    rewrite sort_slice_perm. by rewrite rollInitiatives_ids. }
  by rewrite Hperm.
Qed.

End ScenarioFacts.

Section GameFacts.
Context {RS : RandSource} {MR : MapRange} {SS : SortSlice} {US : UUIDSource}
        {SJ : StateJSON}.


Lemma requestedAction_statuses state currentChar reqAction status msg :
  requestedAction state currentChar reqAction = Answers status msg ->
  msg = "No valid target" \/ msg = "Unknown action".
Proof.
  unfold requestedAction. repeat case_match; intros; simplify_eq; auto.
Qed.

Lemma handleGameAction_keeps_healthy srv sessionID reqAction now stamp :
  healthy srv ->
  exists answer srv',
    handleGameAction srv sessionID reqAction now stamp = Served (answer, srv')
    /\ healthy srv'
    /\ answer <> Answers 400 "No current character".
Proof.
  intros Hh. unfold handleGameAction, GetState.
  destruct (stateManager srv !! sessionID) as [state|] eqn:Hs; simpl.
  - assert (Hw : wellformed state) by (by eapply Hh).
    destruct (GetCurrentCharacter_pointed state (proj1 Hw)) as (i & c & -> & _).
    destruct (requestedAction state c reqAction) as [action|status msg] eqn:Hr.
    + destruct (ApplyAction_keeps_wellformed state action now Hw) as (r & -> & Hw').
      eexists _, _. split; [done|]. split; [|done].
      unfold healthy, SetState. simpl. by apply map_Forall_insert_2.
    + eexists _, _. split; [done|]. split; [done|].
      apply requestedAction_statuses in Hr as [->| ->]; done.
  - eexists _, _. split; [done|]. split; done.
Qed.

(** X28.  On a server whose sessions all hold well-formed states,
    [handleGameAction] always answers: it does not panic, whatever the
    session, the request and the clock, it never answers "No current
    character", and the sessions hold well-formed states afterwards. *)
Theorem handleGameAction_healthy srv sessionID reqAction now stamp :
  healthy srv ->
  exists answer srv',
    handleGameAction srv sessionID reqAction now stamp = Served (answer, srv')
    /\ healthy srv'
    /\ answer <> Answers 400 "No current character".
Proof. apply handleGameAction_keeps_healthy. Qed.

End GameFacts.

Section StartFacts.
Context {RS : RandSource} {MR : MapRange} {SS : SortSlice} {US : UUIDSource}
        {SJ : StateJSON}.


End StartFacts.

Section MapFacts.

Lemma cells_range x y : (x, y) ∈ cells <-> (-2 <= x <= 2 /\ -2 <= y <= 2).
Proof.
  split.
  - intros H. unfold cells, axis in H. simpl in H.
    repeat (apply elem_of_cons in H as [H|H]; [injection H as -> ->; lia|]).
    by apply elem_of_nil in H.
  - intros [Hx Hy].
    assert (x = -2 \/ x = -1 \/ x = 0 \/ x = 1 \/ x = 2) as Hxs by lia.
    assert (y = -2 \/ y = -1 \/ y = 0 \/ y = 1 \/ y = 2) as Hys by lia.
    destruct_or!; subst; by_compute.
Qed.

Lemma renderOccupant_Panic c p :
  renderOccupant c = Panic p <-> p = DivideByZero /\ MaxHP (Stats c) = 0.
Proof.
  unfold renderOccupant. destruct (Z.eqb_spec (MaxHP (Stats c)) 0) as [E|E].
  - split; [by intros [= <-]|by intros [-> _]].
  - split; [done|by intros [_ ?]].
Qed.

Lemma renderCell_Panic state x y p :
  renderCell state x y = Panic p
  <-> p = DivideByZero
      /\ exists i c, charAt state x y = Some (i, c) /\ MaxHP (Stats c) = 0.
Proof.
  unfold renderCell. destruct (charAt state x y) as [[i c]|].
  - destruct (renderOccupant c) as [html|q] eqn:E; simpl.
    + split; [done|]. intros (-> & i' & c' & [= <- <-] & Hz).
      assert (renderOccupant c = Panic DivideByZero) by (by apply renderOccupant_Panic).
      congruence.
    + apply renderOccupant_Panic in E as [-> Hz]. split.
      * intros [= <-]. eauto.
      * by intros [-> _].
  - simpl. split; [done|]. by intros (_ & i & c & ? & _).
Qed.

Lemma renderCells_Panic state cs : forall p,
  renderCells state cs = Panic p
  <-> p = DivideByZero
      /\ exists x y i c, (x, y) ∈ cs /\ charAt state x y = Some (i, c)
                         /\ MaxHP (Stats c) = 0.
Proof.
  induction cs as [|[x y] cs IH]; intros p; simpl.
  - split; [done|]. intros (_ & x & y & i & c & Hin & _). by apply elem_of_nil in Hin.
  - destruct (renderCell state x y) as [cell|q] eqn:E; simpl.
    + destruct (renderCells state cs) as [html|q] eqn:E'; simpl.
      * split; [done|]. intros (-> & x' & y' & i & c & Hin & Hc & Hz).
        apply elem_of_cons in Hin as [[= -> ->]|Hin].
        -- assert (renderCell state x y = Panic DivideByZero)
             by (apply renderCell_Panic; eauto).
           congruence.
        -- assert (Ok html = Panic DivideByZero :> result string) as Hq; [|done].
           apply IH. split; [done|]. by exists x', y', i, c.
      * pose proof (proj1 (IH q) eq_refl) as (-> & x' & y' & i & c & Hin & Hc & Hz).
        split.
        -- intros [= <-]. split; [done|]. exists x', y', i, c. split; [by right|done].
        -- by intros (-> & _).
    + apply renderCell_Panic in E as (-> & i & c & Hc & Hz). split.
      * intros [= <-]. split; [done|]. exists x, y, i, c. split; [by left|done].
      * by intros [-> _].
Qed.

(** X30.  [renderCombatMap] panics, with an integer division by zero,
    exactly when the first character listed at some cell of the 5 by 5 grid
    has a maximum of 0 hit points; characters outside the grid, and
    characters behind another one on the same cell, are never looked at.
    In every other case it returns the page fragment. *)
Theorem renderCombatMap_panics state :
  (forall p, renderCombatMap state = Panic p -> p = DivideByZero)
  /\ (renderCombatMap state = Panic DivideByZero
      <-> exists x y i c, -2 <= x <= 2 /\ -2 <= y <= 2
                          /\ charAt state x y = Some (i, c) /\ MaxHP (Stats c) = 0).
Proof.
  unfold renderCombatMap. split.
  - intros p H. by apply renderCells_Panic in H as [-> _].
  - rewrite renderCells_Panic. split.
    + intros (_ & x & y & i & c & Hin%cells_range & Hc & Hz). exists x, y, i, c. tauto.
    + intros (x & y & i & c & Hx & Hy & Hc & Hz). split; [done|].
      exists x, y, i, c. split; [by apply cells_range|done].
Qed.

End MapFacts.
(** * The TypeScript dice *)

Lemma all_from_spec count : forall base f,
  all_from count base f = true ->
  forall z, base <= z < base + Zpos count -> f z = true.
Proof.
  induction count as [half IH | half IH |]; intros base f H z Hz; cbn [all_from] in H.
  - apply andb_prop in H as [H H2]. apply andb_prop in H as [H0 H1].
    destruct (decide (z = base)) as [-> | Hne]; [exact H0 |].
    destruct (decide (z < base + 1 + Zpos half)).
    + apply (IH _ _ H1). lia.
    + apply (IH _ _ H2). lia.
  - apply andb_prop in H as [H1 H2].
    destruct (decide (z < base + Zpos half)).
    + apply (IH _ _ H1). lia.
    + apply (IH _ _ H2). lia.
  - assert (z = base) as -> by lia. exact H.
Qed.

(** ** Doubles that are integers *)

Lemma digits_pos p : 1 <= digits p.
Proof. unfold digits. lia. Qed.

Lemma digits_bounds p : 2 ^ (digits p - 1) <= Zpos p < 2 ^ digits p.
Proof.
  unfold digits. induction p as [p IH | p IH |]; cbn [SpecFloat.digits2_pos].
  - rewrite Pos2Z.inj_succ.
    replace (Z.succ (Zpos (SpecFloat.digits2_pos p)) - 1)
      with (Z.succ (Zpos (SpecFloat.digits2_pos p) - 1)) by lia.
    rewrite !Z.pow_succ_r by lia. lia.
  - rewrite Pos2Z.inj_succ.
    replace (Z.succ (Zpos (SpecFloat.digits2_pos p)) - 1)
      with (Z.succ (Zpos (SpecFloat.digits2_pos p) - 1)) by lia.
    rewrite !Z.pow_succ_r by lia. lia.
  - cbn. lia.
Qed.

Lemma digits_unique p d : 2 ^ (d - 1) <= Zpos p < 2 ^ d -> digits p = d.
Proof.
  intros [Hl Hu]. pose proof (digits_bounds p) as [Hl' Hu']. pose proof (digits_pos p).
  destruct (Z.lt_trichotomy (digits p) d) as [Hlt | [Heq | Hgt]]; [| exact Heq |].
  - assert (2 ^ digits p <= 2 ^ (d - 1)) by (apply Z.pow_le_mono_r; lia). lia.
  - assert (0 <= d).
    { destruct (decide (0 <= d)); [done |]. rewrite Z.pow_neg_r in Hu by lia. lia. }
    assert (2 ^ d <= 2 ^ (digits p - 1)) by (apply Z.pow_le_mono_r; lia). lia.
Qed.

Lemma iter_xO m n : Zpos (Pos.iter xO m n) = Zpos m * 2 ^ Zpos n.
Proof.
  induction n as [| n IH] using Pos.peano_ind.
  - cbn. lia.
  - rewrite Pos.iter_succ, Pos2Z.inj_xO, IH, Pos2Z.inj_succ, Z.pow_succ_r by lia. lia.
Qed.

(** A mantissa of 53 bits is not rounded. *)
Lemma binary_round_aux_normal s m e :
  digits m = 53 -> -1074 <= e <= 971 ->
  SpecFloat.binary_round_aux FloatOps.prec FloatOps.emax s (Zpos m) e SpecFloat.loc_Exact
  = SpecFloat.S754_finite s m e.
Proof.
  unfold digits. intros Hd He.
  unfold SpecFloat.binary_round_aux, SpecFloat.shr_fexp, SpecFloat.fexp, SpecFloat.emin.
  cbn [SpecFloat.Zdigits2 SpecFloat.shr_record_of_loc]. rewrite Hd.
  change FloatOps.prec with 53. change FloatOps.emax with 1024.
  replace (Z.max (53 + e - 53) (3 - 1024 - 53) - e) with 0 by lia.
  cbn [SpecFloat.shr SpecFloat.shr_m SpecFloat.loc_of_shr_record
       SpecFloat.round_nearest_even SpecFloat.Zdigits2 SpecFloat.shr_record_of_loc].
  rewrite Hd.
  replace (Z.max (53 + e - 53) (3 - 1024 - 53) - e) with 0 by lia.
  cbn [SpecFloat.shr SpecFloat.shr_m].
  destruct (Z.leb_spec e (1024 - 53)); [reflexivity | lia].
Qed.

(** A mantissa of at most 53 bits is only shifted. *)
Lemma binary_round_exact s m e :
  digits m <= 53 -> -1074 <= digits m + e - 53 <= 971 ->
  exists m',
    SpecFloat.binary_round FloatOps.prec FloatOps.emax s m e
    = SpecFloat.S754_finite s m' (digits m + e - 53)
    /\ Zpos m' = Zpos m * 2 ^ (53 - digits m).
Proof.
  intros Hd He. unfold SpecFloat.binary_round, SpecFloat.fexp, SpecFloat.emin.
  fold (digits m). change FloatOps.prec with 53. change FloatOps.emax with 1024.
  replace (Z.max (digits m + e - 53) (3 - 1024 - 53)) with (digits m + e - 53) by lia.
  unfold SpecFloat.shl_align.
  replace (digits m + e - 53 - e) with (digits m - 53) by lia.
  destruct (digits m - 53) as [| q | q] eqn:Hq; [| lia |].
  - exists m. split.
    + replace (digits m + e - 53) with e by lia.
      apply binary_round_aux_normal; lia.
    + replace (53 - digits m) with 0 by lia. lia.
  - exists (Pos.iter xO m q). split.
    + apply binary_round_aux_normal; [| lia].
      apply digits_unique. rewrite iter_xO.
      pose proof (digits_bounds m) as [Hl Hu].
      replace 53 with (digits m + Zpos q) at 2 by lia.
      replace (53 - 1) with (digits m - 1 + Zpos q) by lia.
      pose proof (digits_pos m).
      rewrite !Z.pow_add_r by lia. nia.
    + rewrite iter_xO. f_equal. f_equal. lia.
Qed.

(** The double of a positive integer below 2^53. *)
Lemma Prim2SF_num p :
  Zpos p < 2 ^ 53 ->
  exists m,
    FloatOps.Prim2SF (TS.num (Zpos p)) = SpecFloat.S754_finite false m (digits p - 53)
    /\ Zpos m = Zpos p * 2 ^ (53 - digits p).
Proof.
  intros Hp. unfold TS.num. rewrite FloatAxioms.of_uint63_spec.
  rewrite Uint63.of_Z_spec, Z.mod_small by (change Uint63.wB with (2 ^ 63); lia).
  cbn [SpecFloat.binary_normalize].
  assert (digits p <= 53).
  { pose proof (digits_bounds p) as [Hl Hu].
    destruct (decide (digits p <= 53)); [done |].
    assert (2 ^ 53 <= 2 ^ (digits p - 1)) by (apply Z.pow_le_mono_r; lia). lia. }
  pose proof (digits_pos p).
  destruct (binary_round_exact false p 0) as (m & Hm & Hv); [lia | lia |].
  exists m. split; [| exact Hv]. rewrite Hm. f_equal; lia.
Qed.

Lemma digits_mono p q : (p <= q)%positive -> digits p <= digits q.
Proof.
  intros Hpq. pose proof (digits_bounds p) as [Hl _]. pose proof (digits_bounds q) as [_ Hu].
  pose proof (digits_pos q).
  destruct (decide (digits p <= digits q)); [done |].
  assert (2 ^ digits q <= 2 ^ (digits p - 1)) by (apply Z.pow_le_mono_r; lia). lia.
Qed.

Lemma digits_shift p k q :
  0 <= k -> Zpos q = Zpos p * 2 ^ k -> digits q = digits p + k.
Proof.
  intros Hk Hq. apply digits_unique. rewrite Hq.
  pose proof (digits_bounds p) as [Hl Hu]. pose proof (digits_pos p).
  replace (digits p + k - 1) with (digits p - 1 + k) by lia.
  rewrite !Z.pow_add_r by lia.
  assert (0 < 2 ^ k) by (apply Z.pow_pos_nonneg; lia). nia.
Qed.

(** Scaling the double of an integer back by the power of two it holds. *)
Lemma ldexp_num r k :
  0 <= r -> 0 <= k -> r * 2 ^ k < 2 ^ 53 ->
  FloatOps.Z.ldexp (TS.num (r * 2 ^ k)) (- k) = TS.num r.
Proof.
  intros Hr Hk Hlt. apply FloatAxioms.Prim2SF_inj. rewrite FloatLemmas.Z_ldexp_spec.
  assert (0 < 2 ^ k) by (apply Z.pow_pos_nonneg; lia).
  destruct r as [| pr | pr]; [| | lia].
  - reflexivity.
  - destruct (Zpos pr * 2 ^ k) as [| pR | pR] eqn:HR; [lia | | lia].
    pose proof (digits_shift pr k pR Hk (eq_sym HR)) as HdR. pose proof (digits_pos pr).
    destruct (Prim2SF_num pR Hlt) as (mR & -> & HmR).
    destruct (Prim2SF_num pr) as (mr & -> & Hmr); [nia |].
    assert (digits pR <= 53).
    { pose proof (digits_bounds pR) as [Hl Hu].
      destruct (decide (digits pR <= 53)); [done |].
      assert (2 ^ 53 <= 2 ^ (digits pR - 1)) by (apply Z.pow_le_mono_r; lia). lia. }
    assert (digits mR = 53).
    { rewrite (digits_shift pR (53 - digits pR) mR); [lia | lia | exact HmR]. }
    cbn [SpecFloat.SFldexp].
    destruct (binary_round_exact false mR (digits pR - 53 + - k)) as (m' & -> & Hm'); [lia | lia |].
    f_equal; [| lia].
    apply Pos2Z.inj_pos. rewrite Hm', HmR, Hmr, <- HR, HdR.
    replace (53 - digits mR) with 0 by lia.
    replace (53 - digits pr) with (k + (53 - (digits pr + k))) by lia.
    rewrite Z.pow_add_r by lia. lia.
Qed.

(** The remainder by 233280 of a double that is a positive integer is the
    integers' remainder. *)
Lemma js_rem_num A :
  0 < A < 2 ^ 53 ->
  TS.js_rem (TS.num A) (TS.num 233280) = TS.num (Z.rem A 233280).
Proof.
  intros [H0 Hlt]. destruct A as [| p | p]; [lia | | lia].
  destruct (Prim2SF_num p Hlt) as (ma & Ha & Hma).
  assert (Hb : FloatOps.Prim2SF (TS.num 233280)
               = SpecFloat.S754_finite false 8015439766487040 (-35))
    by (vm_compute; reflexivity).
  unfold TS.js_rem. rewrite Ha, Hb. cbv beta iota zeta.
  pose proof (digits_pos p). 
  assert (Hd : digits p <= 53).
  { pose proof (digits_bounds p) as [Hl Hu].
    destruct (decide (digits p <= 53)); [done |].
    assert (2 ^ 53 <= 2 ^ (digits p - 1)) by (apply Z.pow_le_mono_r; lia). lia. }
  set (e := Z.min (digits p - 53) (-35)).
  assert (He : e = - (- e)) by lia.
  assert (Hk : 35 <= - e /\ 53 - digits p <= - e /\ (- e = 35 \/ - e = 53 - digits p))
    by (unfold e; lia).
  rewrite !Z.shiftl_mul_pow2 by lia. rewrite Hma.
  replace (Z.pos p * 2 ^ (53 - digits p) * 2 ^ (digits p - 53 - e))
    with (Z.pos p * 2 ^ (- e)).
  2:{ rewrite <- Z.mul_assoc, <- Z.pow_add_r by lia. f_equal. f_equal. lia. }
  replace (8015439766487040 * 2 ^ (-35 - e)) with (233280 * 2 ^ (- e)).
  2:{ replace (- e) with (35 + (-35 - e)) by lia. rewrite Z.pow_add_r by lia.
      change (2 ^ 35) with 34359738368. lia. }
  assert (0 < 2 ^ (- e)) by (apply Z.pow_pos_nonneg; lia).
  rewrite Z.mul_rem_distr_r by lia.
  pose proof (Z.rem_bound_pos (Zpos p) 233280 ltac:(lia) ltac:(lia)) as Hr.
  assert (Hrp : Z.rem (Z.pos p) 233280 <= Z.pos p) by (apply Z.rem_le; lia).
  rewrite He at 2. apply ldexp_num; [lia | lia |].
  destruct (Z.rem (Zpos p) 233280) as [| pr | pr] eqn:Hpr; [lia | | lia].
  pose proof (digits_bounds pr) as [Hl Hu]. pose proof (digits_pos pr).
  assert (digits pr <= digits p) by (apply digits_mono; lia).
  assert (digits pr <= 18).
  { destruct (decide (digits pr <= 18)); [done |].
    assert (2 ^ 18 <= 2 ^ (digits pr - 1)) by (apply Z.pow_le_mono_r; lia). lia. }
  assert (2 ^ (digits pr) * 2 ^ (- e) <= 2 ^ 53).
  { rewrite <- Z.pow_add_r by lia. apply Z.pow_le_mono_r; lia. }
  nia.
Qed.

(** ** Products and sums of doubles that are integers *)

Lemma iter_shr_1 n : forall m,
  SpecFloat.iter_pos SpecFloat.shr_1 n
    (SpecFloat.Build_shr_record (Zpos (Pos.iter xO m n)) false false)
  = SpecFloat.Build_shr_record (Zpos m) false false.
Proof.
  induction n as [n IH | n IH |]; intros m; cbn [SpecFloat.iter_pos Pos.iter].
  - cbn [SpecFloat.shr_1 orb]. rewrite IH, IH. reflexivity.
  - rewrite IH, IH. reflexivity.
  - reflexivity.
Qed.

Lemma digits_le_53 p : Zpos p < 2 ^ 53 -> digits p <= 53.
Proof.
  intros Hp. pose proof (digits_bounds p) as [Hl Hu].
  destruct (decide (digits p <= 53)); [done |].
  assert (2 ^ 53 <= 2 ^ (digits p - 1)) by (apply Z.pow_le_mono_r; lia). lia.
Qed.

(** A mantissa that ends in enough zeros is only shifted. *)
Lemma binary_round_aux_shift s m n e :
  digits m = 53 -> -1074 <= e + Zpos n <= 971 ->
  SpecFloat.binary_round_aux FloatOps.prec FloatOps.emax s (Zpos (Pos.iter xO m n)) e
    SpecFloat.loc_Exact
  = SpecFloat.S754_finite s m (e + Zpos n).
Proof.
  intros Hd He.
  assert (HdP : digits (Pos.iter xO m n) = 53 + Zpos n).
  { rewrite (digits_shift m (Zpos n)); [lia | lia | apply iter_xO]. }
  unfold digits in *.
  unfold SpecFloat.binary_round_aux, SpecFloat.shr_fexp, SpecFloat.fexp, SpecFloat.emin.
  cbn [SpecFloat.Zdigits2 SpecFloat.shr_record_of_loc]. rewrite HdP.
  change FloatOps.prec with 53. change FloatOps.emax with 1024.
  replace (Z.max (53 + Zpos n + e - 53) (3 - 1024 - 53) - e) with (Zpos n) by lia.
  cbn [SpecFloat.shr]. rewrite iter_shr_1.
  cbn [SpecFloat.shr_m SpecFloat.loc_of_shr_record SpecFloat.round_nearest_even
       SpecFloat.Zdigits2 SpecFloat.shr_record_of_loc].
  rewrite Hd.
  replace (Z.max (53 + (e + Zpos n) - 53) (3 - 1024 - 53) - (e + Zpos n)) with 0 by lia.
  cbn [SpecFloat.shr SpecFloat.shr_m].
  destruct (Z.leb_spec (e + Zpos n) (1024 - 53)); [reflexivity | lia].
Qed.

(** The mantissa [S] over the exponent [-k] is the integer [c]: rounding it
    gives the double of [c]. *)
Lemma binary_round_aux_int s S k c :
  0 <= k -> Zpos S = Zpos c * 2 ^ k -> Zpos c < 2 ^ 53 -> 53 <= digits c + k ->
  exists m,
    SpecFloat.binary_round_aux FloatOps.prec FloatOps.emax s (Zpos S) (- k)
      SpecFloat.loc_Exact
    = SpecFloat.S754_finite s m (digits c - 53)
    /\ Zpos m = Zpos c * 2 ^ (53 - digits c).
Proof.
  intros Hk HS Hc Hd. pose proof (digits_le_53 c Hc). pose proof (digits_pos c).
  pose proof (digits_shift c k S Hk HS) as HdS.
  destruct (digits c + k - 53) as [| n | n] eqn:Hn; [| | lia].
  - exists S. split.
    + replace (digits c - 53) with (- k) by lia. apply binary_round_aux_normal; lia.
    + rewrite HS. f_equal. f_equal. lia.
  - destruct (Zpos c * 2 ^ (53 - digits c)) as [| M | M] eqn:HM;
      [ assert (0 < 2 ^ (53 - digits c)) by (apply Z.pow_pos_nonneg; lia); lia | |
        assert (0 < 2 ^ (53 - digits c)) by (apply Z.pow_pos_nonneg; lia); lia ].
    exists M. split; [| reflexivity].
    assert (S = Pos.iter xO M n) as ->.
    { apply Pos2Z.inj_pos. rewrite iter_xO, <- HM, HS, <- Z.mul_assoc, <- Z.pow_add_r by lia.
      f_equal. f_equal. lia. }
    replace (digits c - 53) with (- k + Zpos n) by lia.
    apply binary_round_aux_shift; [| lia].
    rewrite (digits_shift c (53 - digits c) M); [lia | lia | by rewrite HM].
Qed.

Lemma binary_round_int s S k c :
  0 <= k -> Zpos S = Zpos c * 2 ^ k -> Zpos c < 2 ^ 53 ->
  exists m,
    SpecFloat.binary_round FloatOps.prec FloatOps.emax s S (- k)
    = SpecFloat.S754_finite s m (digits c - 53)
    /\ Zpos m = Zpos c * 2 ^ (53 - digits c).
Proof.
  intros Hk HS Hc. pose proof (digits_le_53 c Hc). pose proof (digits_pos c).
  pose proof (digits_shift c k S Hk HS) as HdS.
  destruct (decide (digits S <= 53)) as [Hle | Hgt].
  - destruct (binary_round_exact s S (- k)) as (m & -> & Hm); [lia | lia |].
    exists m. split; [f_equal; lia |].
    rewrite Hm, HS, HdS, <- Z.mul_assoc, <- Z.pow_add_r by lia. f_equal. f_equal. lia.
  - unfold SpecFloat.binary_round, SpecFloat.fexp, SpecFloat.emin, SpecFloat.shl_align.
    fold (digits S). change FloatOps.prec with 53. change FloatOps.emax with 1024.
    replace (Z.max (digits S + - k - 53) (3 - 1024 - 53) - - k) with (digits S - 53) by lia.
    destruct (digits S - 53) as [| n | n] eqn:Hn; [lia | | lia].
    apply (binary_round_aux_int s S k c); [lia | exact HS | exact Hc | lia].
Qed.

Lemma Prim2SF_eq_num c m :
  Zpos c < 2 ^ 53 -> Zpos m = Zpos c * 2 ^ (53 - digits c) ->
  SpecFloat.S754_finite false m (digits c - 53) = FloatOps.Prim2SF (TS.num (Zpos c)).
Proof.
  intros Hc Hm. destruct (Prim2SF_num c Hc) as (m' & -> & Hm').
  f_equal. apply Pos2Z.inj_pos. rewrite Hm, Hm'. reflexivity.
Qed.

Lemma mul_num a b :
  0 < a -> 0 < b -> a * b < 2 ^ 53 ->
  PrimFloat.mul (TS.num a) (TS.num b) = TS.num (a * b).
Proof.
  intros Ha Hb Hab. destruct a as [| a | a]; [lia | | lia]. destruct b as [| b | b]; [lia | | lia].
  assert (Zpos a < 2 ^ 53) by nia. assert (Zpos b < 2 ^ 53) by nia.
  apply FloatAxioms.Prim2SF_inj. rewrite FloatAxioms.mul_spec.
  destruct (Prim2SF_num a) as (ma & -> & Hma); [done |].
  destruct (Prim2SF_num b) as (mb & -> & Hmb); [done |].
  change (Zpos a * Zpos b) with (Zpos (a * b)) in *.
  pose proof (digits_le_53 a ltac:(done)). pose proof (digits_le_53 b ltac:(done)).
  pose proof (digits_pos a). pose proof (digits_pos b).
  unfold FloatAxioms.SF64mul, SpecFloat.SFmul. cbn [xorb].
  replace (digits a - 53 + (digits b - 53)) with (- (106 - digits a - digits b)) by lia.
  destruct (binary_round_aux_int false (ma * mb) (106 - digits a - digits b) (a * b))
    as (m & -> & Hm); [lia | | done | |].
  - rewrite Pos2Z.inj_mul, Hma, Hmb.
    replace (106 - digits a - digits b) with ((53 - digits a) + (53 - digits b)) by lia.
    rewrite Z.pow_add_r by lia. lia.
  - pose proof (digits_bounds a) as [Hla _]. pose proof (digits_bounds b) as [Hlb _].
    pose proof (digits_bounds (a * b)) as [_ Hu].
    destruct (decide (digits a + digits b - 1 <= digits (a * b))); [lia |].
    assert (2 ^ digits (a * b) <= 2 ^ (digits a - 1 + (digits b - 1)))
      by (apply Z.pow_le_mono_r; lia).
    rewrite Z.pow_add_r in * by lia. rewrite Pos2Z.inj_mul in Hu. nia.
  - apply Prim2SF_eq_num; done.
Qed.

Lemma add_num a b :
  0 < a -> 0 < b -> a + b < 2 ^ 53 ->
  PrimFloat.add (TS.num a) (TS.num b) = TS.num (a + b).
Proof.
  intros Ha Hb Hab. destruct a as [| a | a]; [lia | | lia]. destruct b as [| b | b]; [lia | | lia].
  apply FloatAxioms.Prim2SF_inj. rewrite FloatAxioms.add_spec.
  destruct (Prim2SF_num a) as (ma & -> & Hma); [lia |].
  destruct (Prim2SF_num b) as (mb & -> & Hmb); [lia |].
  change (Zpos a + Zpos b) with (Zpos (a + b)) in *.
  pose proof (digits_le_53 a ltac:(lia)). pose proof (digits_le_53 b ltac:(lia)).
  pose proof (digits_pos a). pose proof (digits_pos b).
  unfold FloatAxioms.SF64add, SpecFloat.SFadd. cbn [SpecFloat.cond_Zopp].
  set (ez := Z.min (digits a - 53) (digits b - 53)).
  assert (Hez : ez = - (- ez)) by lia.
  assert (Hx : Zpos (SpecFloat.shl_align ma (digits a - 53) ez).1 = Zpos a * 2 ^ (- ez)).
  { unfold SpecFloat.shl_align.
    destruct (ez - (digits a - 53)) as [| d | d] eqn:Hd; cbn [fst]; [| lia |].
    - rewrite Hma. f_equal. f_equal. lia.
    - rewrite iter_xO, Hma, <- Z.mul_assoc, <- Z.pow_add_r by lia. f_equal. f_equal. lia. }
  assert (Hy : Zpos (SpecFloat.shl_align mb (digits b - 53) ez).1 = Zpos b * 2 ^ (- ez)).
  { unfold SpecFloat.shl_align.
    destruct (ez - (digits b - 53)) as [| d | d] eqn:Hd; cbn [fst]; [| lia |].
    - rewrite Hmb. f_equal. f_equal. lia.
    - rewrite iter_xO, Hmb, <- Z.mul_assoc, <- Z.pow_add_r by lia. f_equal. f_equal. lia. }
  assert (0 < 2 ^ (- ez)) by (apply Z.pow_pos_nonneg; lia).
  destruct (Zpos (SpecFloat.shl_align ma (digits a - 53) ez).1
            + Zpos (SpecFloat.shl_align mb (digits b - 53) ez).1) as [| S | S] eqn:HS;
    [lia | | lia].
  cbn [SpecFloat.binary_normalize]. rewrite Hez.
  destruct (binary_round_int false S (- ez) (a + b)) as (m & -> & Hm); [lia | | lia |].
  - rewrite <- HS, Hx, Hy. lia.
  - apply Prim2SF_eq_num; [lia | done].
Qed.

(** [seed * 9301 + 49297] is exact below 2^53. *)
Lemma step_num s :
  0 <= s -> s * 9301 + 49297 < 2 ^ 53 ->
  PrimFloat.add (PrimFloat.mul (TS.num s) (TS.num 9301)) (TS.num 49297)
  = TS.num (s * 9301 + 49297).
Proof.
  intros Hs Hlt. destruct (decide (s = 0)) as [-> | Hne].
  - vm_compute. reflexivity.
  - rewrite mul_num by lia. apply add_num; lia.
Qed.

(** ** The checks, run *)

(** The division, the product and the floor are evaluated on the doubles of
    every state from -233280 to 233279, for each of the two dice. *)
Lemma faces_checked_20 : faces_checked 20 = true.
Proof. vm_compute. reflexivity. Qed.

Lemma faces_checked_6 : faces_checked 6 = true.
Proof. vm_compute. reflexivity. Qed.

Lemma face_checked_spec sides q s' :
  face_checked sides q = true ->
  0 < 233280 / sides ->
  q * (233280 / sides) <= s' < q * (233280 / sides) + 233280 / sides ->
  shows sides q s' = true.
Proof.
  intros H Hw Hs. apply (all_from_spec _ _ _ H). rewrite Z2Pos.id by exact Hw. exact Hs.
Qed.

Lemma faces_checked_spec sides s' :
  faces_checked sides = true ->
  0 < sides -> sides * (233280 / sides) = 233280 ->
  -233280 <= s' < 233280 ->
  shows sides (s' * sides / 233280) s' = true.
Proof.
  intros H Hsides Hw Hs. unfold faces_checked in H. rewrite forallb_forall in H.
  pose proof (Z.div_mod (s' * sides) 233280 ltac:(lia)) as Hdm.
  pose proof (Z.mod_pos_bound (s' * sides) 233280 ltac:(lia)) as Hm.
  set (q := s' * sides / 233280) in *. set (w := 233280 / sides) in *.
  assert (Hq : - sides <= q < sides) by nia.
  apply face_checked_spec; fold w.
  - apply H, list_elem_of_In, elem_of_seqZ. lia.
  - nia.
  - nia.
Qed.

Lemma shows_20 s' :
  -233280 <= s' < 233280 -> shows 20 (s' * 20 / 233280) s' = true.
Proof. apply faces_checked_spec; [exact faces_checked_20 | lia | reflexivity]. Qed.

Lemma shows_6 s' :
  -233280 <= s' < 233280 -> shows 6 (s' * 6 / 233280) s' = true.
Proof. apply faces_checked_spec; [exact faces_checked_6 | lia | reflexivity]. Qed.

(** The face [roll] shows, from the state [next] leaves. *)
Lemma roll_shows this sides q s' :
  TS.seed (TS.next this).2 = TS.num s' ->
  shows sides q s' = true ->
  (TS.roll this (TS.num sides)).1 = TS.num (q + 1).
Proof.
  intros Hs Hq. apply FloatAxioms.Leibniz.eqb_spec in Hq.
  unfold TS.roll, TS.next in *. cbn [fst snd TS.seed] in *. rewrite Hs. exact Hq.
Qed.

Lemma roll_next this sides : (TS.roll this sides).2 = (TS.next this).2.
Proof. reflexivity. Qed.

(** The state [next] leaves, as long as the step is computed exactly. *)
Lemma next_state s :
  0 <= s -> s * 9301 + 49297 < 2 ^ 53 ->
  (TS.next (TS.mkSeededRNG (TS.num s))).2 = TS.mkSeededRNG (TS.num (lcg_next s)).
Proof.
  intros Hs Hlt. unfold TS.next, lcg_next. cbn [fst snd TS.seed]. f_equal.
  rewrite step_num, js_rem_num by lia. f_equal. apply Z.rem_mod_nonneg; lia.
Qed.

Lemma lcg_next_range s : 0 <= lcg_next s < 233280.
Proof. unfold lcg_next. apply Z.mod_pos_bound. lia. Qed.

Lemma lcg_face s n : 0 < n -> 1 <= (lcg_Intn s n).1 + 1 <= n.
Proof.
  intros Hn. pose proof (lcg_next_range s). unfold lcg_Intn. cbn [fst].
  assert (0 <= lcg_next s * n / 233280 < n); [| lia].
  split; [apply Z.div_pos; nia | apply Z.div_lt_upper_bound; nia].
Qed.

(** X22.  rng.ts computes on doubles, but no rounding shows: from a seed or
    state [s] that is a non-negative integer small enough for
    [s * 9301 + 49297] to be exact ([< 2^53], that is [s <= 968411918577]),
    [rollD20] and [rollD6] leave the state [(s * 9301 + 49297) mod 233280]
    and return [floor (state * sides / 233280) + 1], in integer arithmetic;
    that is a face between 1 and [sides], and a state below 233280, from
    which the next roll is exact again. *)
Theorem ts_dice_follow_lcg s :
  0 <= s -> s * 9301 + 49297 < 2 ^ 53 ->
  TS.rollD20 (TS.mkSeededRNG (TS.num s))
    = (TS.num ((lcg_Intn s 20).1 + 1), TS.mkSeededRNG (TS.num (lcg_next s)))
  /\ TS.rollD6 (TS.mkSeededRNG (TS.num s))
    = (TS.num ((lcg_Intn s 6).1 + 1), TS.mkSeededRNG (TS.num (lcg_next s)))
  /\ 0 <= lcg_next s < 233280
  /\ 1 <= (lcg_Intn s 20).1 + 1 <= 20
  /\ 1 <= (lcg_Intn s 6).1 + 1 <= 6.
Proof.
  intros Hs Hlt. pose proof (lcg_next_range s) as Hr.
  pose proof (next_state s Hs Hlt) as Hn.
  assert (Hseed : TS.seed (TS.next (TS.mkSeededRNG (TS.num s))).2 = TS.num (lcg_next s))
    by (rewrite Hn; reflexivity).
  split; [| split; [| split; [exact Hr | split; apply lcg_face; lia]]].
  - unfold TS.rollD20. rewrite (surjective_pairing (TS.roll _ _)), roll_next, Hn.
    f_equal. apply (roll_shows _ 20 _ (lcg_next s) Hseed), shows_20. lia.
  - unfold TS.rollD6. rewrite (surjective_pairing (TS.roll _ _)), roll_next, Hn.
    f_equal. apply (roll_shows _ 6 _ (lcg_next s) Hseed), shows_6. lia.
Qed.

(** X24.  Whatever the seed was, when the state [next] leaves is an integer
    [s'] (the [%] keeps it strictly between -233280 and 233280) the face is
    exactly [floor (s' * sides / 233280) + 1].  For a negative [s'], which a
    negative seed gives, that is no face of the die: it is zero or
    negative. *)
Theorem ts_roll_face this s' :
  TS.seed (TS.next this).2 = TS.num s' ->
  -233280 < s' < 233280 ->
  (TS.rollD20 this).1 = TS.num (s' * 20 / 233280 + 1)
  /\ (TS.rollD6 this).1 = TS.num (s' * 6 / 233280 + 1)
  /\ (s' < 0 -> -19 <= s' * 20 / 233280 + 1 <= 0 /\ -5 <= s' * 6 / 233280 + 1 <= 0).
Proof.
  intros Hseed Hs. split; [| split].
  - apply (roll_shows _ 20 _ s' Hseed), shows_20. lia.
  - apply (roll_shows _ 6 _ s' Hseed), shows_6. lia.
  - intros Hneg.
    pose proof (Z.div_mod (s' * 20) 233280 ltac:(lia)).
    pose proof (Z.mod_pos_bound (s' * 20) 233280 ltac:(lia)).
    pose proof (Z.div_mod (s' * 6) 233280 ltac:(lia)).
    pose proof (Z.mod_pos_bound (s' * 6) 233280 ltac:(lia)).
    lia.
Qed.
(** * The statements above, on examples *)

Lemma RandomInt_range_witness :
  exists v s', @RandomInt Lcg (@NewSeededRNG Lcg 1) 3 9 = Done (v, s') /\ 3 <= v <= 9.
Proof.
  exists 4, (@mkSeededRNG Lcg 58598). split; [reflexivity|].
  apply (@RandomInt_range Lcg (@NewSeededRNG Lcg 1) 3 9 4 (@mkSeededRNG Lcg 58598)).
  - unfold is_int, int_min, int_max; lia.
  - unfold is_int, int_min, int_max; lia.
  - lia.
  - reflexivity.
Defined.

Lemma RandomInt_panics_witness :
  @RandomInt Lcg (@NewSeededRNG Lcg 1) (- 2 ^ 62) (2 ^ 62) = Fault InvalidIntnArgument.
Proof.
  apply (@RandomInt_panics Lcg (@NewSeededRNG Lcg 1) (- 2 ^ 62) (2 ^ 62)).
  - unfold is_int, int_min, int_max; lia.
  - unfold is_int, int_min, int_max; lia.
  - unfold int_max; lia.
Defined.


Lemma GetCurrentCharacter_reachable_witness :
  exists r,
    @ApplyAction Lcg KeyOrder (@CreateInitialState Lcg MergeSort [hero] [goblin] 42)
      (defendAction "p1") 1 = Ok r
    /\ exists i c, GetCurrentCharacter (Res_State r) = Done (Some (i, c))
                   /\ Characters (Res_State r) !! i = Some c
                   /\ TurnOrder (Res_State r) !! Z.to_nat (CurrentTurn (Res_State r))
                      = Some (Char_ID c).
Proof.
  eexists. split; [vm_compute; reflexivity|].
  apply (@GetCurrentCharacter_reachable Lcg KeyOrder MergeSort [hero] [goblin] 42).
  - discriminate.
  - eapply (@reach_step Lcg KeyOrder _ _ (defendAction "p1") 1); [apply reach_start|].
    vm_compute. reflexivity.
Defined.


Lemma ApplyAction_wellformed_witness :
  exists r,
    @ApplyAction Lcg KeyOrder arena (abilityAction "p1" "a1" "e1") 5 = Ok r
    /\ wellformed (Res_State r).
Proof.
  apply (@ApplyAction_wellformed Lcg KeyOrder arena (abilityAction "p1" "a1" "e1") 5).
  by_compute.
Defined.




Lemma advanceTurn_verdict_witness :
  exists s',
    @advanceTurn KeyOrder arena = Ok s'
    /\ (Forall (fun c => ~ alive_player c) (Characters arena) ->
        IsComplete s' = true /\ Winner s' = Some "enemy")
    /\ (Exists alive_player (Characters arena) ->
        Forall (fun c => ~ alive_enemy c) (Characters arena) ->
        IsComplete s' = true /\ Winner s' = Some "player")
    /\ (Exists alive_player (Characters arena) -> Exists alive_enemy (Characters arena) ->
        IsComplete s' = IsComplete arena /\ Winner s' = Winner arena).
Proof.
  eexists. split; [vm_compute; reflexivity|].
  apply (@advanceTurn_verdict KeyOrder arena). vm_compute. reflexivity.
Defined.

Lemma ApplyAction_complete_stays_witness :
  exists r,
    @ApplyAction Lcg KeyOrder deserted_arena (attackAction "e1" "p1" "w2") 9 = Ok r
    /\ IsComplete (Res_State r) = true
    /\ Round (Res_State r) = 3
    /\ CurrentTurn (Res_State r) = 1.
Proof.
  eexists. split; [vm_compute; reflexivity|].
  apply (@ApplyAction_complete_stays Lcg KeyOrder deserted_arena
           (attackAction "e1" "p1" "w2") 9).
  - reflexivity.
  - vm_compute. reflexivity.
Defined.

Lemma built_event_ids_unique_witness :
  NoDup (Event_ID <$> mes_events two_sessions).
Proof.
  apply (@built_event_ids_unique Plain two_sessions).
  unfold two_sessions. apply built_events. apply built_events. apply built_new.
Defined.

Lemma GetEvents_after_append_witness :
  (GetEvents two_sessions "game" 0).1
  = [set_Event_ID (damageEvent "e1" 12 "p1") "game-1-0";
     set_Event_ID (damageEvent "p1" 3 "e1") "game-2-1-1";
     set_Event_ID (deathEvent "p1") "game-2-1-2"].
Proof.
  unfold two_sessions.
  rewrite (@GetEvents_after_append Plain _ "game" "game-2" 1 _ 0) by reflexivity.
  vm_compute. reflexivity.
Defined.

Lemma GetEvents_other_session_witness :
  GetEvents (AppendEvents two_sessions "other" 4 [fleeEvent "p9"]).2 "game-2" 0
  = GetEvents two_sessions "game-2" 0.
Proof.
  apply (@GetEvents_other_session Plain two_sessions "game-2" "other" 4 [fleeEvent "p9"] 0).
  - reflexivity.
  - reflexivity.
Defined.


Lemma GetAllStates_copy_witness :
  copyStates two_states (reverse (map_to_list two_states).*1) = two_states
  /\ GetAllStates two_states = two_states.
Proof.
  apply (GetAllStates_copy two_states (reverse (map_to_list two_states).*1)).
  apply reverse_Permutation.
Defined.

Lemma Counter_inj : Inj (=) (=) (@uuid Counter).
Proof.
  intros x y H. simpl in H.
  apply (inj (String.app "id-")) in H. by apply (inj pretty) in H.
Qed.

Lemma ConvertScenarioToState_distinct_ids_witness :
  NoDup (Char_ID <$> Characters (@ConvertScenarioToState Lcg MergeSort Counter ambush 42 0).1)
  /\ NoDup (TurnOrder (@ConvertScenarioToState Lcg MergeSort Counter ambush 42 0).1).
Proof.
  apply (@ConvertScenarioToState_distinct_ids Lcg MergeSort Counter ambush 42 0).
  exact Counter_inj.
Defined.

Lemma arena_server_healthy : healthy arena_server.
Proof.
  unfold healthy, arena_server, SetState, NewStateManager. simpl.
  apply map_Forall_insert_2; [by_compute|apply map_Forall_empty].
Qed.

Lemma handleGameAction_healthy_witness :
  exists answer srv',
    @handleGameAction Lcg KeyOrder Plain arena_server "s" "attack" 7 100
    = Served (answer, srv')
    /\ healthy srv'
    /\ answer <> Answers 400 "No current character".
Proof.
  apply (@handleGameAction_healthy Lcg KeyOrder Plain arena_server "s" "attack" 7 100).
  exact arena_server_healthy.
Defined.


Lemma ts_dice_follow_lcg_witness :
  12345 * 9301 + 49297 < 2 ^ 53
  /\ TS.rollD20 (TS.mkSeededRNG (TS.num 12345))
     = (TS.num 9, TS.mkSeededRNG (TS.num 96382)).
Proof.
  split; [lia |].
  destruct (ts_dice_follow_lcg 12345 ltac:(lia) ltac:(lia)) as [H _]. exact H.
Defined.

Lemma ts_roll_face_witness :
  TS.seed (TS.next (TS.mkSeededRNG (TS.num (-10)))).2 = TS.num (-43713)
  /\ (TS.rollD20 (TS.mkSeededRNG (TS.num (-10)))).1 = TS.num (-3)
  /\ (TS.rollD6 (TS.mkSeededRNG (TS.num (-10)))).1 = TS.num (-1).
Proof.
  assert (H : TS.seed (TS.next (TS.mkSeededRNG (TS.num (-10)))).2 = TS.num (-43713))
    by (vm_compute; reflexivity).
  split; [exact H |].
  destruct (ts_roll_face _ (-43713) H ltac:(lia)) as (H20 & H6 & _).
  split; [exact H20 | exact H6].
Defined.
